(* ===== verification/_CoqProject ===== *)
-Q . S2P
Prelude.v
Values.v
OrderedIndex.v
Matchers.v
Table.v
Update.v
Select.v
Analyze.v
Middleware.v
Mutations.v
Operations.v
Lifecycle.v
Concurrency.v
Database.v
