(* ===== verification/Prelude.v ===== *)
(** * A verification development of blinkdb's storage and query engine

    blinkdb (src/packages/db and src/packages/core) is an in-memory
    database.  A table keeps its entities in a primary ordered index (a
    B-tree from primary-key value to entity) and in secondary indexes (a
    B-tree per indexed property, from property value to an array, the
    bucket, of entities).  Queries select candidate entities through an
    index and re-check them with the matcher evaluator; a cost analyzer
    estimates how many entities a filter makes a scan touch; mutations
    (insert, update, remove, upsert, updateWhere) keep the indexes in
    step with the entities and dispatch change events; every public
    operation runs through a middleware chain of hooks.

    ** Files, in dependency order, and what they model

    - [Prelude] (this file): the result type of fallible code with its
      bind notation [x <- c ;; k] and the state-with-errors type [stm]
      with [x <~ c ;; k] (scope [blink_scope]); the JavaScript array
      built-ins the code calls ([indexOf], [splice] of one element, as
      [splice1], and their lemmas on occurrence counts [occ]); objects
      used as dictionaries ([assoc_lookup], [assoc_replace]); the hint
      databases [blink] and [blink_rw]; the tactic [decide_by_eval].
    - [Values]: JavaScript primitives ([value]), strict equality [===],
      [<], [<=], [>], [>=] on primitives, entities as objects (ordered
      field lists, [get_field], in-place [set_field]), the errors the code
      throws, and the order of B-tree keys.
    - [OrderedIndex]: the B-tree of the storage (sorted-btree, not under
      src/, modelled from the spec, 4.1) as a strictly sorted association
      list behind the [KeyOrder] interface (a [Class] with an [Instance]
      for values): [get], [set], [delete], [has], [size], [valuesArray],
      [totalItemSize], and their laws.
    - [Matchers]: [matchesMatcher] and the five matchers of
      core/src/query/filter/matchers.ts; the filter evaluator
      ([matchesWhere], [filterWhereItems], not under src/, from the spec).
    - [Table]: the state [table[BlinkKey]] (name, primary-key property,
      clone option, a heap of entity objects, the primary index, the
      secondary indexes, the log of dispatched events); the index
      invariant [table_wf] with its executable check [table_wfb] and
      soundness lemma; the abstract view [view] (a map from primary key
      to entity); the spec's example table [demo_users].
    - [Update]: update.ts ([update]) and updateMany.ts
      ([internalUpdateMany]): the loop [updateKey] over the keys of a
      diff, moving an entity between buckets by identity; the abstract
      batch update [abs_updateMany].
    - [Select]: select/where.ts ([selectForWhere], the choice of index),
      select/and.ts ([selectAndFilterItems] with its splice loop) and
      core/src/core/many.ts ([many]); [selectForMatcher],
      [selectWhereFilterItems] and [selectOrFilterItems] from the spec.
    - [Analyze]: analyze/where.ts, or.ts and index.ts; [analyzeMatcher]
      and [analyzeAnd] from the spec.
    - [Middleware]: events/Middleware.ts and events/types.ts: the hook
      context, [executeHook] and both forms (overloads) of [middleware].
    - [Mutations]: insert.ts, remove.ts and upsert.ts over the batch
      operations insertMany, removeMany and upsertMany (not under src/,
      from the spec, 4.6), and the abstract insert, remove and upsert.
    - [Operations]: updateWhere.ts ([internalUpdateWhere], with the clone
      option and callbacks that mutate their argument), the parameter and
      result types of the hooks of every action ([HookMethods],
      [HookParams], [HookReturn] of types.ts) and the public operations
      that run the internal ones through [middleware] with hooks of the
      action's types.
    - [Lifecycle]: [createTable] (not under src/, from the spec) and the
      step relation [step] of the mutations; the tables reachable from a
      created table by [rtc step] (stdpp's reflexive-transitive closure)
      are the tables a program observes.
    - [Concurrency]: [internalUpdateWhere] split at its [await] into
      [updateWhere_start] (selection, clone, callbacks) and
      [updateWhere_finish] (primary-key checks, batch update); worlds of
      a table with suspended updateWhere operations, and the schedules
      [cstep] of the cooperative scheduler (spec, section 5) that run
      atomic operations, start and resume them in any order.
    - [Database]: a database as its tables by name; the public
      operations with the table among the hook parameters ([db_insert],
      [db_remove], [db_upsert], [db_updateMany], [db_updateWhere] over
      [db_run]), whose implementation works on the table the hooks pass
      to [next] ([on_table]); the wrappers of [Operations] are the case
      of hooks that keep the table.

    ** How the state and the operations correspond to the code

    Entities are JavaScript objects shared by reference between the
    primary index and the buckets.  They live in a heap ([gmap loc
    entity]); the indexes hold locations, so the identity-based
    [indexOf]/[splice] of the code is equality of locations, and an
    in-place assignment [item[key] = v] is a write to the heap that every
    index sees.  Every state-changing operation is a function
    [table -> table * result error A]: a throw returns the error with the
    state reached before it (updates made before the throw stay made, as
    in the code).  Event dispatch appends to the table's event log.

    ** What the theorems show

    - Every table reachable from a created table, by any sequence of
      mutations each returning or throwing, satisfies the index invariant
      and keeps its name, primary key, clone option and indexes (proved
      by induction on the sequence, from the per-operation lemmas).  The
      index invariant also holds on
      every schedule that interleaves operations with suspended
      updateWhere operations (with the clone option).
    - Interleaving: a suspended updateWhere resumed after its entity was
      removed throws [ItemNotFoundError]; one resumed after a concurrent
      update of its entity undoes that update (a lost update, matching
      no serial order; a finding).
    - The index invariant [table_wf] (spec, section 3: every stored entity
      in the primary index under its own key and exactly once in the
      bucket of its current value in every secondary index, nothing else)
      is kept by internalUpdateMany, update, internalInsertMany,
      internalRemoveMany, internalUpsertMany, and internalUpdateWhere
      with the clone option; without it, a mutating callback breaks it,
      also when the primary-key check then rejects the batch (findings).
      The removal from a bucket removes exactly one occurrence of the
      object, by identity.
    - Refinement: seen through [view], the batch operations implement the
      abstract map operations [abs_updateMany], [abs_insertMany],
      [abs_removeMany] and [abs_upsertMany], results and errors included.
      The older [update] of update.ts is [internalUpdateMany] of one
      diff, up to the plain [Error]s it throws (a finding).
    - Queries: [many] returns exactly the stored entities that pass a
      where-filter whatever index it uses, and the answer does not depend
      on the secondary indexes; inserting then querying by key returns
      the entity (round trip); removing then querying finds nothing; an
      update moves the entity from the answer for its old value to the
      answer for its new one; a [null] matcher on a property without an
      index makes [many] throw;
      [selectAndFilterItems] loses matching entities when it removes
      more than one item (a finding), is correct when it removes at most
      one, and selects nothing for an [$and] without children.
    - The analyzer returns the smallest non-zero estimate (0 estimates
      are ignored, a finding); [analyzeOr] sums as JavaScript numbers and
      three unindexed branches give a rounded estimate beyond [2^53] (a
      finding).
    - The middleware runs database hooks, then table hooks, then the
      implementation; pass-through hooks change nothing; a chain of hooks
      that each call [next] once reaches the implementation (liveness),
      on the parameters as the hooks transformed them; a hook that
      throws, anywhere after hooks that continue, stops the operation
      with the table unchanged.

    ** Bounds, fuel and what is not modelled

    Every definition is structurally recursive: loops run over the lists
    of diffs, entities, keys or hooks they iterate, so no fuel is needed
    and every operation terminates by construction.  Numbers are
    integers ([Z]); NaN and fractions are not modelled.  The analyzer's
    estimates below [2^53] are exact; the sum of [analyzeOr] is rounded
    to the nearest double ([js_add]), the one place where an estimate
    can pass [2^53].  Not modelled: the
    [from] cursor of the selections, sort/limit, the watch, count, first,
    one, clear and removeWhere operations and their wrappers (not under
    src/; their hook types are modelled), persistence, createDB, the
    cloning of inserted entities (the heap holds values), the listeners
    of the events (dispatch is the log of emitted events), callbacks
    of updateWhere that touch other objects than their item or resolve
    in an order other than the items' (the first failing check is the
    first item's), suspension points inside hooks other than before
    [next] (the operation after them is atomic), and the JavaScript
    enumeration order of integer-like property names (objects are
    iterated in list order). *)

From stdpp Require Export base list strings gmap.
From Stdlib Require Export ZArith Lia Ascii.

Declare Scope blink_scope.
Delimit Scope blink_scope with blink.
Open Scope blink_scope.

Create HintDb blink discriminated.
Create Rewrite HintDb blink_rw.

(** ** Results of fallible code *)

Inductive result (E A : Type) : Type :=
| Ok (a : A)
| Err (e : E).
Arguments Ok {E A} a.
Arguments Err {E A} e.

Notation "x <- c1 ;; c2" :=
  (match c1 with Ok x => c2 | Err e => Err e end)
  (at level 60, c1 at next level, right associativity) : blink_scope.

(** [for (const x of xs) { s = body(s, x) }] where [body] may throw. *)
Fixpoint result_fold {E S A} (f : S -> A -> result E S) (s : S) (xs : list A)
    : result E S :=
  match xs with
  | [] => Ok s
  | x :: xs' => s' <- f s x ;; result_fold f s' xs'
  end.

(** ** State with exceptions

    Code that mutates shared objects and may throw: the state reached
    before a throw persists (JavaScript has no rollback), so a step
    returns the new state together with a result. *)

Definition stm (S E A : Type) : Type := S -> S * result E A.

Definition sret {S E A} (a : A) : stm S E A := fun s => (s, Ok a).
Definition sthrow {S E A} (e : E) : stm S E A := fun s => (s, Err e).
Definition sget {S E} : stm S E S := fun s => (s, Ok s).
Definition smodify {S E} (f : S -> S) : stm S E unit := fun s => (f s, Ok tt).

Definition sbind {S E A B} (c : stm S E A) (k : A -> stm S E B) : stm S E B :=
  fun s => match c s with
           | (s', Ok a) => k a s'
           | (s', Err e) => (s', Err e)
           end.

Notation "x <~ c1 ;; c2" := (sbind c1 (fun x => c2))
  (at level 60, c1 at next level, right associativity) : blink_scope.

(** [for (const x of xs) body(x)] *)
Fixpoint sfor {S E A} (body : A -> stm S E unit) (xs : list A) : stm S E unit :=
  match xs with
  | [] => sret tt
  | x :: xs' => _ <~ body x ;; sfor body xs'
  end.

(** A property of states that every step of a loop body keeps, on its
    normal and on its exceptional exit, is kept by the loop. *)
Lemma sfor_preserves {S E A} (P : S -> Prop) (body : A -> stm S E unit) xs s :
  (∀ x s, x ∈ xs -> P s -> P (body x s).1) -> P s -> P (sfor body xs s).1.
Proof.
  revert s. induction xs as [|x xs IH]; intros s Hstep Hs; simpl; [done|].
  unfold sbind. destruct (body x s) as [s' [[]|e]] eqn:Hb.
  - apply IH; [intros; apply Hstep; set_solver|].
    change s' with (s', @Ok E unit tt).1. rewrite <- Hb. apply Hstep; set_solver.
  - change s' with (s', @Err E unit e).1. rewrite <- Hb. apply Hstep; set_solver.
Qed.

(** A loop throws only what its body throws. *)
Lemma sfor_error {S E A} (Q : E -> Prop) (body : A -> stm S E unit) xs s e :
  (∀ x s e, (body x s).2 = Err e -> Q e) -> (sfor body xs s).2 = Err e -> Q e.
Proof.
  revert s. induction xs as [|x xs IH]; intros s Hbody Hs; simpl in *; [done|].
  unfold sbind in Hs. destruct (body x s) as [s' [[]|e']] eqn:Hb; [by eapply IH|].
  apply (Hbody x s). by rewrite Hb.
Qed.

(** A property of states kept by a stateful computation, on its normal
    and on its exceptional exit. *)
Definition stm_preserves {S E A} (P : S -> Prop) (c : stm S E A) : Prop := ∀ s, P s -> P (c s).1.

Lemma sret_preserves {S E A} (P : S -> Prop) (a : A) : stm_preserves (E:=E) P (sret a).
Proof. by intros s. Qed.

Lemma smodify_preserves {S E} (P : S -> Prop) (f : S -> S) :
  (∀ s, P s -> P (f s)) -> stm_preserves (E:=E) P (smodify f).
Proof. intros Hf s. apply Hf. Qed.

Lemma sbind_preserves {S E A B} (P : S -> Prop) (c : stm S E A) (k : A -> stm S E B) :
  stm_preserves P c -> (∀ a, stm_preserves P (k a)) -> stm_preserves P (sbind c k).
Proof.
  intros Hc Hk s Hs. unfold sbind. pose proof (Hc s Hs) as H1.
  destruct (c s) as [s' [a|e]]; simpl in *; [by apply Hk|done].
Qed.

Lemma sfor_stm_preserves {S E A} (P : S -> Prop) (body : A -> stm S E unit) xs :
  (∀ x, stm_preserves P (body x)) -> stm_preserves P (sfor body xs).
Proof. intros Hb s Hs. apply sfor_preserves; [|done]. intros x s' _. apply Hb. Qed.

#[export] Hint Resolve sret_preserves smodify_preserves sbind_preserves sfor_stm_preserves : blink.

(** ** JavaScript array built-ins on arrays of references *)

Section ArrayBuiltins.
Context {A : Type} `{EqDecision A}.

(** Position of the first element equal to [x]. *)
Fixpoint index_of_nat (x : A) (l : list A) : option nat :=
  match l with
  | [] => None
  | y :: l' => if decide (x = y) then Some 0 else S <$> index_of_nat x l'
  end.

(** [Array.prototype.indexOf]: a position, or -1. *)
Definition indexOf (l : list A) (x : A) : Z :=
  match index_of_nat x l with Some i => Z.of_nat i | None => (-1)%Z end.

(** Remove the element at a position (no change out of range). *)
Fixpoint splice_at (i : nat) (l : list A) : list A :=
  match l, i with
  | [], _ => []
  | _ :: l', 0 => l'
  | y :: l', S i' => y :: splice_at i' l'
  end.

(** [Array.prototype.splice(start, 1)]: a negative start counts from
    the end (clamped at 0), a start past the end removes nothing. *)
Definition splice1 (start : Z) (l : list A) : list A :=
  let len := Z.of_nat (length l) in
  let s := if (start <? 0)%Z then Z.max (len + start) 0 else Z.min start len in
  splice_at (Z.to_nat s) l.

(** Reference: remove the first occurrence of [x]. *)
Fixpoint remove_first (x : A) (l : list A) : list A :=
  match l with
  | [] => []
  | y :: l' => if decide (x = y) then l' else y :: remove_first x l'
  end.

(** Occurrences of [x] in [l]. *)
Definition occ (x : A) (l : list A) : nat := length (List.filter (fun y => bool_decide (y = x)) l).

Lemma index_of_nat_None x l : index_of_nat x l = None <-> x ∉ l.
Proof.
  induction l as [|y l IH]; simpl; [set_solver|].
  case_decide; subst; [split; [done|set_solver]|].
  destruct (index_of_nat x l); simpl; split; [done| |set_solver|]; set_solver.
Qed.

Lemma splice_at_index_of x l i :
  index_of_nat x l = Some i -> splice_at i l = remove_first x l.
Proof.
  revert i. induction l as [|y l IH]; intros i; simpl; [done|].
  case_decide; [by intros [= <-]|].
  destruct (index_of_nat x l) eqn:E; simpl; [|done].
  intros [= <-]. simpl. by rewrite (IH n).
Qed.

Lemma index_of_nat_lt x l i : index_of_nat x l = Some i -> i < length l.
Proof.
  revert i. induction l as [|y l IH]; intros i; simpl; [done|].
  case_decide; [intros [= <-]; lia|].
  destruct (index_of_nat x l) eqn:E; simpl; [|done].
  intros [= <-]. specialize (IH n eq_refl). lia.
Qed.

(** [const i = arr.indexOf(x); if (i !== -1) arr.splice(i, 1);]
    removes the first occurrence of [x]. *)
Lemma splice_indexOf x l :
  (if decide (indexOf l x = (-1)%Z) then l else splice1 (indexOf l x) l)
  = remove_first x l.
Proof.
  unfold indexOf, splice1. destruct (index_of_nat x l) eqn:E.
  - rewrite decide_False by lia.
    pose proof (index_of_nat_lt _ _ _ E).
    rewrite (proj2 (Z.ltb_ge _ _)) by lia.
    rewrite Z.min_l by lia. rewrite Nat2Z.id.
    by apply splice_at_index_of.
  - rewrite decide_True by done. apply index_of_nat_None in E.
    clear -E. induction l as [|y l IH]; simpl; [done|].
    rewrite decide_False by set_solver. f_equal. apply IH. set_solver.
Qed.

Lemma occ_nil x : occ x [] = 0.
Proof. done. Qed.

Lemma occ_cons x y l : occ x (y :: l) = (if decide (y = x) then 1 else 0) + occ x l.
Proof. unfold occ. simpl. by case_bool_decide; case_decide. Qed.

Lemma occ_app x l1 l2 : occ x (l1 ++ l2) = occ x l1 + occ x l2.
Proof. unfold occ. by rewrite List.filter_app, length_app. Qed.

Lemma occ_zero x l : occ x l = 0 <-> x ∉ l.
Proof.
  induction l as [|y l IH]; [set_solver|].
  rewrite occ_cons. case_decide; subst; [set_solver|].
  rewrite IH. set_solver.
Qed.

Lemma occ_pos x l : x ∈ l -> 0 < occ x l.
Proof. intros H. destruct (occ x l) eqn:E; [|lia]. apply occ_zero in E. done. Qed.

Lemma occ_zero_ne x l : occ x l ≠ 0 -> x ∈ l.
Proof. intros H. destruct (decide (x ∈ l)) as [|Hn]; [done|]. by apply occ_zero in Hn. Qed.

Lemma occ_remove_first_same x l : occ x (remove_first x l) = occ x l - 1.
Proof.
  induction l as [|y l IH]; simpl; [done|].
  rewrite occ_cons. case_decide; subst.
  - rewrite decide_True by done. lia.
  - rewrite occ_cons, decide_False by done. simpl. done.
Qed.

Lemma occ_remove_first_other x y l : x ≠ y -> occ y (remove_first x l) = occ y l.
Proof.
  intros Hne. induction l as [|z l IH]; simpl; [done|].
  rewrite occ_cons. case_decide; subst.
  - rewrite decide_False by done. done.
  - rewrite occ_cons, IH. done.
Qed.

Lemma remove_first_not_elem_of x l : x ∉ l -> remove_first x l = l.
Proof.
  induction l as [|y l IH]; simpl; intros Hx; [done|].
  rewrite decide_False by set_solver. f_equal. apply IH. set_solver.
Qed.

Lemma elem_of_remove_first x y l : y ∈ remove_first x l -> y ∈ l.
Proof.
  induction l as [|z l IH]; simpl; [done|].
  case_decide; set_solver.
Qed.

Lemma NoDup_occ l : NoDup l <-> ∀ x, occ x l <= 1.
Proof.
  induction l as [|y l IH].
  - split; [intros _ x; rewrite occ_nil; lia|constructor].
  - rewrite NoDup_cons, IH. split.
    + intros [Hy Hl] x. rewrite occ_cons. case_decide; subst; [|apply Hl].
      apply occ_zero in Hy. lia.
    + intros H. split.
      * apply occ_zero. specialize (H y). rewrite occ_cons, decide_True in H by done. lia.
      * intros x. specialize (H x). rewrite occ_cons in H. lia.
Qed.
End ArrayBuiltins.

#[export] Hint Rewrite @occ_app @occ_cons @occ_nil @occ_remove_first_same : blink_rw.
#[export] Hint Resolve elem_of_remove_first occ_pos : blink.

(** ** Objects used as dictionaries with a fixed set of keys *)

Section Assoc.
Context {K V : Type} `{EqDecision K}.

(** [obj[k]] on an object whose values are not [undefined]. *)
Fixpoint assoc_lookup (k : K) (l : list (K * V)) : option V :=
  match l with
  | [] => None
  | (k', v) :: l' => if decide (k = k') then Some v else assoc_lookup k l'
  end.

(** [obj[k] = v] for a key already present; the order is kept. *)
Fixpoint assoc_replace (k : K) (v : V) (l : list (K * V)) : list (K * V) :=
  match l with
  | [] => []
  | (k', v') :: l' => if decide (k = k') then (k, v) :: l' else (k', v') :: assoc_replace k v l'
  end.

Lemma assoc_lookup_elem_of k v l : NoDup l.*1 -> assoc_lookup k l = Some v <-> (k, v) ∈ l.
Proof.
  induction l as [|[k' v'] l IH]; simpl; intros Hnd; [set_solver|].
  apply NoDup_cons in Hnd as [Hk' Hnd]. rewrite elem_of_cons.
  case_decide; subst.
  - split; [intros [= ->]; by left|]. intros [[= ->]|Hin]; [done|].
    destruct Hk'. apply list_elem_of_fmap. by exists (k', v).
  - rewrite IH by done. split; [by right|]. intros [[= -> ->]|Hin]; done.
Qed.

Lemma assoc_replace_fst k v l : (assoc_replace k v l).*1 = l.*1.
Proof.
  induction l as [|[k' v'] l IH]; simpl; [done|].
  case_decide; subst; simpl; [done|]. by f_equal.
Qed.

Lemma elem_of_fst_of {A B} (a : A) (b : B) (l : list (A * B)) : (a, b) ∈ l -> a ∈ l.*1.
Proof. intros Hin. apply list_elem_of_fmap. by exists (a, b). Qed.

Lemma elem_of_assoc_replace k v l k' v' :
  NoDup l.*1 ->
  (k', v') ∈ assoc_replace k v l <->
    (k' = k ∧ v' = v ∧ k ∈ l.*1) ∨ (k' ≠ k ∧ (k', v') ∈ l).
Proof.
  induction l as [|[k0 v0] l IH]; simpl; intros Hnd; [set_solver|].
  apply NoDup_cons in Hnd as [Hk0 Hnd].
  pose proof (elem_of_fst_of (A:=K) (B:=V)) as Hfst.
  case_decide as Hkk; [subst k0|]; rewrite !elem_of_cons.
  - split.
    + intros [[= -> ->]|Hin]; [left; split_and!; [done|done|by left]|].
      right. split; [|by right]. intros ->. by apply Hk0, (Hfst _ v').
    + intros [[-> [-> _]]|[Hne [Heq|Hin]]]; [by left|by injection Heq|by right].
  - rewrite IH by done. split.
    + intros [Heq|[[-> [-> Hin]]|[Hne Hin]]].
      * injection Heq as -> ->. right. split; [done|by left].
      * left. split_and!; [done|done|by right].
      * right. split; [done|by right].
    + intros [[-> [-> [Heq|Hin]]]|[Hne [Heq|Hin]]].
      * done.
      * right. left. split_and!; done.
      * left. by rewrite Heq.
      * right. right. split; done.
Qed.
End Assoc.

(** ** Tactics *)

(** Prove a decidable proposition on concrete data by evaluating its
    decision procedure. *)
Ltac decide_by_eval := apply (bool_decide_unpack _); vm_compute; reflexivity.
