(* ===== verification/Values.v ===== *)
(** * JavaScript values, objects and thrown errors

    The property values an entity holds and a matcher compares against
    are JavaScript primitives ([value]).  This file gives the operators
    the code applies to them: strict equality [===] (matchers.ts and the
    [!==] tests of update.ts and updateWhere.ts) and the relational
    operators of matchers.ts, following the Abstract Relational
    Comparison of ECMAScript on primitives.  Entities and diffs are
    JavaScript objects: ordered lists of (property name, value) pairs,
    read with [get_field] ([obj[key]], [undefined] when absent) and
    written with [set_field] ([obj[key] = v]).  It also gives the errors
    the code throws, and the total order the B-trees sort keys by. *)

From S2P Require Import Prelude.

(** ** Primitive values *)

Inductive value : Type :=
| VUndefined
| VNull
| VBool (b : bool)
| VNum (n : Z)
| VStr (s : string).

#[export] Instance value_eq_dec : EqDecision value.
Proof. solve_decision. Defined.

(** [x === y]: same type and same value (numbers carry no NaN here). *)
Definition strict_eq (x y : value) : bool := bool_decide (x = y).

Infix "===" := strict_eq (at level 70, no associativity) : blink_scope.

(** ** ToNumber *)

(** Digits of a decimal integer literal, most significant first. *)
Fixpoint digits_value (acc : Z) (s : string) : option Z :=
  match s with
  | EmptyString => Some acc
  | String c s' =>
      match Ascii.is_nat c with
      | Some d => digits_value (10 * acc + Z.of_nat d)%Z s'
      | None => None
      end
  end.

Fixpoint trim_start (s : string) : string :=
  match s with
  | String c s' => if Ascii.is_space c then trim_start s' else s
  | EmptyString => EmptyString
  end.

Definition trim (s : string) : string := String.rev (trim_start (String.rev (trim_start s))).

(** StringToNumber on the decimal integer literals (an optional sign and
    digits, surrounded by white space); the empty string is 0, every
    other string is NaN ([None]). *)
Definition string_to_number (s : string) : option Z :=
  match trim s with
  | EmptyString => Some 0%Z
  | String "-" (String _ _ as ds) => Z.opp <$> digits_value 0 ds
  | String "+" (String _ _ as ds) => digits_value 0 ds
  | ds => digits_value 0 ds
  end%char.

(** ToNumber on primitives; [None] is NaN. *)
Definition to_number (v : value) : option Z :=
  match v with
  | VUndefined => None
  | VNull => Some 0%Z
  | VBool b => Some (if b then 1 else 0)%Z
  | VNum n => Some n
  | VStr s => string_to_number s
  end.

(** ** Relational operators *)

(** Strings compare by code units; ascii codes are the code units of the
    strings modelled here. *)
Definition string_lt (s1 s2 : string) : bool :=
  match String.compare s1 s2 with Lt => true | _ => false end.

(** [x < y]: two strings compare lexicographically, anything else
    compares as numbers and a NaN operand gives [false]. *)
Definition js_lt (x y : value) : bool :=
  match x, y with
  | VStr s1, VStr s2 => string_lt s1 s2
  | _, _ =>
      match to_number x, to_number y with
      | Some a, Some b => (a <? b)%Z
      | _, _ => false
      end
  end.

(** [x <= y] is [!(y < x)] except that a NaN operand gives [false]. *)
Definition js_le (x y : value) : bool :=
  match x, y with
  | VStr s1, VStr s2 => negb (string_lt s2 s1)
  | _, _ =>
      match to_number x, to_number y with
      | Some a, Some b => (a <=? b)%Z
      | _, _ => false
      end
  end.

Definition js_gt (x y : value) : bool := js_lt y x.
Definition js_ge (x y : value) : bool := js_le y x.

(** ** Objects *)

(** A JavaScript object with own enumerable string-keyed properties, in
    insertion order ([for (key in obj)] visits them in this order). *)
Abbreviation object := (list (string * value)).
Abbreviation entity := object.

(** [key in obj] *)
Definition has_field (o : object) (k : string) : bool :=
  bool_decide (k ∈ o.*1).

(** [obj[key]]: the value of the property, [undefined] when absent. *)
Fixpoint get_field (o : object) (k : string) : value :=
  match o with
  | [] => VUndefined
  | (k', v) :: o' => if decide (k = k') then v else get_field o' k
  end.

(** [obj[key] = v]: an existing property keeps its position, a new one
    is appended. *)
Fixpoint set_field (o : object) (k : string) (v : value) : object :=
  match o with
  | [] => [(k, v)]
  | (k', v') :: o' => if decide (k = k') then (k, v) :: o' else (k', v') :: set_field o' k v
  end.

(** An object literal has each property once. *)
Definition object_wf (o : object) : Prop := NoDup o.*1.

Lemma get_set_field_same o k v : get_field (set_field o k v) k = v.
Proof.
  induction o as [|[k' v'] o IH]; simpl; [by rewrite decide_True|].
  case_decide; simpl; [by rewrite decide_True|]. by rewrite decide_False.
Qed.

Lemma get_set_field_other o k k' v :
  k ≠ k' -> get_field (set_field o k v) k' = get_field o k'.
Proof.
  intros Hne. induction o as [|[k0 v0] o IH]; simpl.
  - by rewrite decide_False.
  - case_decide; subst; simpl.
    + by rewrite !decide_False.
    + case_decide; [done|apply IH].
Qed.

Lemma elem_of_set_field_keys o k v x : x ∈ (set_field o k v).*1 -> x = k ∨ x ∈ o.*1.
Proof.
  induction o as [|[k' v'] o IH]; simpl; [set_solver|].
  case_decide; simpl; rewrite !elem_of_cons; [naive_solver|].
  intros [->|Hx]; [by right; left|]. destruct (IH Hx); [by left|by right; right].
Qed.

(** An assignment keeps an object an object: each property once. *)
Lemma set_field_wf o k v : object_wf o -> object_wf (set_field o k v).
Proof.
  unfold object_wf. induction o as [|[k' v'] o IH]; simpl; intros Hnd.
  - apply NoDup_singleton.
  - apply NoDup_cons in Hnd as [Hk' Hnd]. case_decide; subst; simpl; constructor; try done.
    + intros Hin. apply elem_of_set_field_keys in Hin as [->|Hin]; done.
    + by apply IH.
Qed.

#[export] Hint Rewrite get_set_field_same : blink_rw.

(** ** Errors the code throws *)

(** The message of a plain [new Error(...)] (update.ts), with the value
    it interpolates. *)
Inductive untyped_message : Type :=
| MsgInvalidPrimaryKey (pk : value)   (** [`"${pk}" is an invalid primary key value.`] *)
| MsgItemNotFound (pk : value).       (** [`Item with primary key "${pk}" not found.`] *)

Inductive error : Type :=
| TypeError (what : string)
| InvalidPrimaryKeyError (pk : value)
| ItemNotFoundError (pk : value)
| PrimaryKeyCannotBeModifiedError (pk : value)
| PrimaryKeyAlreadyInUseError (pk : value)
| UntypedError (m : untyped_message).

Abbreviation res := (result error).

(** ** The order of B-tree keys

    sorted-btree orders keys with its default comparator; on the values
    modelled here it is a total order: by type first (undefined, null,
    booleans, numbers, strings), then numerically or lexicographically. *)

Definition type_rank (v : value) : nat :=
  match v with VUndefined => 0 | VNull => 1 | VBool _ => 2 | VNum _ => 3 | VStr _ => 4 end.

Definition bool_compare (a b : bool) : comparison :=
  match a, b with
  | false, true => Lt
  | true, false => Gt
  | _, _ => Eq
  end.

Definition val_compare (x y : value) : comparison :=
  match x, y with
  | VBool a, VBool b => bool_compare a b
  | VNum a, VNum b => Z.compare a b
  | VStr a, VStr b => String.compare a b
  | _, _ => Nat.compare (type_rank x) (type_rank y)
  end.

Lemma ascii_compare_lt_trans a b c :
  Ascii.compare a b = Lt -> Ascii.compare b c = Lt -> Ascii.compare a c = Lt.
Proof.
  unfold Ascii.compare. rewrite !N.compare_lt_iff. lia.
Qed.

Lemma string_compare_lt_trans s1 s2 s3 :
  String.compare s1 s2 = Lt -> String.compare s2 s3 = Lt -> String.compare s1 s3 = Lt.
Proof.
  revert s2 s3. induction s1 as [|a1 s1 IH]; intros [|a2 s2] [|a3 s3]; simpl; try done.
  destruct (Ascii.compare a1 a2) eqn:H12; try done;
  destruct (Ascii.compare a2 a3) eqn:H23; try done.
  - apply Ascii.compare_eq_iff in H12, H23. subst.
    unfold Ascii.compare. rewrite N.compare_refl. apply IH.
  - apply Ascii.compare_eq_iff in H12. subst. by rewrite H23.
  - apply Ascii.compare_eq_iff in H23. subst. by rewrite H12.
  - by rewrite (ascii_compare_lt_trans _ _ _ H12 H23).
Qed.

Lemma string_compare_refl s : String.compare s s = Eq.
Proof.
  induction s as [|a s IH]; simpl; [done|].
  unfold Ascii.compare. by rewrite N.compare_refl.
Qed.

Lemma val_compare_eq x y : val_compare x y = Eq <-> x = y.
Proof.
  split.
  - destruct x, y; simpl; try (intros ?%Nat.compare_eq; discriminate);
      try (destruct b, b0; done); try done.
    + by intros ->%Z.compare_eq.
    + by intros ->%String.compare_eq_iff.
  - intros ->. destruct y; simpl; try done.
    + by destruct b.
    + apply Z.compare_refl.
    + apply string_compare_refl.
Qed.

Lemma val_compare_antisym x y : val_compare y x = CompOpp (val_compare x y).
Proof.
  destruct x, y; simpl; try done.
  - by destruct b, b0.
  - apply Z.compare_antisym.
  - apply String.compare_antisym.
Qed.

Lemma val_compare_lt_trans x y z :
  val_compare x y = Lt -> val_compare y z = Lt -> val_compare x z = Lt.
Proof.
  destruct x, y, z; simpl; try done;
    try (destruct b; done); try (destruct b, b0; done);
    try (destruct b0; done); try (destruct b0, b1; done).
  - by destruct b, b0, b1.
  - rewrite !Z.compare_lt_iff. lia.
  - apply string_compare_lt_trans.
Qed.
