(* ===== verification/OrderedIndex.v ===== *)
(** * The ordered index (sorted-btree)

    The storage of a table keeps its entities in B-trees from the
    package sorted-btree, which is not part of src/: the primary index
    maps a primary-key value to one entity, a secondary index maps a
    property value to the array of entities having it.  The spec (4.1)
    gives the contract used here: [get], [set], [delete] by key, [size]
    (distinct keys), [valuesArray] in key order, and [totalItemSize]
    (sum of bucket lengths).  The B-tree is modelled as an association
    list strictly sorted by a [KeyOrder] (the interface the keys promise),
    which has the same observable contract. *)

From S2P Require Import Prelude Values.
From Stdlib Require Import Sorting.Sorted.

(** ** The interface of keys: a total order given by a comparison *)

Class KeyOrder (K : Type) := {
  key_compare : K -> K -> comparison;
  key_compare_eq x y : key_compare x y = Eq <-> x = y;
  key_compare_antisym x y : key_compare y x = CompOpp (key_compare x y);
  key_compare_lt_trans x y z :
    key_compare x y = Lt -> key_compare y z = Lt -> key_compare x z = Lt
}.

#[export] Instance value_key_order : KeyOrder value := {|
  key_compare := val_compare;
  key_compare_eq := val_compare_eq;
  key_compare_antisym := val_compare_antisym;
  key_compare_lt_trans := val_compare_lt_trans
|}.

Module BTree.
Section Ops.
Context {K V : Type} `{KeyOrder K}.

Definition key_lt (a b : K) : Prop := key_compare a b = Lt.

(** [btree.get(k)] *)
Fixpoint get (m : list (K * V)) (k : K) : option V :=
  match m with
  | [] => None
  | (k', v) :: m' =>
      match key_compare k k' with
      | Lt => None
      | Eq => Some v
      | Gt => get m' k
      end
  end.

(** [btree.set(k, v)]: replaces the value of an existing key. *)
Fixpoint set (m : list (K * V)) (k : K) (v : V) : list (K * V) :=
  match m with
  | [] => [(k, v)]
  | (k', v') :: m' =>
      match key_compare k k' with
      | Lt => (k, v) :: m
      | Eq => (k, v) :: m'
      | Gt => (k', v') :: set m' k v
      end
  end.

(** [btree.delete(k)] *)
Fixpoint delete (m : list (K * V)) (k : K) : list (K * V) :=
  match m with
  | [] => []
  | (k', v') :: m' =>
      match key_compare k k' with
      | Lt => m
      | Eq => m'
      | Gt => (k', v') :: delete m' k
      end
  end.

(** [btree.has(k)] *)
Definition has (m : list (K * V)) (k : K) : bool := bool_decide (is_Some (get m k)).

(** [btree.size]: the number of keys. *)
Definition size (m : list (K * V)) : nat := length m.

(** [btree.valuesArray()]: the values in increasing key order. *)
Definition valuesArray (m : list (K * V)) : list V := m.*2.

(** Keys strictly increasing. *)
Definition wf (m : list (K * V)) : Prop := Sorted key_lt m.*1.

(** ** Lemmas *)

Lemma key_compare_refl k : key_compare k k = Eq.
Proof. by apply key_compare_eq. Qed.

Lemma key_compare_Gt a b : key_compare a b = Gt <-> key_compare b a = Lt.
Proof. rewrite (key_compare_antisym a b). destruct (key_compare a b); done. Qed.

#[local] Instance key_lt_trans : Transitive key_lt.
Proof. intros a b c. apply key_compare_lt_trans. Qed.

Lemma key_lt_irrefl k : ¬ key_lt k k.
Proof. unfold key_lt. by rewrite key_compare_refl. Qed.

Lemma wf_cons k v m : wf ((k, v) :: m) <-> wf m ∧ ∀ k', k' ∈ m.*1 -> key_lt k k'.
Proof.
  unfold wf. simpl. split.
  - intros Hs. apply Sorted_StronglySorted in Hs; [|intros a b c; apply key_compare_lt_trans].
    inversion Hs as [|? ? Hs' Hall]; subst. split.
    + by apply StronglySorted_Sorted.
    + intros k' Hk'. rewrite Forall_forall in Hall. by apply Hall.
  - intros [Hs Hall]. constructor; [done|].
    destruct m as [|[k1 v1] m1]; simpl; constructor. apply Hall. simpl. set_solver.
Qed.

Lemma wf_tail k v m : wf ((k, v) :: m) -> wf m.
Proof. rewrite wf_cons. tauto. Qed.

Lemma elem_of_wf_lt k v m k' v' :
  wf ((k, v) :: m) -> (k', v') ∈ m -> key_lt k k'.
Proof.
  rewrite wf_cons. intros [_ Hall] Hin. apply Hall.
  apply list_elem_of_fmap. by exists (k', v').
Qed.

Lemma get_elem_of m k v : wf m -> get m k = Some v <-> (k, v) ∈ m.
Proof.
  induction m as [|[k' v'] m IH]; simpl; intros Hwf; [set_solver|].
  rewrite elem_of_cons.
  destruct (key_compare k k') eqn:Hc.
  - apply key_compare_eq in Hc as ->. split; [intros [= ->]; by left|].
    intros [[= ->]|Hin]; [done|].
    exfalso. eapply key_lt_irrefl, elem_of_wf_lt; eauto.
  - split; [done|]. intros [[= -> ->]|Hin]; [by rewrite key_compare_refl in Hc|].
    pose proof (elem_of_wf_lt _ _ _ _ _ Hwf Hin). unfold key_lt in *.
    rewrite key_compare_antisym in Hc. destruct (key_compare k' k); done.
  - rewrite IH by eauto using wf_tail. split; [by right|].
    intros [[= -> ->]|Hin]; [by rewrite key_compare_refl in Hc|done].
Qed.

Lemma elem_of_set m k v k' v' :
  wf m -> (k', v') ∈ set m k v <-> (k', v') = (k, v) ∨ ((k', v') ∈ m ∧ k' ≠ k).
Proof.
  induction m as [|[k0 v0] m IH]; simpl; intros Hwf; [set_solver|].
  destruct (key_compare k k0) eqn:Hc.
  - apply key_compare_eq in Hc as ->. rewrite !elem_of_cons. split.
    + intros [Heq|Hin]; [by left|right]. split; [by right|].
      intros ->. eapply key_lt_irrefl, elem_of_wf_lt; eauto.
    + intros [Heq|[[[= -> ->]|Hin] Hne]]; [by left|done|by right].
  - rewrite !elem_of_cons. split.
    + intros [Heq|[Heq|Hin]]; [by left|..]; right.
      * inversion Heq; subst. split; [by left|]. intros ->.
        by rewrite key_compare_refl in Hc.
      * split; [by right|]. intros ->.
        pose proof (elem_of_wf_lt _ _ _ _ _ Hwf Hin). unfold key_lt in *.
        pose proof (key_compare_lt_trans _ _ _ Hc H0) as Hkk. by rewrite key_compare_refl in Hkk.
    + intros [Heq|[[Heq|Hin] Hne]]; [by left|right; by left|right; by right].
  - rewrite !elem_of_cons, IH by eauto using wf_tail. split.
    + intros [[= -> ->]|[Heq|[Hin Hne]]]; [right|by left|right].
      * split; [by left|]. intros ->. by rewrite key_compare_refl in Hc.
      * split; [by right|done].
    + intros [Heq|[[Heq|Hin] Hne]]; [right; by left|by left|right; by right].
Qed.

Lemma set_wf m k v : wf m -> wf (set m k v).
Proof.
  induction m as [|[k0 v0] m IH]; simpl; intros Hwf.
  - repeat constructor.
  - destruct (key_compare k k0) eqn:Hc.
    + apply key_compare_eq in Hc as ->. exact Hwf.
    + apply wf_cons. split; [done|]. intros k' Hk'.
      apply list_elem_of_fmap in Hk' as [[k1 v1] [-> Hin]].
      apply elem_of_cons in Hin as [[= -> ->]|Hin]; [done|].
      simpl. eapply key_compare_lt_trans; [exact Hc|]. eapply elem_of_wf_lt; eauto.
    + apply wf_cons. split; [by eauto using wf_tail|]. intros k' Hk'.
      apply list_elem_of_fmap in Hk' as [[k1 v1] [-> Hin]].
      apply elem_of_set in Hin; [|by eauto using wf_tail].
      destruct Hin as [[= -> ->]|[Hin _]].
      * by apply key_compare_Gt.
      * eapply elem_of_wf_lt; eauto.
Qed.

Lemma elem_of_delete m k k' v' :
  wf m -> (k', v') ∈ delete m k <-> (k', v') ∈ m ∧ k' ≠ k.
Proof.
  induction m as [|[k0 v0] m IH]; simpl; intros Hwf; [set_solver|].
  destruct (key_compare k k0) eqn:Hc.
  - apply key_compare_eq in Hc as ->. rewrite elem_of_cons. split.
    + intros Hin. split; [by right|]. intros ->.
      eapply key_lt_irrefl, elem_of_wf_lt; eauto.
    + intros [[[= -> ->]|Hin] Hne]; done.
  - split; [|tauto]. intros Hin. split; [done|]. intros ->.
    apply elem_of_cons in Hin as [[= -> ->]|Hin].
    + by rewrite key_compare_refl in Hc.
    + pose proof (elem_of_wf_lt _ _ _ _ _ Hwf Hin). unfold key_lt in *.
      rewrite key_compare_antisym, Hc in H0. done.
  - rewrite !elem_of_cons, IH by eauto using wf_tail. split.
    + intros [[= -> ->]|[Hin Hne]]; [|tauto]. split; [by left|].
      intros ->. by rewrite key_compare_refl in Hc.
    + intros [[Heq|Hin] Hne]; [by left|by right].
Qed.

Lemma delete_wf m k : wf m -> wf (delete m k).
Proof.
  induction m as [|[k0 v0] m IH]; simpl; intros Hwf; [done|].
  destruct (key_compare k k0); [by eauto using wf_tail|done|].
  apply wf_cons. split; [by eauto using wf_tail|]. intros k' Hk'.
  apply list_elem_of_fmap in Hk' as [[k1 v1] [-> Hin]].
  apply elem_of_delete in Hin; [|by eauto using wf_tail].
  destruct Hin as [Hin _]. eapply elem_of_wf_lt; eauto.
Qed.

Lemma get_set_same m k v : wf m -> get (set m k v) k = Some v.
Proof.
  intros Hwf. apply get_elem_of; [by apply set_wf|]. apply elem_of_set; auto.
Qed.

Lemma get_None m k : wf m -> get m k = None <-> ∀ v, (k, v) ∉ m.
Proof.
  intros Hwf. split.
  - intros Hg v Hin. apply (get_elem_of m k v) in Hin; [congruence|done].
  - intros Hn. destruct (get m k) as [v|] eqn:E; [|done].
    apply get_elem_of in E; [|done]. by destruct (Hn v).
Qed.

Lemma get_set_other m k k' v : wf m -> k ≠ k' -> get (set m k v) k' = get m k'.
Proof.
  intros Hwf Hne. destruct (get m k') as [v'|] eqn:E.
  - apply get_elem_of; [by apply set_wf|]. apply elem_of_set; [done|].
    right. split; [by apply get_elem_of|done].
  - apply get_None; [by apply set_wf|]. intros v' Hin.
    apply elem_of_set in Hin; [|done].
    destruct Hin as [[= -> ->]|[Hin _]]; [done|].
    by apply get_None with (v := v') in E.
Qed.

Lemma get_delete_same m k : wf m -> get (delete m k) k = None.
Proof.
  intros Hwf. apply get_None; [by apply delete_wf|]. intros v Hin.
  apply elem_of_delete in Hin; [|done]. by destruct Hin.
Qed.

Lemma get_delete_other m k k' : wf m -> k ≠ k' -> get (delete m k) k' = get m k'.
Proof.
  intros Hwf Hne. destruct (get m k') as [v'|] eqn:E.
  - apply get_elem_of; [by apply delete_wf|]. apply elem_of_delete; [done|].
    split; [by apply get_elem_of|done].
  - apply get_None; [by apply delete_wf|]. intros v' Hin.
    apply elem_of_delete in Hin; [|done].
    destruct Hin as [Hin _]. by apply get_None with (v := v') in E.
Qed.

Lemma wf_NoDup_keys m : wf m -> NoDup m.*1.
Proof.
  induction m as [|[k v] m IH]; simpl; intros Hwf; [constructor|].
  constructor; [|by eauto using wf_tail].
  intros Hin. apply wf_cons in Hwf as [_ Hall]. apply (key_lt_irrefl k), Hall, Hin.
Qed.

Lemma size_set_new m k v : wf m -> get m k = None -> size (set m k v) = S (size m).
Proof.
  unfold size. induction m as [|[k0 v0] m IH]; simpl; intros Hwf Hg; [done|].
  destruct (key_compare k k0); [done|done|]. simpl. rewrite IH; eauto using wf_tail.
Qed.
(** [set] of a new key adds one entry, [delete] of a present key removes
    one: up to order, the entries are those of an association list. *)
Lemma set_new_perm m k v : get m k = None -> set m k v ≡ₚ (k, v) :: m.
Proof.
  induction m as [|[k0 v0] m IH]; simpl; intros Hg; [done|].
  destruct (key_compare k k0); try discriminate; [done|].
  etrans; [apply perm_skip, IH, Hg|apply perm_swap].
Qed.

Lemma delete_perm m k v : get m k = Some v -> (k, v) :: delete m k ≡ₚ m.
Proof.
  induction m as [|[k0 v0] m IH]; simpl; intros Hg; [discriminate|].
  destruct (key_compare k k0) eqn:Hc; try discriminate.
  - apply key_compare_eq in Hc as ->. by injection Hg as ->.
  - etrans; [apply perm_swap|]. apply perm_skip, IH, Hg.
Qed.

(** An executable check of [wf]. *)
Fixpoint keys_sortedb (ks : list K) : bool :=
  match ks with
  | k1 :: ((k2 :: _) as ks') =>
      match key_compare k1 k2 with Lt => keys_sortedb ks' | _ => false end
  | _ => true
  end.

Definition wfb (m : list (K * V)) : bool := keys_sortedb m.*1.

Lemma wfb_sound m : wfb m = true -> wf m.
Proof.
  unfold wfb, wf. generalize (m.*1) as ks. clear m.
  induction ks as [|k1 ks IH]; intros Hs; [constructor|].
  destruct ks as [|k2 ks]; [repeat constructor|].
  simpl in Hs. destruct (key_compare k1 k2) eqn:Hc; try done.
  constructor; [by apply IH|]. by constructor.
Qed.
End Ops.

Section Buckets.
Context {K A : Type} `{KeyOrder K}.

(** [btree.totalItemSize] of a secondary index: the number of entries
    of all buckets. *)
Definition totalItemSize (m : list (K * list A)) : nat :=
  sum_list ((fun b => length b.2) <$> m).
End Buckets.
End BTree.

#[export] Hint Resolve BTree.set_wf BTree.delete_wf BTree.wf_tail : blink.
