(* ===== verification/Matchers.v ===== *)
(** * Matchers and the filter evaluator

    [matchesMatcher] is the dispatch of
    src/packages/core/src/query/filter/matchers.ts: a matcher that is an
    object is tested for the tag keys [$equals], [$gte], [$gt], [$lte],
    [$lt] in this order, and only an object with none of them, or a
    primitive, is compared by strict equality.  [typeof null] is
    ["object"], so a [null] matcher reaches [in] and throws a TypeError.

    The filter evaluator ([filterWhereItems] and the evaluation of
    [$and]/[$or] filters) is not under src/; it is modelled from the spec
    (4.3): an item passes a where-object when every listed property
    matches, evaluated in the object's key order and stopping at the first
    property that does not match. *)

From S2P Require Import Prelude Values.

(** ** Matchers *)

(** A matcher is a primitive (sugar for equality) or an object literal
    such as [{ $gte: 25 }]. *)
Inductive matcher : Type :=
| MValue (v : value)
| MObject (o : object).

(** [Where<T>]: property name to matcher, in key order. *)
Abbreviation where_obj := (list (string * matcher)).

Definition matchesComplexEqMatcher (property : value) (m : object) : bool :=
  property === get_field m "$equals".

(** [property === matcher]: a primitive is never [===] to an object. *)
Definition matchesSimpleEqMatcher (property : value) (m : matcher) : bool :=
  match m with
  | MValue v => property === v
  | MObject _ => false
  end.

Definition matchesGteMatcher (property : value) (m : object) : bool :=
  js_ge property (get_field m "$gte").

Definition matchesGtMatcher (property : value) (m : object) : bool :=
  js_gt property (get_field m "$gt").

Definition matchesLteMatcher (property : value) (m : object) : bool :=
  js_le property (get_field m "$lte").

Definition matchesLtMatcher (property : value) (m : object) : bool :=
  js_lt property (get_field m "$lt").

(** The TypeError of [key in null]. *)
Definition in_null_error (key : string) : error :=
  TypeError ("Cannot use 'in' operator to search for '" +:+ key +:+ "' in null").

(** [matchesMatcher(property, matcher)] *)
Definition matchesMatcher (property : value) (m : matcher) : res bool :=
  match m with
  | MValue VNull => Err (in_null_error "$equals")
  | MObject o =>
      if has_field o "$equals" then Ok (matchesComplexEqMatcher property o)
      else if has_field o "$gte" then Ok (matchesGteMatcher property o)
      else if has_field o "$gt" then Ok (matchesGtMatcher property o)
      else if has_field o "$lte" then Ok (matchesLteMatcher property o)
      else if has_field o "$lt" then Ok (matchesLtMatcher property o)
      else Ok (matchesSimpleEqMatcher property m)
  | MValue _ => Ok (matchesSimpleEqMatcher property m)
  end.

(** A matcher that does not throw. *)
Definition matcher_ok (m : matcher) : bool :=
  match m with MValue VNull => false | _ => true end.

Definition where_ok (w : where_obj) : bool := forallb (fun km => matcher_ok km.2) w.

(** ** The filter evaluator *)

(** An entity passes a where-object when every property matches. *)
Fixpoint matchesWhere (e : entity) (w : where_obj) : res bool :=
  match w with
  | [] => Ok true
  | (k, m) :: w' =>
      b <- matchesMatcher (get_field e k) m ;;
      if b then matchesWhere e w' else Ok false
  end.

Section FilterItems.
Context {A : Type} (entity_of : A -> entity).

(** [filterWhereItems(items, where)]: the items that pass, in order. *)
Fixpoint filterWhereItems (items : list A) (w : where_obj) : res (list A) :=
  match items with
  | [] => Ok []
  | x :: items' =>
      b <- matchesWhere (entity_of x) w ;;
      rest <- filterWhereItems items' w ;;
      Ok (if b then x :: rest else rest)
  end.
End FilterItems.

(** A filter tree: a where-object, or the [$and] / [$or] of filters. *)
Inductive filter : Type :=
| FWhere (w : where_obj)
| FAnd (fs : list filter)
| FOr (fs : list filter).

(** Evaluation of a filter tree on one entity. *)
Fixpoint matchesFilter (e : entity) (f : filter) : res bool :=
  match f with
  | FWhere w => matchesWhere e w
  | FAnd fs =>
      (fix all (fs : list filter) : res bool :=
         match fs with
         | [] => Ok true
         | f' :: fs' => b <- matchesFilter e f' ;; if b then all fs' else Ok false
         end) fs
  | FOr fs =>
      (fix any (fs : list filter) : res bool :=
         match fs with
         | [] => Ok false
         | f' :: fs' => b <- matchesFilter e f' ;; if b then Ok true else any fs'
         end) fs
  end.

(** ** Lemmas *)

(** The boolean a matcher that does not throw evaluates to. *)
Definition mm (v : value) (m : matcher) : bool :=
  match matchesMatcher v m with Ok b => b | Err _ => false end.

(** Whether an entity passes a where-object whose matchers do not throw. *)
Definition passes (e : entity) (w : where_obj) : bool :=
  forallb (fun km => mm (get_field e km.1) km.2) w.

Lemma matchesMatcher_ok v m : matcher_ok m = true -> matchesMatcher v m = Ok (mm v m).
Proof.
  unfold mm. destruct m as [[]|o]; simpl; try done.
  repeat case_match; done.
Qed.

Lemma matchesWhere_ok e w : where_ok w = true -> matchesWhere e w = Ok (passes e w).
Proof.
  induction w as [|[k m] w IH]; simpl; [done|]. intros [Hm Hw]%andb_true_iff.
  rewrite (matchesMatcher_ok _ _ Hm). destruct (mm _ _); simpl; [by apply IH|done].
Qed.

Lemma filterWhereItems_ok {A} (f : A -> entity) items w :
  where_ok w = true ->
  filterWhereItems f items w = Ok (List.filter (fun x => passes (f x) w) items).
Proof.
  intros Hw. induction items as [|x items IH]; simpl; [done|].
  rewrite (matchesWhere_ok _ _ Hw), IH. by destruct (passes _ _).
Qed.

Lemma passes_elem_of e w k m : passes e w = true -> (k, m) ∈ w -> mm (get_field e k) m = true.
Proof.
  unfold passes. rewrite forallb_forall. intros H Hin. apply (H (k, m)). by apply list_elem_of_In.
Qed.

Lemma where_ok_elem_of w k m : where_ok w = true -> (k, m) ∈ w -> matcher_ok m = true.
Proof.
  unfold where_ok. rewrite forallb_forall. intros H Hin. apply (H (k, m)). by apply list_elem_of_In.
Qed.
