(* ===== verification/Table.v ===== *)
(** * The state of a table and the index invariant

    [table[BlinkKey]] of src/packages/db/src/core holds the table name,
    the options ([options.primary], the primary-key property), the
    database option [clone], the storage ([storage.primary], a B-tree from
    primary key to entity, and [storage.indexes], an object from property
    name to a B-tree from property value to an array of entities) and the
    event emitters ([events.onUpdate.dispatch] and the like).

    Entities are objects shared by reference: the primary index and every
    bucket hold the same object, and update.ts mutates it in place.  The
    model keeps entities in a heap and the indexes hold locations; the
    dispatched events are appended to a log.

    [table_wf] is the invariant of the spec (section 3): the primary index
    is sorted and maps each key to the one stored entity whose primary-key
    property is that key, and a secondary index on [p] holds every stored
    entity exactly once, in the bucket of its current value of [p], and
    nothing else. *)

From S2P Require Import Prelude Values OrderedIndex.

Abbreviation loc := nat.

(** The payloads of [events.onInsert/onUpdate/onRemove/onClear.dispatch].
    [newEntity] and inserted or removed entities are the stored objects
    themselves (locations); [oldEntity] of an update is a clone (a value). *)
Inductive event : Type :=
| OnInsert (items : list loc)
| OnUpdate (changes : list (entity * loc))
| OnRemove (items : list loc)
| OnClear.

Record table : Type := mkTable {
  tableName : string;
  primaryKeyProperty : string;                          (** [options.primary] *)
  cloneOption : bool;                                   (** [db[BlinkKey].options.clone] *)
  heap : gmap loc entity;                               (** the entity objects *)
  next_loc : loc;                                       (** the next fresh object *)
  primary : list (value * loc);                         (** [storage.primary] *)
  indexes : list (string * list (value * list loc));    (** [storage.indexes] *)
  events : list event                                   (** dispatched events, oldest first *)
}.

Abbreviation bucket_tree := (list (value * list loc)).

(** ** Accessors and in-place updates *)

Definition with_heap (t : table) (h : gmap loc entity) : table :=
  mkTable (tableName t) (primaryKeyProperty t) (cloneOption t) h (next_loc t)
    (primary t) (indexes t) (events t).

Definition with_indexes (t : table) (ix : list (string * bucket_tree)) : table :=
  mkTable (tableName t) (primaryKeyProperty t) (cloneOption t) (heap t) (next_loc t)
    (primary t) ix (events t).

(** [item[key] = v] and any other in-place change of the object at [l]. *)
Definition set_entity (t : table) (l : loc) (e : entity) : table :=
  with_heap t (<[l := e]> (heap t)).

(** [storage.indexes[p]] *)
Definition index_of (t : table) (p : string) : option bucket_tree :=
  assoc_lookup p (indexes t).

(** The B-tree of index [p] after an in-place change. *)
Definition set_index (t : table) (p : string) (bt : bucket_tree) : table :=
  with_indexes t (assoc_replace p bt (indexes t)).

(** [events.onX.dispatch(payload)] *)
Definition dispatch (t : table) (ev : event) : table :=
  mkTable (tableName t) (primaryKeyProperty t) (cloneOption t) (heap t) (next_loc t)
    (primary t) (indexes t) (events t ++ [ev]).

(** The object at a location ([{}] for a dangling location). *)
Definition entity_at (t : table) (l : loc) : entity := default [] (heap t !! l).

Definition field_at (t : table) (l : loc) (p : string) : value := get_field (entity_at t l) p.

(** An entity is stored in the table when the primary index holds it. *)
Definition live (t : table) (l : loc) : Prop := l ∈ (primary t).*2.

(** The entity at [l] is stored and its property [p] is [k]. *)
Definition indexed_at (t : table) (p : string) (k : value) (l : loc) : Prop :=
  live t l ∧ field_at t l p = k.

#[export] Instance live_dec t l : Decision (live t l).
Proof. unfold live. apply _. Defined.

#[export] Instance indexed_at_dec t p k l : Decision (indexed_at t p k l).
Proof. unfold indexed_at. apply _. Defined.

(** A primary key is neither [undefined] nor [null]. *)
Definition valid_pk (k : value) : Prop := k ≠ VUndefined ∧ k ≠ VNull.

#[export] Instance valid_pk_dec k : Decision (valid_pk k).
Proof. unfold valid_pk. apply _. Defined.

(** The stored entities, in primary-key order ([storage.primary.valuesArray()]). *)
Definition rows (t : table) : list loc := BTree.valuesArray (primary t).

(** The bucket of [k] in a secondary index, [[]] when there is none. *)
Definition bucket (bt : bucket_tree) (k : value) : list loc := default [] (BTree.get bt k).

(** ** The invariant of one secondary index

    [index_ok live f bt]: the B-tree [bt] is sorted, every stored entity
    [l] ([live l]) has a bucket for its value [f l], and each location
    occurs in the bucket of [k] once if it is stored with value [k], and
    otherwise not at all. *)

Definition index_ok (live : loc -> Prop) `{∀ l, Decision (live l)} (f : loc -> value)
    (bt : bucket_tree) : Prop :=
  BTree.wf bt ∧
  (∀ l, live l -> is_Some (BTree.get bt (f l))) ∧
  (∀ k b l, BTree.get bt k = Some b -> occ l b = if decide (live l ∧ f l = k) then 1 else 0).

Lemma bucket_Some bt k b : BTree.get bt k = Some b -> bucket bt k = b.
Proof. unfold bucket. by intros ->. Qed.

(** [const items = btree.get(k); if (items !== undefined) items.push(l);
    else btree.set(k, [l]);] *)
Definition push_bucket (bt : bucket_tree) (k : value) (l : loc) : bucket_tree :=
  match BTree.get bt k with
  | Some items => BTree.set bt k (items ++ [l])
  | None => BTree.set bt k [l]
  end.

Lemma push_bucket_eq bt k l : push_bucket bt k l = BTree.set bt k (bucket bt k ++ [l]).
Proof. unfold push_bucket, bucket. by destruct (BTree.get bt k). Qed.

Lemma index_ok_ext (live live' : loc -> Prop) `{∀ l, Decision (live l)} `{∀ l, Decision (live' l)}
    f f' bt :
  (∀ l, live l <-> live' l) -> (∀ l, live l -> f l = f' l) ->
  index_ok live f bt -> index_ok live' f' bt.
Proof.
  intros Hl Hf (Hs & Hb & Hc). split_and!; [done| |].
  - intros l Hl'. rewrite <- Hf by by apply Hl. apply Hb, Hl, Hl'.
  - intros k b l Hg. rewrite (Hc k b l Hg).
    destruct (decide (live l ∧ f l = k)) as [[H1 H2]|H1];
      destruct (decide (live' l ∧ f' l = k)) as [[H3 H4]|H3]; try done; exfalso.
    + apply H3. split; [by apply Hl|]. by rewrite <- Hf.
    + apply H1. split; [by apply Hl|]. rewrite Hf; [done|by apply Hl].
Qed.

(** Removing a stored entity from the bucket of its value. *)
Lemma index_ok_remove (live : loc -> Prop) `{∀ l, Decision (live l)} f bt l :
  index_ok live f bt -> live l ->
  index_ok (fun l' => live l' ∧ l' ≠ l) f
    (BTree.set bt (f l) (remove_first l (bucket bt (f l)))).
Proof.
  intros (Hs & Hb & Hc) Hl. split_and!; [eauto with blink| |].
  - intros l' [Hl' Hne]. destruct (decide (f l' = f l)) as [->|Hne'].
    + rewrite BTree.get_set_same by done. by eexists.
    + rewrite BTree.get_set_other by done. by apply Hb.
  - intros k b l' Hg. destruct (decide (k = f l)) as [->|Hk].
    + rewrite BTree.get_set_same in Hg by done. injection Hg as <-.
      destruct (Hb l Hl) as [b0 Hb0]. rewrite (bucket_Some _ _ _ Hb0).
      destruct (decide (l' = l)) as [->|Hne].
      * rewrite occ_remove_first_same, (Hc _ _ _ Hb0), decide_True by done.
        rewrite decide_False; [done|]. tauto.
      * rewrite occ_remove_first_other, (Hc _ _ _ Hb0) by done.
        repeat case_decide; tauto.
    + rewrite BTree.get_set_other in Hg by done. rewrite (Hc _ _ _ Hg).
      destruct (decide (l' = l)) as [->|?]; repeat case_decide; naive_solver.
Qed.

(** Adding an entity that is not stored yet to the bucket of its value. *)
Lemma index_ok_add (live : loc -> Prop) `{∀ l, Decision (live l)} f bt l :
  index_ok live f bt -> ¬ live l ->
  index_ok (fun l' => live l' ∨ l' = l) f (BTree.set bt (f l) (bucket bt (f l) ++ [l])).
Proof.
  intros (Hs & Hb & Hc) Hl. split_and!; [eauto with blink| |].
  - intros l' Hl'. destruct (decide (f l' = f l)) as [Heq|Hne'].
    + rewrite Heq, BTree.get_set_same by done. by eexists.
    + rewrite BTree.get_set_other by done. destruct Hl' as [Hl'| ->]; [by apply Hb|done].
  - intros k b l' Hg. destruct (decide (k = f l)) as [->|Hk].
    + rewrite BTree.get_set_same in Hg by done. injection Hg as <-.
      autorewrite with blink_rw.
      unfold bucket. destruct (BTree.get bt (f l)) as [b0|] eqn:Hb0; simpl.
      * rewrite (Hc _ _ _ Hb0). destruct (decide (l' = l)) as [->|Hne];
          repeat case_decide; naive_solver lia.
      * assert (∀ l', live l' -> f l' ≠ f l) as Hnone.
        { intros l'' Hl'' Heq. destruct (Hb l'' Hl'') as [b' Hb']. congruence. }
        destruct (decide (l = l')) as [->|Hne]; repeat case_decide; naive_solver lia.
    + rewrite BTree.get_set_other in Hg by done. rewrite (Hc _ _ _ Hg).
      destruct (decide (l' = l)) as [->|?]; repeat case_decide; naive_solver.
Qed.

(** ** The invariant of a table *)

Record table_wf (t : table) : Prop := {
  wf_primary : BTree.wf (primary t);
  wf_primary_key : ∀ k l, (k, l) ∈ primary t ->
    is_Some (heap t !! l) ∧ field_at t l (primaryKeyProperty t) = k ∧ valid_pk k;
  wf_primary_inj : NoDup (primary t).*2;
  wf_fresh : ∀ l, live t l -> l < next_loc t;
  wf_index_names : NoDup (indexes t).*1;
  wf_index : ∀ p bt, (p, bt) ∈ indexes t -> index_ok (live t) (fun l => field_at t l p) bt
}.

(** ** Lemmas on accessors *)

Lemma live_elem_of t l : live t l <-> ∃ k, (k, l) ∈ primary t.
Proof.
  unfold live. rewrite list_elem_of_fmap. split.
  - intros [[k l'] [-> Hin]]. by exists k.
  - intros [k Hin]. by exists (k, l).
Qed.

Lemma field_at_set_entity_same t l e p : field_at (set_entity t l e) l p = get_field e p.
Proof. unfold field_at, entity_at, set_entity. simpl. by rewrite lookup_insert_eq. Qed.

Lemma field_at_set_entity_other t l l' e p :
  l ≠ l' -> field_at (set_entity t l e) l' p = field_at t l' p.
Proof. intros Hne. unfold field_at, entity_at, set_entity. simpl. by rewrite lookup_insert_ne. Qed.

Lemma index_of_elem_of t p bt :
  table_wf t -> index_of t p = Some bt <-> (p, bt) ∈ indexes t.
Proof. intros Hwf. apply assoc_lookup_elem_of, wf_index_names, Hwf. Qed.

(** The invariant of the spec, per entity: a stored entity is in the
    bucket of its current value exactly once and in no other bucket. *)
Lemma wf_bucket_exactly_once t p bt l :
  table_wf t -> (p, bt) ∈ indexes t -> live t l ->
  occ l (bucket bt (field_at t l p)) = 1 ∧
  ∀ k, k ≠ field_at t l p -> l ∉ bucket bt k.
Proof.
  intros Hwf Hp Hl. destruct (wf_index t Hwf p bt Hp) as (_ & Hb & Hc). split.
  - destruct (Hb l Hl) as [b Hg]. rewrite (bucket_Some _ _ _ Hg), (Hc _ _ _ Hg).
    by rewrite decide_True.
  - intros k Hk. unfold bucket. destruct (BTree.get bt k) as [b|] eqn:Hg; simpl; [|set_solver].
    apply occ_zero. rewrite (Hc _ _ _ Hg), decide_False; [done|]. intros [_ ?]. by subst.
Qed.

(** The invariant reads the heap only through the fields of stored
    entities: a change of the heap that keeps them keeps the invariant. *)
Lemma table_wf_heap_frame t h :
  table_wf t ->
  (∀ l, live t l -> is_Some (h !! l) ∧ ∀ p, get_field (default [] (h !! l)) p = field_at t l p) ->
  table_wf (with_heap t h).
Proof.
  intros Hwf Hh.
  assert (Hf : ∀ l p, live t l -> field_at (with_heap t h) l p = field_at t l p).
  { intros l p Hl. apply (Hh l Hl). }
  destruct Hwf as [Hs Hpk Hinj Hfr Hnames Hix].
  constructor; simpl; try done.
  - intros k l Hin. assert (Hl : live t l) by (apply live_elem_of; eauto).
    split; [apply (Hh l Hl)|]. change (primaryKeyProperty t) with (primaryKeyProperty (with_heap t h)).
    rewrite Hf by done. apply (Hpk k l Hin).
  - intros p bt Hp. eapply index_ok_ext; [| |apply (Hix p bt Hp)]; [done|].
    intros l Hl. by rewrite Hf.
Qed.

(** ** The type of the stored objects

    A JavaScript object has each property once; the model keeps entities
    as field lists, and [heap_objects_wf] says every stored object is a
    proper object. *)

Definition heap_objects_wf (t : table) : Prop := map_Forall (fun _ e => object_wf e) (heap t).

Lemma entity_at_wf t l : heap_objects_wf t -> object_wf (entity_at t l).
Proof.
  intros Ht. unfold entity_at. destruct (heap t !! l) as [e|] eqn:He; simpl.
  - by apply (Ht l e).
  - apply NoDup_nil_2.
Qed.

Lemma set_entity_objects_wf t l e :
  heap_objects_wf t -> object_wf e -> heap_objects_wf (set_entity t l e).
Proof. intros Ht He. by apply map_Forall_insert_2. Qed.

(** Assigning a property of a stored object keeps the objects proper. *)
Lemma set_entity_field_objects_wf t l k v :
  heap_objects_wf t -> heap_objects_wf (set_entity t l (set_field (entity_at t l) k v)).
Proof. intros Ht. apply set_entity_objects_wf; [done|]. by apply set_field_wf, entity_at_wf. Qed.

Lemma dispatch_objects_wf t ev : heap_objects_wf t -> heap_objects_wf (dispatch t ev).
Proof. done. Qed.

#[export] Hint Resolve entity_at_wf set_entity_objects_wf set_entity_field_objects_wf
  dispatch_objects_wf : blink.

(** ** The configuration of a table

    The table name, the primary-key property, the clone option and the
    indexed properties are fixed when the table is created (spec,
    section 6). *)

Definition config (t : table) : string * string * bool * list string :=
  (tableName t, primaryKeyProperty t, cloneOption t, (indexes t).*1).

Lemma config_set_entity t l e : config (set_entity t l e) = config t.
Proof. done. Qed.

Lemma config_set_index t p bt : config (set_index t p bt) = config t.
Proof. unfold config, set_index. simpl. by rewrite assoc_replace_fst. Qed.

Lemma config_dispatch t ev : config (dispatch t ev) = config t.
Proof. done. Qed.

#[export] Hint Rewrite config_set_entity config_set_index config_dispatch : blink_rw.

(** ** The abstract view: a map from primary key to entity *)

(** What a table promises its callers: the entity stored under each
    primary key ([many(table, {where: {pk}})]). *)
Definition view (t : table) (k : value) : option entity :=
  BTree.get (primary t) k ≫= fun l => heap t !! l.

Lemma primary_inj t k1 k2 l :
  table_wf t -> (k1, l) ∈ primary t -> (k2, l) ∈ primary t -> k1 = k2.
Proof.
  intros Hwf H1 H2.
  destruct (wf_primary_key t Hwf k1 l H1) as [_ [<- _]].
  by destruct (wf_primary_key t Hwf k2 l H2) as [_ [<- _]].
Qed.

(** Replacing the object stored under [pk] changes the view at [pk] only. *)
Lemma view_set_entity t ix pk l e k :
  table_wf t -> BTree.get (primary t) pk = Some l ->
  view (with_indexes (set_entity t l e) ix) k = if decide (k = pk) then Some e else view t k.
Proof.
  intros Hwf Hg. unfold view. simpl. case_decide as Hk.
  - subst. rewrite Hg. simpl. by rewrite lookup_insert_eq.
  - destruct (BTree.get (primary t) k) as [l'|] eqn:Hg'; simpl; [|done].
    rewrite lookup_insert_ne; [done|]. intros ->. apply Hk.
    apply BTree.get_elem_of in Hg, Hg'; try apply (wf_primary t Hwf).
    by eapply primary_inj.
Qed.

Lemma view_dispatch t ev : view (dispatch t ev) = view t.
Proof. done. Qed.

(** ** An executable check of the invariant *)

Definition index_okb (livel : list loc) (f : loc -> value) (bt : bucket_tree) : bool :=
  BTree.wfb bt &&
  forallb (fun l => bool_decide (is_Some (BTree.get bt (f l)))) livel &&
  forallb (fun kb => forallb (fun l =>
      bool_decide (occ l kb.2 = if decide (l ∈ livel ∧ f l = kb.1) then 1 else 0))
    (kb.2 ++ livel)) bt.

Definition table_wfb (t : table) : bool :=
  BTree.wfb (primary t) &&
  forallb (fun kl => bool_decide (is_Some (heap t !! kl.2) ∧
                                  field_at t kl.2 (primaryKeyProperty t) = kl.1 ∧ valid_pk kl.1))
    (primary t) &&
  bool_decide (NoDup (primary t).*2) &&
  forallb (fun l => bool_decide (l < next_loc t)) (primary t).*2 &&
  bool_decide (NoDup (indexes t).*1) &&
  forallb (fun pb => index_okb (primary t).*2 (fun l => field_at t l pb.1) pb.2) (indexes t).

Lemma forallb_elem_of {A} (f : A -> bool) (l : list A) :
  forallb f l = true <-> ∀ x, x ∈ l -> f x = true.
Proof. rewrite forallb_forall. setoid_rewrite list_elem_of_In. done. Qed.

Lemma index_okb_sound t f bt :
  index_okb (primary t).*2 f bt = true -> index_ok (live t) f bt.
Proof.
  unfold index_okb. rewrite !andb_true_iff, !forallb_elem_of.
  intros [[Hs%BTree.wfb_sound Hb] Hc]. split_and!; [done| |].
  - intros l Hl. by eapply bool_decide_eq_true_1, Hb.
  - intros k b l Hg. apply BTree.get_elem_of in Hg; [|done].
    specialize (Hc _ Hg). rewrite forallb_elem_of in Hc. simpl in Hc.
    destruct (decide (l ∈ b ++ (primary t).*2)) as [Hin|Hin].
    + eapply bool_decide_eq_true_1, (Hc l Hin).
    + rewrite elem_of_app in Hin. rewrite (proj2 (occ_zero l b)) by tauto.
      rewrite decide_False; [done|]. unfold live. tauto.
Qed.

(** The check decides the invariant soundly: a table it accepts is
    well formed. *)
Lemma table_wfb_sound t : table_wfb t = true -> table_wf t.
Proof.
  unfold table_wfb. rewrite !andb_true_iff, !forallb_elem_of.
  intros [[[[[Hs%BTree.wfb_sound Hpk] Hinj%bool_decide_eq_true_1] Hfr] Hnames%bool_decide_eq_true_1] Hix].
  constructor; try done.
  - intros k l Hin. eapply bool_decide_eq_true_1, (Hpk (k, l) Hin).
  - intros l Hl. eapply bool_decide_eq_true_1, (Hfr l Hl).
  - intros p bt Hin. apply index_okb_sound, (Hix (p, bt) Hin).
Qed.

(** Prove the invariant of a concrete table by running its check. *)
Ltac table_wf_by_eval := apply table_wfb_sound; vm_compute; reflexivity.

Lemma table_wf_dispatch t ev : table_wf t -> table_wf (dispatch t ev).
Proof. intros [Hs Hpk Hinj Hfr Hnames Hix]. by constructor. Qed.

(** ** A table of the spec's scenario (section 8)

    Users Alice (23), Bob (45) and Charlie (34) with primary key [id]
    and secondary indexes on [age] and [name]. *)

Definition alice : entity := [("id", VNum 1); ("name", VStr "Alice"); ("age", VNum 23)].
Definition bob : entity := [("id", VNum 2); ("name", VStr "Bob"); ("age", VNum 45)].
Definition charlie : entity := [("id", VNum 3); ("name", VStr "Charlie"); ("age", VNum 34)].

Definition demo_users : table :=
  mkTable "users" "id" true
    (<[0 := alice]> (<[1 := bob]> (<[2 := charlie]> ∅))) 3
    [(VNum 1, 0); (VNum 2, 1); (VNum 3, 2)]
    [("age", [(VNum 23, [0]); (VNum 34, [2]); (VNum 45, [1])]);
     ("name", [(VStr "Alice", [0]); (VStr "Bob", [1]); (VStr "Charlie", [2])])]
    [].

Lemma demo_users_wf : table_wf demo_users.
Proof. apply table_wfb_sound. vm_compute. reflexivity. Qed.

(** ** The entities of a set of buckets *)

Lemma occ_concat_buckets (live : loc -> Prop) `{∀ l, Decision (live l)} (f : loc -> value)
    (L : list (value * list loc)) l :
  NoDup L.*1 ->
  (∀ k b, (k, b) ∈ L -> occ l b = if decide (live l ∧ f l = k) then 1 else 0) ->
  occ l (concat L.*2) = if decide (live l ∧ f l ∈ L.*1) then 1 else 0.
Proof.
  induction L as [|[k b] L IH]; intros Hnd Hocc; [by rewrite decide_False by set_solver|].
  change (concat ((k, b) :: L).*2) with (b ++ concat L.*2).
  change (((k, b) :: L).*1) with (k :: L.*1) in *.
  apply NoDup_cons in Hnd as [Hk Hnd].
  rewrite occ_app, (Hocc k b) by set_solver. rewrite IH; [|done|intros; apply Hocc; set_solver].
  repeat case_decide; set_solver.
Qed.

Lemma NoDup_filter_snd {K V} (g : K * V -> bool) (L : list (K * V)) :
  NoDup L.*2 -> NoDup (List.filter g L).*2.
Proof.
  induction L as [|[k v] L IH]; simpl; [done|]. intros [Hv Hnd]%NoDup_cons.
  destruct (g (k, v)); simpl; [|by apply IH]. constructor; [|by apply IH].
  intros Hin. apply Hv. apply list_elem_of_fmap in Hin as [[k' v'] [-> Hin]].
  apply list_elem_of_In, filter_In in Hin as [Hin _]. apply list_elem_of_fmap.
  exists (k', v'). split; [done|]. by apply list_elem_of_In.
Qed.

Lemma NoDup_filter_fst {K V} (g : K * V -> bool) (L : list (K * V)) :
  NoDup L.*1 -> NoDup (List.filter g L).*1.
Proof.
  induction L as [|[k v] L IH]; simpl; [done|]. intros [Hk Hnd]%NoDup_cons.
  destruct (g (k, v)); simpl; [|by apply IH]. constructor; [|by apply IH].
  intros Hin. apply Hk. apply list_elem_of_fmap in Hin as [[k' v'] [-> Hin]].
  apply list_elem_of_In, filter_In in Hin as [Hin _]. apply list_elem_of_fmap.
  exists (k', v'). split; [done|]. by apply list_elem_of_In.
Qed.

Lemma elem_of_filter_bool {A} (g : A -> bool) (L : list A) x :
  x ∈ List.filter g L <-> x ∈ L ∧ g x = true.
Proof. rewrite !list_elem_of_In. apply filter_In. Qed.
