(* ===== verification/Update.v ===== *)
(** * Updating entities: update.ts, updateMany.ts

    [internalUpdateMany] (src/packages/db/src/core/updateMany.ts) and the
    older single-entity [update] (update.ts) share one loop body,
    [updateKey]: for every property of the diff other than the primary
    key, assign it to the stored object; when the value changed and the
    property is indexed, remove the object from the bucket of its old
    value (found by identity with [indexOf]/[splice]) and push it into the
    bucket of its new value, creating the bucket when absent.

    The stored object is mutated in place, so the change is visible
    through the primary index and every bucket; a throw leaves the changes
    made before it in place, which the state-with-exceptions type [stm]
    makes explicit. *)

From S2P Require Import Prelude Values OrderedIndex Matchers Table.

Abbreviation tstm := (stm table error).

(** [const i = oldIndexItems.indexOf(item); if (i !== -1) oldIndexItems.splice(i, 1);] *)
Definition removeFromBucket (items : list loc) (l : loc) : list loc :=
  let i := indexOf items l in
  if decide (i = (-1)%Z) then items else splice1 i items.

(** The TypeError of [undefined.indexOf(...)]. *)
Definition no_bucket_error : error :=
  TypeError "Cannot read properties of undefined (reading 'indexOf')".

(** One iteration of [for (key in diff)] on the stored object at [l];
    [oldItem] is the clone taken before the loop. *)
Definition updateKey (pkProp : string) (l : loc) (oldItem : entity)
    (kv : string * value) : tstm unit :=
  fun t =>
  let (key, v) := kv in
  if decide (key = pkProp) then (t, Ok tt) else
  let t1 := set_entity t l (set_field (entity_at t l) key v) in
  if get_field oldItem key === field_at t1 l key then (t1, Ok tt) else
  match index_of t1 key with
  | None => (t1, Ok tt)
  | Some btree =>
      match BTree.get btree (get_field oldItem key) with
      | None => (t1, Err no_bucket_error)
      | Some oldIndexItems =>
          let bt1 := BTree.set btree (get_field oldItem key) (removeFromBucket oldIndexItems l) in
          (set_index t1 key (push_bucket bt1 (field_at t1 l key) l), Ok tt)
      end
  end.

(** The body of [for (const diff of diffs)] in [internalUpdateMany]:
    the primary key of the diff must be defined and stored. *)
Definition updateOne (diff : object) : tstm (value * (entity * loc)) :=
  fun t =>
  let pkProp := primaryKeyProperty t in
  let pk := get_field diff pkProp in
  if decide (pk = VUndefined ∨ pk = VNull) then (t, Err (InvalidPrimaryKeyError pk)) else
  match BTree.get (primary t) pk with
  | None => (t, Err (ItemNotFoundError pk))
  | Some l =>
      let oldItem := entity_at t l in
      (_ <~ sfor (updateKey pkProp l oldItem) diff ;; sret (pk, (oldItem, l))) t
  end.

(** The loop over the diffs, collecting [primaryKeys] and [events]. *)
Fixpoint updateAll (diffs : list object) : tstm (list value * list (entity * loc)) :=
  match diffs with
  | [] => sret ([], [])
  | d :: ds =>
      r <~ updateOne d ;;
      rs <~ updateAll ds ;;
      sret (r.1 :: rs.1, r.2 :: rs.2)
  end.

(** [internalUpdateMany(table, diffs)]: one [onUpdate] event for the
    whole batch, dispatched after the loop. *)
Definition internalUpdateMany (diffs : list object) : tstm (list value) :=
  r <~ updateAll diffs ;;
  _ <~ smodify (fun t => dispatch t (OnUpdate r.2)) ;;
  sret r.1.

(** [update(table, diff)] of update.ts: the same loop, plain [Error]s,
    and an [onUpdate] event for the one entity. *)
Definition update (diff : object) : tstm unit :=
  fun t =>
  let pkProp := primaryKeyProperty t in
  let pk := get_field diff pkProp in
  if decide (pk = VUndefined ∨ pk = VNull) then (t, Err (UntypedError (MsgInvalidPrimaryKey pk))) else
  match BTree.get (primary t) pk with
  | None => (t, Err (UntypedError (MsgItemNotFound pk)))
  | Some l =>
      let oldItem := entity_at t l in
      (_ <~ sfor (updateKey pkProp l oldItem) diff ;;
       smodify (fun t => dispatch t (OnUpdate [(oldItem, l)]))) t
  end.

(** ** The effect of one property assignment on the object *)

(** [item[key] = v] unless [key] is the primary key. *)
Definition step_entity (pkProp : string) (e : entity) (kv : string * value) : entity :=
  if decide (kv.1 = pkProp) then e else set_field e kv.1 kv.2.

(** The object after the whole [for (key in diff)] loop. *)
Definition apply_diff (pkProp : string) (e : entity) (diff : object) : entity :=
  foldl (step_entity pkProp) e diff.

(** ** Lemmas *)

Lemma removeFromBucket_eq items l : removeFromBucket items l = remove_first l items.
Proof. unfold removeFromBucket. apply splice_indexOf. Qed.

(** A change of the stored objects and of the indexes that keeps the
    primary index, the primary keys and the index names keeps the
    invariant when every index is consistent with the new fields. *)
Lemma table_wf_modify t t' :
  table_wf t ->
  primary t' = primary t -> next_loc t' = next_loc t ->
  primaryKeyProperty t' = primaryKeyProperty t ->
  (indexes t').*1 = (indexes t).*1 ->
  (∀ l, live t l -> is_Some (heap t' !! l)) ->
  (∀ l, live t l -> field_at t' l (primaryKeyProperty t) = field_at t l (primaryKeyProperty t)) ->
  (∀ p bt, (p, bt) ∈ indexes t' -> index_ok (live t) (fun l => field_at t' l p) bt) ->
  table_wf t'.
Proof.
  intros Hwf Hp Hn Hk Hnames Hh Hf Hix.
  assert (Hlive : ∀ l, live t' l <-> live t l) by (intros l; unfold live; by rewrite Hp).
  destruct Hwf as [Hs Hpk Hinj Hfr Hnm Hix0]. constructor.
  - by rewrite Hp.
  - intros k l Hin. rewrite Hp in Hin. assert (Hl : live t l) by (apply live_elem_of; eauto).
    split; [by apply Hh|]. rewrite Hk, Hf by done. apply (Hpk k l Hin).
  - by rewrite Hp.
  - intros l Hl. rewrite Hn. apply Hfr, Hlive, Hl.
  - by rewrite Hnames.
  - intros p bt Hin. eapply index_ok_ext; [| |apply (Hix p bt Hin)]; [|done].
    intros l. symmetry. apply Hlive.
Qed.

Lemma field_at_with_indexes t ix l p : field_at (with_indexes t ix) l p = field_at t l p.
Proof. done. Qed.

Lemma set_index_names t p bt : (indexes (set_index t p bt)).*1 = (indexes t).*1.
Proof. apply assoc_replace_fst. Qed.

(** An index on another property than the assigned one is unaffected. *)
Lemma index_ok_other_key t l key v p bt :
  key ≠ p -> index_ok (live t) (fun l' => field_at t l' p) bt ->
  index_ok (live t) (fun l' => field_at (set_entity t l (set_field (entity_at t l) key v)) l' p) bt.
Proof.
  intros Hne. apply index_ok_ext; [done|]. intros l' _.
  destruct (decide (l = l')) as [<-|Hl].
  - rewrite field_at_set_entity_same, get_set_field_other by done. done.
  - by rewrite field_at_set_entity_other.
Qed.

(** Moving the object at [l] from the bucket of its old value [o] to the
    bucket of its new value, as [updateKey] does. *)
Lemma index_ok_move t l key v bt b :
  table_wf t -> live t l ->
  index_ok (live t) (fun l' => field_at t l' key) bt ->
  BTree.get bt (field_at t l key) = Some b ->
  let t1 := set_entity t l (set_field (entity_at t l) key v) in
  index_ok (live t) (fun l' => field_at t1 l' key)
    (push_bucket (BTree.set bt (field_at t l key) (remove_first l b)) (field_at t1 l key) l).
Proof.
  intros Hwf Hl Hok Hb t1.
  pose proof (index_ok_remove _ _ bt l Hok Hl) as Hrm.
  cbv beta in Hrm. rewrite (bucket_Some _ _ _ Hb) in Hrm.
  assert (Hrm' : index_ok (fun l' => live t l' ∧ l' ≠ l) (fun l' => field_at t1 l' key)
                  (BTree.set bt (field_at t l key) (remove_first l b))).
  { eapply index_ok_ext; [| |exact Hrm]; [done|].
    intros l' [_ Hne]. subst t1. by rewrite field_at_set_entity_other. }
  rewrite push_bucket_eq.
  eapply index_ok_ext; [| |apply (index_ok_add _ _ _ l Hrm')]; [|done|tauto].
  intros l'. destruct (decide (l' = l)) as [->|]; tauto.
Qed.

Lemma with_indexes_self t : with_indexes t (indexes t) = t.
Proof. by destruct t. Qed.

Lemma with_indexes_set_entity t l e :
  with_indexes (set_entity t l e) (indexes t) = set_entity t l e.
Proof. done. Qed.

Lemma set_entity_self t l : table_wf t -> live t l -> set_entity t l (entity_at t l) = t.
Proof.
  intros Hwf Hl. apply live_elem_of in Hl as [k Hin].
  destruct (wf_primary_key t Hwf k l Hin) as [[e He] _].
  unfold set_entity, entity_at. rewrite He. simpl. rewrite insert_id by done.
  by destruct t.
Qed.

Lemma index_of_None_not_elem_of t p bt :
  table_wf t -> index_of t p = None -> (p, bt) ∉ indexes t.
Proof. intros Hwf Hn Hin. apply (index_of_elem_of t p bt Hwf) in Hin. congruence. Qed.

(** Assigning a non-key property of a stored object keeps the invariant
    when the indexes are consistent with the new value. *)
Lemma table_wf_assign t l key v ix :
  table_wf t -> live t l -> key ≠ primaryKeyProperty t -> ix.*1 = (indexes t).*1 ->
  (∀ p bt, (p, bt) ∈ ix ->
     index_ok (live t) (fun l' => field_at (set_entity t l (set_field (entity_at t l) key v)) l' p) bt) ->
  table_wf (with_indexes (set_entity t l (set_field (entity_at t l) key v)) ix).
Proof.
  intros Hwf Hl Hk Hnames Hix. apply (table_wf_modify t); try done.
  - intros l' Hl'. simpl. destruct (decide (l = l')) as [->|Hne]; [by rewrite lookup_insert_eq|].
    rewrite lookup_insert_ne by done. apply live_elem_of in Hl' as [k1 Hin1].
    by apply (wf_primary_key t Hwf k1 l' Hin1).
  - intros l' _. rewrite field_at_with_indexes. destruct (decide (l = l')) as [<-|Hne].
    + by rewrite field_at_set_entity_same, get_set_field_other.
    + by rewrite field_at_set_entity_other.
Qed.

(** [updateKey] on a well-formed table never throws: it assigns the
    property (unless it is the primary key) and re-establishes the
    invariant. *)
Lemma updateKey_spec t l oldItem key v :
  table_wf t -> live t l -> get_field oldItem key = field_at t l key ->
  ∃ ix, updateKey (primaryKeyProperty t) l oldItem (key, v) t =
          (with_indexes (set_entity t l (step_entity (primaryKeyProperty t) (entity_at t l) (key, v))) ix, Ok tt)
        ∧ table_wf (with_indexes (set_entity t l (step_entity (primaryKeyProperty t) (entity_at t l) (key, v))) ix).
Proof.
  intros Hwf Hl Hold. unfold updateKey, step_entity. simpl.
  destruct (decide (key = primaryKeyProperty t)) as [Hk|Hk].
  { exists (indexes t). rewrite set_entity_self, with_indexes_self by done. by split. }
  assert (Hv : field_at (set_entity t l (set_field (entity_at t l) key v)) l key = v)
    by (by rewrite field_at_set_entity_same, get_set_field_same).
  assert (Hother : ∀ p bt, (p, bt) ∈ indexes t -> p ≠ key ->
            index_ok (live t) (fun l' => field_at (set_entity t l (set_field (entity_at t l) key v)) l' p) bt).
  { intros p bt Hin Hp. apply index_ok_other_key; [done|]. by apply (wf_index t Hwf). }
  unfold strict_eq. case_bool_decide as Heq.
  - exists (indexes t). split; [done|]. apply table_wf_assign; [done..|].
    intros p bt Hin. destruct (decide (p = key)) as [->|Hp]; [|by apply Hother].
    eapply index_ok_ext; [| |apply (wf_index t Hwf _ _ Hin)]; [done|].
    intros l' _. cbv beta. destruct (decide (l = l')) as [<-|Hne].
    + rewrite Hv in Heq |- *. by rewrite <- Hold, Heq.
    + by rewrite field_at_set_entity_other.
  - unfold index_of. simpl. fold (index_of t key).
    destruct (index_of t key) as [bt|] eqn:Hix.
    + apply (index_of_elem_of t) in Hix as Hin; [|done].
      destruct (wf_index t Hwf _ _ Hin) as (Hs & Hb & Hc).
      destruct (Hb l Hl) as [b Hg]. rewrite Hold, Hg.
      exists (assoc_replace key (push_bucket (BTree.set bt (field_at t l key) (removeFromBucket b l))
                   (field_at (set_entity t l (set_field (entity_at t l) key v)) l key) l) (indexes t)).
      split; [done|]. apply table_wf_assign; [done|done|done|apply assoc_replace_fst|].
      intros p bt' Hin'. apply elem_of_assoc_replace in Hin'; [|apply (wf_index_names t Hwf)].
      destruct Hin' as [[-> [-> _]]|[Hp Hin']]; [|by apply Hother].
      rewrite removeFromBucket_eq. apply index_ok_move; [done|done| |done].
      by apply (wf_index t Hwf).
    + exists (indexes t). split; [done|]. apply table_wf_assign; [done..|].
      intros p bt Hin. apply Hother; [done|]. intros ->.
      by apply (index_of_None_not_elem_of t key bt Hwf Hix).
Qed.

Lemma set_entity_with_indexes t ix l e1 e2 :
  set_entity (with_indexes (set_entity t l e1) ix) l e2 = with_indexes (set_entity t l e2) ix.
Proof. unfold set_entity, with_indexes. simpl. by rewrite insert_insert_eq. Qed.

Lemma with_indexes_twice t ix1 ix2 : with_indexes (with_indexes t ix1) ix2 = with_indexes t ix2.
Proof. done. Qed.

Lemma entity_at_with_indexes_set t ix l e : entity_at (with_indexes (set_entity t l e) ix) l = e.
Proof. unfold entity_at. simpl. by rewrite lookup_insert_eq. Qed.

Lemma live_with_indexes_set t ix l e l' : live (with_indexes (set_entity t l e) ix) l' <-> live t l'.
Proof. done. Qed.

Lemma get_field_step_other pkProp e kv k : kv.1 ≠ k -> get_field (step_entity pkProp e kv) k = get_field e k.
Proof. intros Hne. unfold step_entity. case_decide; [done|]. by apply get_set_field_other. Qed.

(** The loop [for (key in diff)] on a stored object, with [oldItem]
    agreeing with the object on the keys of the diff: it never throws,
    applies the diff, and keeps the invariant. *)
Lemma sfor_updateKey_spec diff t l oldItem :
  table_wf t -> live t l -> NoDup diff.*1 ->
  (∀ k, k ∈ diff.*1 -> get_field oldItem k = field_at t l k) ->
  ∃ ix, sfor (updateKey (primaryKeyProperty t) l oldItem) diff t =
          (with_indexes (set_entity t l (apply_diff (primaryKeyProperty t) (entity_at t l) diff)) ix, Ok tt)
        ∧ table_wf (with_indexes (set_entity t l (apply_diff (primaryKeyProperty t) (entity_at t l) diff)) ix).
Proof.
  revert t. induction diff as [|[key v] diff IH]; intros t Hwf Hl Hnd Hold; simpl.
  - exists (indexes t). unfold apply_diff. simpl.
    rewrite with_indexes_set_entity, set_entity_self by done. by split.
  - apply NoDup_cons in Hnd as [Hkey Hnd].
    destruct (updateKey_spec t l oldItem key v Hwf Hl) as [ix1 [Hstep Hwf1]]; [apply Hold; set_solver|].
    unfold sbind. rewrite Hstep.
    set (t1 := with_indexes (set_entity t l (step_entity (primaryKeyProperty t) (entity_at t l) (key, v))) ix1).
    destruct (IH t1) as [ix2 [Hrest Hwf2]]; [done|done|done|..].
    { intros k Hk. subst t1. unfold field_at. rewrite entity_at_with_indexes_set.
      rewrite get_field_step_other; [apply Hold; set_solver|]. simpl. intros ->. done. }
    exists ix2. change (primaryKeyProperty t1) with (primaryKeyProperty t) in Hrest, Hwf2.
    rewrite Hrest. subst t1. rewrite entity_at_with_indexes_set, set_entity_with_indexes, with_indexes_twice in *.
    by split.
Qed.

Lemma primary_get_live t k l : table_wf t -> BTree.get (primary t) k = Some l -> live t l.
Proof.
  intros Hwf Hg. apply live_elem_of. exists k. by apply BTree.get_elem_of; [apply wf_primary|].
Qed.

(** The three outcomes of [updateOne] on a well-formed table. *)
Lemma updateOne_cases t d :
  table_wf t -> object_wf d ->
  let pk := get_field d (primaryKeyProperty t) in
  (¬ valid_pk pk ∧ updateOne d t = (t, Err (InvalidPrimaryKeyError pk))) ∨
  (valid_pk pk ∧ BTree.get (primary t) pk = None ∧ updateOne d t = (t, Err (ItemNotFoundError pk))) ∨
  (valid_pk pk ∧ ∃ l ix, BTree.get (primary t) pk = Some l ∧
     updateOne d t =
       (with_indexes (set_entity t l (apply_diff (primaryKeyProperty t) (entity_at t l) d)) ix,
        Ok (pk, (entity_at t l, l))) ∧
     table_wf (with_indexes (set_entity t l (apply_diff (primaryKeyProperty t) (entity_at t l) d)) ix)).
Proof.
  intros Hwf Hd pk. unfold updateOne. fold pk.
  destruct (decide (pk = VUndefined ∨ pk = VNull)) as [Hpk|Hpk].
  { left. split; [|done]. unfold valid_pk. tauto. }
  assert (valid_pk pk) by (unfold valid_pk; tauto).
  destruct (BTree.get (primary t) pk) as [l|] eqn:Hg; [|by right; left].
  right; right. split; [done|].
  destruct (sfor_updateKey_spec d t l (entity_at t l) Hwf) as [ix [Hloop Hwf']];
    [by eapply primary_get_live|done|done|].
  exists l, ix. unfold sbind. rewrite Hloop. by split_and!.
Qed.

Lemma updateOne_wf t d : table_wf t -> object_wf d -> table_wf (updateOne d t).1.
Proof.
  intros Hwf Hd. destruct (updateOne_cases t d Hwf Hd) as [[_ ->]|[[_ [_ ->]]|[_ (l & ix & _ & -> & Hwf')]]]; done.
Qed.

Lemma updateOne_events t d : table_wf t -> object_wf d -> events (updateOne d t).1 = events t.
Proof.
  intros Hwf Hd. destruct (updateOne_cases t d Hwf Hd) as [[_ ->]|[[_ [_ ->]]|[_ (l & ix & _ & -> & _)]]]; done.
Qed.

Lemma updateOne_pk t d :
  table_wf t -> object_wf d -> primaryKeyProperty (updateOne d t).1 = primaryKeyProperty t.
Proof.
  intros Hwf Hd. destruct (updateOne_cases t d Hwf Hd) as [[_ ->]|[[_ [_ ->]]|[_ (l & ix & _ & -> & _)]]]; done.
Qed.

(** The batch loop keeps the invariant, also when it throws, and
    dispatches nothing. *)
Lemma updateAll_wf ds t :
  table_wf t -> Forall object_wf ds ->
  table_wf (updateAll ds t).1 ∧ events (updateAll ds t).1 = events t.
Proof.
  revert t. induction ds as [|d ds IH]; intros t Hwf Hds; simpl; [done|].
  apply Forall_cons in Hds as [Hd Hds]. unfold sbind.
  pose proof (updateOne_wf t d Hwf Hd) as Hwf1. pose proof (updateOne_events t d Hwf Hd) as Hev1.
  destruct (updateOne d t) as [t1 [r|e]]; simpl in *; [|done].
  destruct (IH t1 Hwf1 Hds) as [Hwf2 Hev2].
  destruct (updateAll ds t1) as [t2 [rs|e]]; simpl in *; split; congruence.
Qed.

(** ** The abstract specification of updates

    A table seen as a map from primary key to entity: an update
    requires a valid primary key that is stored, and replaces the stored
    entity by the entity with the diff applied; a batch applies the diffs
    in order and stops at the first error, keeping the earlier ones. *)

Abbreviation abs_table := (value -> option entity).

Definition abs_update (pkProp : string) (d : object) : stm abs_table error value :=
  fun m =>
  let pk := get_field d pkProp in
  if decide (pk = VUndefined ∨ pk = VNull) then (m, Err (InvalidPrimaryKeyError pk)) else
  match m pk with
  | None => (m, Err (ItemNotFoundError pk))
  | Some e => (fun k => if decide (k = pk) then Some (apply_diff pkProp e d) else m k, Ok pk)
  end.

Fixpoint abs_updateMany (pkProp : string) (ds : list object) : stm abs_table error (list value) :=
  match ds with
  | [] => sret []
  | d :: ds' => pk <~ abs_update pkProp d ;; pks <~ abs_updateMany pkProp ds' ;; sret (pk :: pks)
  end.

Lemma heap_entity_at t k l :
  table_wf t -> BTree.get (primary t) k = Some l -> heap t !! l = Some (entity_at t l).
Proof.
  intros Hwf Hg. apply BTree.get_elem_of in Hg; [|apply (wf_primary t Hwf)].
  destruct (wf_primary_key t Hwf k l Hg) as [[e He] _]. unfold entity_at. by rewrite He.
Qed.

Lemma decide_valid_pk pk {A} (a b : A) :
  valid_pk pk -> (if decide (pk = VUndefined ∨ pk = VNull) then a else b) = b.
Proof. intros Hpk. rewrite decide_False; [done|]. unfold valid_pk in Hpk. tauto. Qed.

Lemma decide_invalid_pk pk {A} (a b : A) :
  ¬ valid_pk pk -> (if decide (pk = VUndefined ∨ pk = VNull) then a else b) = a.
Proof.
  intros Hpk. rewrite decide_True; [done|]. unfold valid_pk in Hpk.
  destruct pk; try tauto; exfalso; apply Hpk; split; discriminate.
Qed.

Lemma updateAll_refines ds t m :
  table_wf t -> Forall object_wf ds -> (∀ k, view t k = m k) ->
  (match (updateAll ds t).2 with Ok r => Ok r.1 | Err e => Err e end)
    = (abs_updateMany (primaryKeyProperty t) ds m).2 ∧
  ∀ k, view (updateAll ds t).1 k = (abs_updateMany (primaryKeyProperty t) ds m).1 k.
Proof.
  revert t m. induction ds as [|d ds IH]; intros t m Hwf Hds Hv; simpl; [done|].
  apply Forall_cons in Hds as [Hd Hds]. unfold sbind, abs_update.
  destruct (updateOne_cases t d Hwf Hd) as [[Hpk Heq]|[[Hpk [Hg Heq]]|[Hpk (l & ix & Hg & Heq & Hwf1)]]];
    rewrite Heq; simpl.
  - by rewrite !(decide_invalid_pk _ _ _ Hpk).
  - rewrite !(decide_valid_pk _ _ _ Hpk).
    assert (Hm : m (get_field d (primaryKeyProperty t)) = None).
    { rewrite <- Hv. unfold view. by rewrite Hg. }
    by rewrite Hm.
  - rewrite !(decide_valid_pk _ _ _ Hpk).
    assert (Hm : m (get_field d (primaryKeyProperty t)) = Some (entity_at t l)).
    { rewrite <- Hv. unfold view. rewrite Hg. simpl. by rewrite (heap_entity_at t _ l Hwf Hg). }
    rewrite Hm.
    destruct (IH _ (fun k => if decide (k = get_field d (primaryKeyProperty t))
                            then Some (apply_diff (primaryKeyProperty t) (entity_at t l) d) else m k)
                Hwf1 Hds) as [Hr Hview].
    { intros k. rewrite (view_set_entity t ix _ l _ k Hwf Hg). by case_decide. }
    simpl in Hr, Hview.
    destruct (updateAll ds _) as [t2 [rs|e]]; destruct (abs_updateMany _ ds _) as [m2 [rs'|e']];
      simpl in *; try done; split; try done; congruence.
Qed.

Lemma updateAll_lengths ds t pks chs t' :
  updateAll ds t = (t', Ok (pks, chs)) -> length pks = length ds ∧ length chs = length ds.
Proof.
  revert t t' pks chs. induction ds as [|d ds IH]; intros t t' pks chs; simpl.
  - unfold sret. intros [= _ <- <-]. done.
  - unfold sbind. destruct (updateOne d t) as [t1 [r|e]]; [|done].
    destruct (updateAll ds t1) as [t2 [[pks' chs']|e]] eqn:Hr; [|done].
    unfold sret. intros [= _ <- <-]. simpl. destruct (IH _ _ _ _ Hr). lia.
Qed.

(** ** The stored objects stay proper objects *)

(** The loop body throws only the TypeError of a missing bucket. *)
Lemma updateKey_error pkProp l oldItem kv t e :
  (updateKey pkProp l oldItem kv t).2 = Err e -> e = no_bucket_error.
Proof.
  destruct kv as [key v]. unfold updateKey. repeat case_match; simpl; intros ?; by simplify_eq.
Qed.

Lemma updateKey_objects pkProp l oldItem kv :
  stm_preserves heap_objects_wf (updateKey pkProp l oldItem kv).
Proof.
  intros t Ht. destruct kv as [key v]. unfold updateKey.
  case_decide; [done|]. pose proof (set_entity_field_objects_wf t l key v Ht) as H1.
  repeat case_match; exact H1.
Qed.

Lemma updateOne_objects d : stm_preserves heap_objects_wf (updateOne d).
Proof.
  intros t Ht. unfold updateOne. repeat case_match; try done.
  refine (sbind_preserves heap_objects_wf _ _ _ _ t Ht); eauto using updateKey_objects with blink.
Qed.

Lemma updateAll_objects ds : stm_preserves heap_objects_wf (updateAll ds).
Proof. induction ds as [|d ds IH]; simpl; eauto using updateOne_objects with blink. Qed.

Lemma internalUpdateMany_objects ds : stm_preserves heap_objects_wf (internalUpdateMany ds).
Proof. unfold internalUpdateMany. eauto using updateAll_objects with blink. Qed.

Lemma update_objects d : stm_preserves heap_objects_wf (update d).
Proof.
  intros t Ht. unfold update. repeat case_match; try done.
  refine (sbind_preserves heap_objects_wf _ _ _ _ t Ht); eauto using updateKey_objects with blink.
Qed.

(** ** The configuration does not change *)

Lemma updateKey_config c pkProp l oldItem kv :
  stm_preserves (fun t => config t = c) (updateKey pkProp l oldItem kv).
Proof.
  intros t Ht. destruct kv as [key v]. unfold updateKey.
  case_decide; [done|]. repeat case_match; simpl; by autorewrite with blink_rw.
Qed.

Lemma updateOne_config c d : stm_preserves (fun t => config t = c) (updateOne d).
Proof.
  intros t Ht. unfold updateOne. repeat case_match; try done.
  refine (sbind_preserves (fun t => config t = c) _ _ _ _ t Ht); eauto using updateKey_config with blink.
Qed.

Lemma dispatch_config c ev : stm_preserves (E:=error) (fun t => config t = c) (smodify (fun t => dispatch t ev)).
Proof. intros t Ht. simpl. by rewrite config_dispatch. Qed.

Lemma internalUpdateMany_config c ds : stm_preserves (fun t => config t = c) (internalUpdateMany ds).
Proof.
  unfold internalUpdateMany. apply sbind_preserves.
  - induction ds as [|d ds IH]; simpl; eauto using updateOne_config with blink.
  - intros r. apply sbind_preserves; eauto using dispatch_config with blink.
Qed.

Lemma update_config c d : stm_preserves (fun t => config t = c) (update d).
Proof.
  intros t Ht. unfold update. repeat case_match; try done.
  refine (sbind_preserves (fun t => config t = c) _ _ _ _ t Ht);
    eauto using updateKey_config, dispatch_config with blink.
Qed.

(** ** Properties of updates *)

(** C34. The removal from the old bucket ([indexOf] then [splice] of one
    element, skipped when [indexOf] answers -1) removes exactly one
    occurrence of the object, found by identity, and nothing else; an
    object absent from the bucket leaves it unchanged (spec, 4.1). *)
Theorem removeFromBucket_exactly_one items l :
  removeFromBucket items l = remove_first l items ∧
  occ l (removeFromBucket items l) = occ l items - 1 ∧
  (∀ l', l' ≠ l -> occ l' (removeFromBucket items l) = occ l' items) ∧
  (l ∉ items -> removeFromBucket items l = items).
Proof.
  rewrite removeFromBucket_eq. split_and!; [done|apply occ_remove_first_same| |].
  - intros l' Hne. by apply occ_remove_first_other.
  - apply remove_first_not_elem_of.
Qed.

(** C3. [internalUpdateMany] keeps the index invariant: after a batch of
    diffs, including one that throws midway, every stored entity is in the
    primary index under its own primary key and exactly once in every
    secondary index, in the bucket of its current value. *)
Theorem internalUpdateMany_preserves_wf t ds :
  table_wf t -> Forall object_wf ds -> table_wf (internalUpdateMany ds t).1.
Proof.
  intros Hwf Hds. unfold internalUpdateMany, sbind, smodify, sret.
  destruct (updateAll_wf ds t Hwf Hds) as [Hwf' _].
  destruct (updateAll ds t) as [t' [r|e]]; simpl in *; [|done].
  by apply table_wf_dispatch.
Qed.

Lemma internalUpdateMany_preserves_wf_witness :
  table_wf demo_users ∧ Forall object_wf [[("id", VNum 1); ("age", VNum 24)]] ∧
  table_wf (internalUpdateMany [[("id", VNum 1); ("age", VNum 24)]] demo_users).1.
Proof.
  assert (Hwf : table_wf demo_users) by table_wf_by_eval.
  assert (Hd : Forall object_wf [[("id", VNum 1); ("age", VNum 24)]])
    by decide_by_eval.
  split; [exact Hwf|]. split; [exact Hd|]. exact (internalUpdateMany_preserves_wf _ _ Hwf Hd).
Defined.

(** C4. Batch updates refine the abstract map update: seen as a map from
    primary key to entity, [internalUpdateMany] returns what the abstract
    batch update returns (the primary keys, or the first error) and leaves
    the table in the state the abstract update reaches, the diffs before an
    error included. *)
Theorem internalUpdateMany_refines t ds m :
  table_wf t -> Forall object_wf ds -> (∀ k, view t k = m k) ->
  (internalUpdateMany ds t).2 = (abs_updateMany (primaryKeyProperty t) ds m).2 ∧
  ∀ k, view (internalUpdateMany ds t).1 k = (abs_updateMany (primaryKeyProperty t) ds m).1 k.
Proof.
  intros Hwf Hds Hv. unfold internalUpdateMany, sbind, smodify, sret.
  destruct (updateAll_refines ds t m Hwf Hds Hv) as [Hr Hview].
  destruct (updateAll ds t) as [t' [r|e]]; simpl in *; [|done]. by split.
Qed.

Lemma internalUpdateMany_refines_witness :
  let ds := [[("id", VNum 1); ("age", VNum 24)]; [("id", VNum 7)]] in
  table_wf demo_users ∧ Forall object_wf ds ∧ (∀ k, view demo_users k = view demo_users k) ∧
  (internalUpdateMany ds demo_users).2 = (abs_updateMany "id" ds (view demo_users)).2.
Proof.
  intros ds.
  assert (Hwf : table_wf demo_users) by table_wf_by_eval.
  assert (Hd : Forall object_wf ds) by decide_by_eval.
  split_and!; [exact Hwf|exact Hd|done|].
  exact (proj1 (internalUpdateMany_refines demo_users ds (view demo_users) Hwf Hd (fun k => eq_refl))).
Defined.

(** C16. [internalUpdateMany] dispatches one [onUpdate] event for a batch
    that succeeds, with one change per diff, and no event at all for a
    batch that throws, although the diffs before the throw stay applied. *)
Theorem internalUpdateMany_dispatch t ds :
  table_wf t -> Forall object_wf ds ->
  match internalUpdateMany ds t with
  | (t', Ok pks) => length pks = length ds ∧
      ∃ changes, events t' = events t ++ [OnUpdate changes] ∧ length changes = length ds
  | (t', Err _) => events t' = events t
  end.
Proof.
  intros Hwf Hds. unfold internalUpdateMany, sbind, smodify, sret.
  destruct (updateAll_wf ds t Hwf Hds) as [_ Hev].
  destruct (updateAll ds t) as [t' [[pks chs]|e]] eqn:Hr; simpl in *; [|done].
  destruct (updateAll_lengths _ _ _ _ _ Hr). split; [done|]. exists chs. by rewrite Hev.
Qed.

Lemma internalUpdateMany_dispatch_witness :
  table_wf demo_users ∧ Forall object_wf [[("id", VNum 1); ("age", VNum 24)]; [("id", VNum 7)]] ∧
  events (internalUpdateMany [[("id", VNum 1); ("age", VNum 24)]; [("id", VNum 7)]] demo_users).1 = [].
Proof.
  assert (Hwf : table_wf demo_users) by table_wf_by_eval.
  assert (Hd : Forall object_wf [[("id", VNum 1); ("age", VNum 24)]; [("id", VNum 7)]])
    by decide_by_eval.
  split_and!; [exact Hwf|exact Hd|].
  pose proof (internalUpdateMany_dispatch _ _ Hwf Hd) as H.
  destruct (internalUpdateMany _ _) as [t' [r|e]] eqn:E; [vm_compute in E; discriminate|].
  exact H.
Defined.

Lemma update_wf t d :
  table_wf t -> object_wf d -> table_wf (update d t).1.
Proof.
  intros Hwf Hd. unfold update.
  destruct (decide _) as [_|Hpk]; [done|].
  destruct (BTree.get (primary t) _) as [l|] eqn:Hg; [|done].
  destruct (sfor_updateKey_spec d t l (entity_at t l) Hwf) as [ix [Hloop Hwf']];
    [by eapply primary_get_live|done|done|].
  unfold sbind, smodify. rewrite Hloop. by apply table_wf_dispatch.
Qed.

(** C17. The older single-entity [update] of update.ts keeps the index
    invariant as well. *)
Theorem update_preserves_wf t d :
  table_wf t -> object_wf d -> table_wf (update d t).1.
Proof. apply update_wf. Qed.

Lemma update_preserves_wf_witness :
  table_wf demo_users ∧ object_wf [("id", VNum 2); ("name", VStr "Robert")] ∧
  table_wf (update [("id", VNum 2); ("name", VStr "Robert")] demo_users).1.
Proof.
  assert (Hwf : table_wf demo_users) by table_wf_by_eval.
  assert (Hd : object_wf [("id", VNum 2); ("name", VStr "Robert")])
    by decide_by_eval.
  split_and!; [exact Hwf|exact Hd|exact (update_preserves_wf _ _ Hwf Hd)].
Defined.

(** The plain [Error] that [update] throws where [internalUpdateMany]
    throws a typed error. *)
Definition untyped (err : error) : error :=
  match err with
  | InvalidPrimaryKeyError pk => UntypedError (MsgInvalidPrimaryKey pk)
  | ItemNotFoundError pk => UntypedError (MsgItemNotFound pk)
  | e => e
  end.

(** C29. The older [update] of update.ts is [internalUpdateMany] of the
    one diff: the same table afterwards (entities, indexes and the one
    [onUpdate] event), on success and on every error; only the errors
    for an invalid or unknown primary key are plain [Error]s instead of
    [InvalidPrimaryKeyError] and [ItemNotFoundError]. *)
Theorem update_is_updateMany_one d t :
  (update d t).1 = (internalUpdateMany [d] t).1 ∧
  (update d t).2 = match (internalUpdateMany [d] t).2 with
                   | Ok _ => Ok tt
                   | Err err => Err (untyped err)
                   end.
Proof.
  unfold update, internalUpdateMany. cbn [updateAll]. unfold updateOne, sbind, sret, smodify.
  destruct (decide (_ ∨ _)); [done|]. destruct (BTree.get _ _) as [l|]; [|done].
  destruct (sfor _ _ _) as [t1 [[]|err]] eqn:Hl; [done|]. split; [done|].
  assert (err = no_bucket_error) as ->; [|done].
  apply (sfor_error (fun e => e = no_bucket_error) (updateKey (primaryKeyProperty t) l (entity_at t l)) d t).
  - intros kv t' e. apply updateKey_error.
  - by rewrite Hl.
Qed.
