(* ===== verification/Select.v ===== *)
(** * Selecting candidate entities through the indexes

    [selectForWhere] (src/packages/db/src/query/select/where.ts) chooses
    the index a where-object is answered with: the primary index when the
    primary-key property is in the filter, else the first secondary index
    (in declaration order) whose property is in the filter, else a full
    table scan.  It reports the selected entities through a callback,
    modelled here as the list of the entities passed to it, in order.

    [selectAndFilterItems] (select/and.ts) intersects the selections of
    the children of an [$and] filter by primary key; it removes the
    entities missing from a child's selection with [splice] at the
    positions of a snapshot taken before the loop.  [many]
    (src/packages/core/src/core/many.ts) answers a where-filter with the
    selection, or all entities when a full scan is required, and filters
    the candidates with the matcher evaluator.

    Not under src/ and modelled from the spec (4.5): [selectForMatcher]
    (the entries of a B-tree whose key matches a matcher, in key order),
    [selectWhereFilterItems] (the older array-returning form of
    [selectForWhere], [None] for a full scan) and [selectOrFilterItems]
    (the union by primary key of the children's selections, a full scan
    when one child needs one). *)

From S2P Require Import Prelude Values OrderedIndex Matchers Table.

(** ** Selection through one index *)

(** [selectForMatcher(btree, matcher, cb)]: the values of the entries
    whose key matches, in key order. *)
Fixpoint selectForMatcher {V} (bt : list (value * V)) (m : matcher) : res (list V) :=
  match bt with
  | [] => Ok []
  | (k, v) :: bt' =>
      b <- matchesMatcher k m ;;
      rest <- selectForMatcher bt' m ;;
      Ok (if b then v :: rest else rest)
  end.

(** [SelectResult]: the properties whose index was used, and whether a
    full table scan was made. *)
Record SelectResult : Type := mkSelectResult {
  rowsScanned : option (list string);
  fullTableScan : bool
}.

(** [const property in filter] and [filter[property]] on a where-object. *)
Definition where_has (w : where_obj) (p : string) : bool := bool_decide (p ∈ w.*1).

Definition where_get (w : where_obj) (p : string) : matcher :=
  default (MValue VUndefined) (assoc_lookup p w).

(** The loop [for (const property in storage.indexes)] of [selectForWhere]. *)
Fixpoint selectSecondary (ix : list (string * bucket_tree)) (w : where_obj)
    : option (res (list loc * SelectResult)) :=
  match ix with
  | [] => None
  | (p, bt) :: ix' =>
      if where_has w p then
        Some (buckets <- selectForMatcher bt (where_get w p) ;;
              Ok (concat buckets, mkSelectResult (Some [p]) false))
      else selectSecondary ix' w
  end.

(** [selectForWhere(table, filter, cb)]: the entities passed to [cb], in
    order, and the returned [SelectResult]. *)
Definition selectForWhere (t : table) (w : where_obj) : res (list loc * SelectResult) :=
  if decide (length w = 0) then Ok ([], mkSelectResult None false) else
  let pkProp := primaryKeyProperty t in
  if where_has w pkProp then
    items <- selectForMatcher (primary t) (where_get w pkProp) ;;
    Ok (items, mkSelectResult (Some [pkProp]) false)
  else
    match selectSecondary (indexes t) w with
    | Some r => r
    | None => Ok (BTree.valuesArray (primary t), mkSelectResult None true)
    end.

(** [selectWhereFilterItems(table, where)]: the selected entities, or
    [null] when a full table scan is required. *)
Definition selectWhereFilterItems (t : table) (w : where_obj) : res (option (list loc)) :=
  r <- selectForWhere t w ;;
  Ok (if fullTableScan r.2 then None else Some r.1).

(** ** [many] of the core package *)

(** [Filter<T>] of the core package: an optional where-object. *)
Record Filter : Type := mkFilter { f_where : option where_obj }.

(** [many(table, filter?)] *)
Definition many (t : table) (filter : option Filter) : res (list loc) :=
  match filter with
  | None => Ok (BTree.valuesArray (primary t))
  | Some f =>
      match f_where f with
      | None => Ok []
      | Some w =>
          possibleItems <- selectWhereFilterItems t w ;;
          let items := match possibleItems with
                       | Some items => items
                       | None => BTree.valuesArray (primary t)
                       end in
          filterWhereItems (entity_at t) items w
      end
  end.

(** ** [$and] and [$or] selections *)

(** The primary key of a stored entity, [item[primaryKeyProperty]]. *)
Definition pk_of (t : table) (l : loc) : value := field_at t l (primaryKeyProperty t).

(** The loop [for (let [index, item] of Array.from(filterItems.entries()))
    if (!itemsMap.has(pk(item))) filterItems.splice(index, 1);]: the
    snapshot keeps the original positions while [filterItems] shrinks. *)
Fixpoint splice_loop (keep : loc -> bool) (cur : list loc) (snapshot : list (nat * loc)) : list loc :=
  match snapshot with
  | [] => cur
  | (index, item) :: s => splice_loop keep (if keep item then cur else splice1 (Z.of_nat index) cur) s
  end.

(** [Array.from(arr.entries())] *)
Definition entries (l : list loc) : list (nat * loc) := zip (seq 0 (length l)) l.

(** One intersection step of [selectAndFilterItems]: keep the items of
    [filterItems] whose primary key is in [childFilterItems]. *)
Definition intersect_step (pk : loc -> value) (filterItems childFilterItems : list loc) : list loc :=
  let keys := pk <$> childFilterItems in
  splice_loop (fun item => bool_decide (pk item ∈ keys)) filterItems (entries filterItems).

(** The loop over [filter.$and.slice(1)]; [acc] is [filterItems]. *)
Fixpoint andLoop (pk : loc -> value) (acc : option (list loc))
    (children : list (res (option (list loc)))) : res (option (list loc)) :=
  match children with
  | [] => Ok acc
  | c :: cs =>
      childFilterItems <- c ;;
      match childFilterItems with
      | None => andLoop pk acc cs
      | Some [] => Ok (Some [])
      | Some items =>
          match acc with
          | None => andLoop pk (Some items) cs
          | Some filterItems => andLoop pk (Some (intersect_step pk filterItems items)) cs
          end
      end
  end.

(** [selectAndFilterItems(table, filter)], given the selections of the
    children in order. *)
Definition selectAndFilterItems (pk : loc -> value) (children : list (res (option (list loc))))
    : res (option (list loc)) :=
  match children with
  | [] => Ok (Some [])
  | [c] => c
  | c :: cs => filterItems <- c ;; andLoop pk filterItems cs
  end.

(** Union by primary key, the first copy kept. *)
Fixpoint dedup_by (pk : loc -> value) (seen : list value) (l : list loc) : list loc :=
  match l with
  | [] => []
  | x :: l' => if bool_decide (pk x ∈ seen) then dedup_by pk seen l' else x :: dedup_by pk (pk x :: seen) l'
  end.

(** [selectOrFilterItems(table, filter)], given the selections of the
    children in order. *)
Definition selectOrFilterItems (pk : loc -> value) (children : list (res (option (list loc))))
    : res (option (list loc)) :=
  rs <- result_fold (fun acc c => r <- c ;; Ok (acc ++ [r])) [] children ;;
  Ok (if bool_decide (None ∈ rs) then None
      else Some (dedup_by pk [] (concat (default [] <$> rs)))).

(** A child without a [$or] key goes to [selectWhereFilterItems] as a
    where-object: a nested [$and] is the where-object whose only key is
    [$and] (its matcher matters only when a table indexes a property of
    that name). *)
Definition as_where (f : filter) : where_obj :=
  match f with
  | FWhere w => w
  | FAnd _ => [("$and", MObject [])]
  | FOr _ => [("$or", MObject [])]
  end.

(** The selection of a filter tree. *)
Fixpoint selectFilter (t : table) (f : filter) : res (option (list loc)) :=
  match f with
  | FWhere w => selectWhereFilterItems t w
  | FAnd fs =>
      selectAndFilterItems (pk_of t)
        (map (fun c => match c with
                       | FOr _ => selectFilter t c
                       | _ => selectWhereFilterItems t (as_where c)
                       end) fs)
  | FOr fs => selectOrFilterItems (pk_of t) (map (selectFilter t) fs)
  end.

(** ** Lemmas on selection *)

Lemma selectForMatcher_ok {V} (bt : list (value * V)) m :
  matcher_ok m = true -> selectForMatcher bt m = Ok (List.filter (fun kv => mm kv.1 m) bt).*2.
Proof.
  intros Hm. induction bt as [|[k v] bt IH]; simpl; [done|].
  rewrite (matchesMatcher_ok _ _ Hm), IH. simpl. by destruct (mm k m).
Qed.

Lemma where_get_elem_of w p : where_has w p = true -> (p, where_get w p) ∈ w.
Proof.
  unfold where_has, where_get. rewrite bool_decide_eq_true. induction w as [|[k m] w IH]; simpl.
  - set_solver.
  - intros Hin. case_decide; subst; [by left|]. right. apply IH. set_solver.
Qed.

Lemma selectSecondary_spec ix w :
  (selectSecondary ix w = None ∧ ∀ p bt, (p, bt) ∈ ix -> where_has w p = false) ∨
  ∃ p bt, (p, bt) ∈ ix ∧ where_has w p = true ∧
    selectSecondary ix w =
      Some (buckets <- selectForMatcher bt (where_get w p) ;;
            Ok (concat buckets, mkSelectResult (Some [p]) false)).
Proof.
  induction ix as [|[p bt] ix IH]; simpl; [left; set_solver|].
  destruct (where_has w p) eqn:Hp; [right; exists p, bt; set_solver|].
  destruct IH as [[Hn Hall]|(p' & bt' & Hin & Hh & Heq)]; [left|right].
  - split; [done|]. intros p' bt' [[= -> ->]|Hin]%elem_of_cons; [done|by apply (Hall p' bt')].
  - exists p', bt'. set_solver.
Qed.

(** The candidates a selection may return for a where-object: no
    duplicates, only stored entities, and every stored entity that passes
    the where-object. *)
Definition selection_ok (t : table) (w : where_obj) (items : list loc) : Prop :=
  NoDup items ∧ (∀ l, l ∈ items -> live t l) ∧
  (∀ l, live t l -> passes (entity_at t l) w = true -> l ∈ items).

Lemma selection_ok_all t w : table_wf t -> selection_ok t w (primary t).*2.
Proof. intros Hwf. split_and!; [apply (wf_primary_inj t Hwf)|done|done]. Qed.

Lemma selection_ok_primary t w m :
  table_wf t -> (primaryKeyProperty t, m) ∈ w ->
  selection_ok t w (List.filter (fun kv => mm kv.1 m) (primary t)).*2.
Proof.
  intros Hwf Hm. split_and!.
  - apply NoDup_filter_snd, (wf_primary_inj t Hwf).
  - intros l Hl. apply list_elem_of_fmap in Hl as [[k l'] [-> Hin]].
    apply elem_of_filter_bool in Hin as [Hin _]. apply live_elem_of. by exists k.
  - intros l Hl Hp. apply live_elem_of in Hl as [k Hin].
    destruct (wf_primary_key t Hwf k l Hin) as [_ [Hk _]].
    apply list_elem_of_fmap. exists (k, l). split; [done|]. apply elem_of_filter_bool.
    split; [done|]. simpl. rewrite <- Hk. exact (passes_elem_of _ _ _ _ Hp Hm).
Qed.

Lemma selection_ok_secondary t w p bt m :
  table_wf t -> (p, bt) ∈ indexes t -> (p, m) ∈ w ->
  selection_ok t w (concat (List.filter (fun kv => mm kv.1 m) bt).*2).
Proof.
  intros Hwf Hp Hm. destruct (wf_index t Hwf p bt Hp) as (Hs & Hb & Hc).
  assert (Hocc : ∀ l, occ l (concat (List.filter (fun kv => mm kv.1 m) bt).*2) =
      if decide (live t l ∧ field_at t l p ∈ (List.filter (fun kv => mm kv.1 m) bt).*1) then 1 else 0).
  { intros l. apply (occ_concat_buckets (live t) (fun l => field_at t l p)).
    - apply NoDup_filter_fst, BTree.wf_NoDup_keys, Hs.
    - intros k b [Hin _]%elem_of_filter_bool. apply Hc, BTree.get_elem_of; done. }
  split_and!.
  - apply NoDup_occ. intros l. rewrite Hocc. case_decide; lia.
  - intros l Hl. apply occ_pos in Hl. rewrite Hocc in Hl. case_decide; [tauto|lia].
  - intros l Hl Hpass. apply occ_zero_ne. rewrite Hocc, decide_True; [lia|].
    split; [done|]. destruct (Hb l Hl) as [b Hg]. apply list_elem_of_fmap.
    exists (field_at t l p, b). split; [done|]. apply elem_of_filter_bool.
    split; [by apply BTree.get_elem_of|]. exact (passes_elem_of _ _ _ _ Hpass Hm).
Qed.

(** [selectForWhere] on a non-empty where-object whose matchers do not
    throw returns a candidate set: every stored entity that passes, each
    once, and nothing else. *)
Lemma selectForWhere_spec t w :
  table_wf t -> where_ok w = true -> w ≠ [] ->
  ∃ items r, selectForWhere t w = Ok (items, r) ∧
    selection_ok t w (if fullTableScan r then (primary t).*2 else items).
Proof.
  intros Hwf Hw Hne. unfold selectForWhere.
  rewrite decide_False by (destruct w; simpl; [done|lia]).
  destruct (where_has w (primaryKeyProperty t)) eqn:Hpk.
  - pose proof (where_get_elem_of _ _ Hpk) as Hm.
    rewrite (selectForMatcher_ok _ _ (where_ok_elem_of _ _ _ Hw Hm)).
    eexists _, _. split; [done|]. by apply selection_ok_primary.
  - destruct (selectSecondary_spec (indexes t) w) as [[-> _]|(p & bt & Hin & Hp & ->)].
    + eexists _, _. split; [done|]. by apply selection_ok_all.
    + pose proof (where_get_elem_of _ _ Hp) as Hm.
      rewrite (selectForMatcher_ok _ _ (where_ok_elem_of _ _ _ Hw Hm)).
      eexists _, _. split; [done|]. simpl. by eapply selection_ok_secondary.
Qed.

Lemma many_where_spec t w :
  table_wf t -> where_ok w = true -> w ≠ [] ->
  ∃ items, many t (Some (mkFilter (Some w))) = Ok items ∧ NoDup items ∧
    ∀ l, l ∈ items <-> live t l ∧ matchesWhere (entity_at t l) w = Ok true.
Proof.
  intros Hwf Hw Hne. destruct (selectForWhere_spec t w Hwf Hw Hne) as (items & r & Hsel & Hok).
  change (many t (Some (mkFilter (Some w)))) with
    (possibleItems <- selectWhereFilterItems t w ;;
     filterWhereItems (entity_at t) (match possibleItems with Some items => items
                                     | None => BTree.valuesArray (primary t) end) w).
  unfold selectWhereFilterItems. rewrite Hsel. simpl.
  set (cands := if fullTableScan r then (primary t).*2 else items) in Hok.
  replace (match (if fullTableScan r then None else Some items) with
           | Some items => items | None => BTree.valuesArray (primary t) end) with cands
    by (subst cands; by destruct (fullTableScan r)).
  rewrite filterWhereItems_ok by done. eexists. split; [done|].
  destruct Hok as (Hnd & Hlive & Hall). split.
  - apply NoDup_ListNoDup, Stdlib.Lists.List.NoDup_filter, NoDup_ListNoDup, Hnd.
  - intros l. rewrite elem_of_filter_bool, matchesWhere_ok by done. split.
    + intros [Hin Hp]. split; [by apply Hlive|]. by rewrite Hp.
    + intros [Hl [= Hp]]. split; [by apply Hall|done].
Qed.

(** ** Properties of queries *)

(** C11. [many] with a where-filter returns exactly the stored entities
    that pass the filter, each once, whichever index it selects them with
    (for a non-empty where-object whose matchers do not throw). *)
Theorem many_where_correct t w :
  table_wf t -> where_ok w = true -> w ≠ [] ->
  ∃ items, many t (Some (mkFilter (Some w))) = Ok items ∧ NoDup items ∧
    ∀ l, l ∈ items <-> live t l ∧ matchesWhere (entity_at t l) w = Ok true.
Proof. apply many_where_spec. Qed.

Lemma many_where_correct_witness :
  let w := [("age", MObject [("$gte", VNum 30)])] in
  table_wf demo_users ∧ where_ok w = true ∧ w ≠ [] ∧
  many demo_users (Some (mkFilter (Some w))) = Ok [2; 1] ∧
  ∃ items, many demo_users (Some (mkFilter (Some w))) = Ok items ∧ NoDup items ∧
    ∀ l, l ∈ items <-> live demo_users l ∧ matchesWhere (entity_at demo_users l) w = Ok true.
Proof.
  intros w. assert (Hwf : table_wf demo_users) by table_wf_by_eval.
  split_and!; [exact Hwf|reflexivity|discriminate|vm_compute; reflexivity|].
  exact (many_where_correct demo_users w Hwf eq_refl ltac:(discriminate)).
Defined.

(** C12. Index acceleration does not change the answer: two well-formed
    tables with the same entities and primary index, whatever secondary
    indexes they have, give [many] with the same where-filter the same
    entities, up to order. *)
Theorem many_index_independent t t' w :
  table_wf t -> table_wf t' -> primary t' = primary t -> heap t' = heap t ->
  where_ok w = true -> w ≠ [] ->
  ∃ r r', many t (Some (mkFilter (Some w))) = Ok r ∧
          many t' (Some (mkFilter (Some w))) = Ok r' ∧ r ≡ₚ r'.
Proof.
  intros Hwf Hwf' Hp Hh Hw Hne.
  destruct (many_where_spec t w Hwf Hw Hne) as (r & Hr & Hnd & Hin).
  destruct (many_where_spec t' w Hwf' Hw Hne) as (r' & Hr' & Hnd' & Hin').
  exists r, r'. split_and!; [done|done|]. apply NoDup_Permutation; [done|done|].
  intros l. rewrite Hin, Hin'. unfold live, entity_at. by rewrite Hp, Hh.
Qed.

Lemma many_index_independent_witness :
  let w := [("age", MObject [("$gt", VNum 25)])] in
  table_wf demo_users ∧ table_wf (with_indexes demo_users []) ∧
  primary (with_indexes demo_users []) = primary demo_users ∧
  heap (with_indexes demo_users []) = heap demo_users ∧ where_ok w = true ∧ w ≠ [] ∧
  ∃ r r', many demo_users (Some (mkFilter (Some w))) = Ok r ∧
          many (with_indexes demo_users []) (Some (mkFilter (Some w))) = Ok r' ∧ r ≡ₚ r'.
Proof.
  intros w.
  assert (Hwf : table_wf demo_users) by table_wf_by_eval.
  assert (Hwf' : table_wf (with_indexes demo_users [])) by table_wf_by_eval.
  split_and!; [exact Hwf|exact Hwf'|reflexivity|reflexivity|reflexivity|discriminate|].
  exact (many_index_independent _ _ w Hwf Hwf' eq_refl eq_refl eq_refl ltac:(discriminate)).
Defined.

(** [many] answers the empty where-object, and a filter without a
    where-object, with no entity at all, although every stored entity
    passes the empty where-object. *)
Theorem many_empty_where t :
  many t (Some (mkFilter (Some []))) = Ok [] ∧ many t (Some (mkFilter None)) = Ok [] ∧
  ∀ l, matchesWhere (entity_at t l) [] = Ok true.
Proof. done. Qed.

(** An [$and] without children selects no entity, although every
    entity passes it (spec, section 9, flags this as a likely defect);
    an [$and] with one child is the selection of that child. *)
Theorem and_zero_one_children t w :
  selectFilter t (FAnd []) = Ok (Some []) ∧
  (∀ l, matchesFilter (entity_at t l) (FAnd []) = Ok true) ∧
  selectFilter t (FAnd [FWhere w]) = selectWhereFilterItems t w.
Proof. done. Qed.

(** ** A [null] matcher *)

Lemma filterWhereItems_null {A} (f : A -> entity) items p :
  items ≠ [] -> filterWhereItems f items [(p, MValue VNull)] = Err (in_null_error "$equals").
Proof. destruct items; [done|]. done. Qed.

(** A property without a secondary index selects through none. *)
Lemma selectSecondary_unindexed ix p m :
  assoc_lookup p ix = None -> selectSecondary ix [(p, m)] = None.
Proof.
  induction ix as [|[p' bt] ix IH]; intros Hp; simpl in *; [done|].
  destruct (decide (p = p')) as [->|Hne]; [done|].
  unfold where_has. rewrite bool_decide_false by (simpl; set_solver). by apply IH.
Qed.

(** C33. On a property that is neither the primary key nor indexed, a
    [null] matcher makes [many] throw the TypeError of [key in null] as
    soon as the table holds an entity: the selection is a full scan, and
    re-checking the first entity runs matchers.ts, where [typeof null]
    is ["object"] and [("$equals" in null)] throws.  The spec (4.2) has
    no error case for a matcher. *)
Theorem many_null_matcher_throws t p :
  p ≠ primaryKeyProperty t -> index_of t p = None -> primary t ≠ [] ->
  many t (Some (mkFilter (Some [(p, MValue VNull)]))) = Err (in_null_error "$equals").
Proof.
  intros Hpk Hix Hne. unfold many, selectWhereFilterItems, selectForWhere. simpl.
  unfold where_has at 1. rewrite bool_decide_false by (simpl; set_solver).
  rewrite selectSecondary_unindexed by done. simpl.
  apply filterWhereItems_null. unfold BTree.valuesArray. by destruct (primary t).
Qed.

Lemma many_null_matcher_throws_witness :
  "nickname" ≠ primaryKeyProperty demo_users ∧ index_of demo_users "nickname" = None ∧
  primary demo_users ≠ [] ∧
  many demo_users (Some (mkFilter (Some [("nickname", MValue VNull)]))) = Err (in_null_error "$equals").
Proof.
  assert (H1 : "nickname" ≠ primaryKeyProperty demo_users) by discriminate.
  assert (H2 : index_of demo_users "nickname" = None) by reflexivity.
  assert (H3 : primary demo_users ≠ []) by discriminate.
  split_and!; [exact H1|exact H2|exact H3|].
  exact (many_null_matcher_throws demo_users "nickname" H1 H2 H3).
Defined.

(** ** The intersection of [selectAndFilterItems] *)

Lemma splice_loop_app keep cur s1 s2 :
  splice_loop keep cur (s1 ++ s2) = splice_loop keep (splice_loop keep cur s1) s2.
Proof. revert cur. induction s1 as [|[i x] s1 IH]; intros cur; simpl; [done|]. apply IH. Qed.

Lemma splice_loop_keep_all keep cur s :
  (∀ x, x ∈ s.*2 -> keep x = true) -> splice_loop keep cur s = cur.
Proof.
  revert cur. induction s as [|[i x] s IH]; intros cur Hall; simpl; [done|].
  rewrite (Hall x) by (simpl; set_solver). apply IH. intros y Hy. apply Hall. simpl. set_solver.
Qed.

Lemma splice_at_middle (pre post : list loc) x :
  splice_at (length pre) (pre ++ x :: post) = pre ++ post.
Proof. induction pre as [|y pre IH]; simpl; [done|]. by rewrite IH. Qed.

Lemma zip_seq_snd n (l : list loc) : (zip (seq n (length l)) l).*2 = l.
Proof.
  revert n. induction l as [|x l IH]; intros n; simpl; [done|]. f_equal. apply IH.
Qed.

Lemma entries_middle (pre post : list loc) x :
  entries (pre ++ x :: post) =
    zip (seq 0 (length pre)) pre ++ (length pre, x) :: zip (seq (S (length pre)) (length post)) post.
Proof.
  unfold entries. rewrite length_app. rewrite seq_app.
  rewrite zip_with_app by (by rewrite length_seq). reflexivity.
Qed.

Lemma filter_all_true {A} (g : A -> bool) (l : list A) :
  (∀ x, x ∈ l -> g x = true) -> List.filter g l = l.
Proof.
  induction l as [|x l IH]; intros Hall; simpl; [done|].
  rewrite (Hall x) by set_solver. f_equal. apply IH. set_solver.
Qed.

(** A list with at most one element to drop is all kept, or one element
    between kept ones. *)
Lemma at_most_one_dropped {A} (keep : A -> bool) (l : list A) :
  length (List.filter (fun x => negb (keep x)) l) <= 1 ->
  (∀ x, x ∈ l -> keep x = true) ∨
  ∃ pre x post, l = pre ++ x :: post ∧ keep x = false ∧ ∀ y, y ∈ pre ++ post -> keep y = true.
Proof.
  induction l as [|a l IH]; simpl; intros Hlen; [left; set_solver|].
  destruct (keep a) eqn:Ha; simpl in Hlen.
  - destruct (IH Hlen) as [Hall|(pre & x & post & -> & Hx & Hall)].
    + left. intros y [->|Hy]%elem_of_cons; [done|by apply Hall].
    + right. exists (a :: pre), x, post. split_and!; [done|done|].
      intros y [->|Hy]%elem_of_cons; [done|by apply Hall].
  - right. exists [], a, l. split_and!; [done|done|]. simpl.
    intros y Hy. destruct (keep y) eqn:Hk; [done|]. exfalso.
    assert (y ∈ List.filter (fun x => negb (keep x)) l) as Hin
      by (apply elem_of_filter_bool; by rewrite Hk).
    destruct (List.filter _ l); [set_solver|simpl in Hlen; lia].
Qed.

(** C14. [selectAndFilterItems] loses entities that match every child:
    on the spec's users, [{$and: [{age: {$gte: 0}}, {id: 2}]}] selects
    Charlie, whom the second child excludes, instead of Bob, the one
    stored entity that passes both children.  The removals use positions
    of the snapshot after earlier removals shifted the array. *)
Theorem and_selection_drops_match :
  let f := FAnd [FWhere [("age", MObject [("$gte", VNum 0)])]; FWhere [("id", MValue (VNum 2))]] in
  selectFilter demo_users f = Ok (Some [2]) ∧
  live demo_users 1 ∧ matchesFilter (entity_at demo_users 1) f = Ok true ∧
  matchesFilter (entity_at demo_users 2) f = Ok false.
Proof.
  intros f. split_and!; [vm_compute; reflexivity| |vm_compute; reflexivity|vm_compute; reflexivity].
  decide_by_eval.
Qed.

(** C25. The intersection step of [selectAndFilterItems] is the filter of
    [filterItems] by the primary keys of [childFilterItems] when it drops
    at most one item; the stale positions only matter from the second
    removal on. *)
Theorem intersect_step_one_removal pk filterItems childFilterItems :
  length (List.filter (fun x => negb (bool_decide (pk x ∈ pk <$> childFilterItems))) filterItems) <= 1 ->
  intersect_step pk filterItems childFilterItems =
    List.filter (fun x => bool_decide (pk x ∈ pk <$> childFilterItems)) filterItems.
Proof.
  unfold intersect_step. set (keep := fun x => bool_decide (pk x ∈ pk <$> childFilterItems)).
  intros Hlen. destruct (at_most_one_dropped keep _ Hlen) as [Hall|(pre & x & post & -> & Hx & Hall)].
  - rewrite filter_all_true by done. apply splice_loop_keep_all. unfold entries.
    by rewrite zip_seq_snd.
  - rewrite entries_middle, !splice_loop_app. simpl.
    rewrite (splice_loop_keep_all keep (pre ++ x :: post) (zip (seq 0 (length pre)) pre))
      by (rewrite zip_seq_snd; intros y Hy; apply Hall; set_solver).
    rewrite Hx. unfold splice1. rewrite (proj2 (Z.ltb_ge _ _)) by lia.
    rewrite Z.min_l by (rewrite length_app; simpl; lia). rewrite Nat2Z.id, splice_at_middle.
    rewrite (splice_loop_keep_all keep) by (rewrite zip_seq_snd; intros y Hy; apply Hall; set_solver).
    rewrite List.filter_app. simpl. rewrite Hx, !filter_all_true; [done| |];
      intros y Hy; apply Hall; set_solver.
Qed.

Lemma intersect_step_one_removal_witness :
  length (List.filter (fun x => negb (bool_decide (pk_of demo_users x ∈ pk_of demo_users <$> [2; 1])))
            [0; 2; 1]) <= 1 ∧
  intersect_step (pk_of demo_users) [0; 2; 1] [2; 1] = [2; 1].
Proof.
  split; [vm_compute; lia|].
  rewrite (intersect_step_one_removal (pk_of demo_users) [0; 2; 1] [2; 1]) by (vm_compute; lia).
  vm_compute. reflexivity.
Defined.
