(* ===== verification/Analyze.v ===== *)
(** * The cost analyzer: analyze/index.ts, analyze/where.ts, analyze/or.ts

    [analyzeWhere] estimates how many entities a where-object makes a
    scan touch: for each property of the filter with an index (the
    primary index, or a secondary index whose estimate is scaled by the
    average bucket size [totalItemSize / size], rounded with [Math.round]),
    it keeps the smallest estimate that is truthy, starting from
    [Number.MAX_SAFE_INTEGER].  [analyzeOr] adds the estimates of its
    children and [analyze] dispatches on the [AND]/[OR] keys.

    Not under src/ and modelled from the spec (4.4): [analyzeMatcher]
    (1 for an equality, the number of keys on the matching side for a
    range) and [analyzeAnd] (the smallest estimate of its children, as the
    intersection of section 4.5 touches no more than its smallest
    branch).

    Estimates are JavaScript numbers.  Those of [analyzeWhere] are
    integers up to [Number.MAX_SAFE_INTEGER], held exactly; the sum of
    [analyzeOr] can pass [2^53] and is rounded to the nearest double
    ([js_add]).  The model computes [Math.round(c * (t / s))] as the
    integer nearest to
    [c * t / s], halves rounded up.  An estimate that is [undefined],
    [NaN] or [Infinity] is [None]: [complexity && complexity < min] is
    false for all three. *)

From S2P Require Import Prelude Values OrderedIndex Matchers Table Select.

(** [Number.MAX_SAFE_INTEGER] *)
Definition MAX_SAFE_INTEGER : Z := (2 ^ 53 - 1)%Z.

(** [analyzeMatcher(btree, matcher)]: 1 for an equality matcher, the
    number of keys the range matcher accepts otherwise. *)
Definition analyzeMatcher {V} (bt : list (value * V)) (m : matcher) : res Z :=
  match m with
  | MValue VNull => Err (in_null_error "$equals")
  | MObject o =>
      if has_field o "$equals" then Ok 1%Z
      else if has_field o "$gte" || has_field o "$gt" || has_field o "$lte" || has_field o "$lt"
      then Ok (Z.of_nat (length (List.filter (fun kv => mm kv.1 m) bt)))
      else Ok 1%Z
  | MValue _ => Ok 1%Z
  end.

(** [Math.round(c * (t / s))] on naturals; [None] when [s = 0]
    ([t / 0] is [NaN] or [Infinity]). *)
Definition round_scaled (c t s : Z) : option Z :=
  if decide (s = 0%Z) then None else Some ((2 * c * t + s) / (2 * s))%Z.

(** The estimate of one property of the where-object, [undefined] when
    the property has no index. *)
Definition keyComplexity (t : table) (key : string) (m : matcher) : res (option Z) :=
  if decide (key = primaryKeyProperty t) then
    c <- analyzeMatcher (primary t) m ;; Ok (Some c)
  else
    match index_of t key with
    | Some btree =>
        c <- analyzeMatcher btree m ;;
        Ok (round_scaled c (Z.of_nat (BTree.totalItemSize btree)) (Z.of_nat (BTree.size btree)))
    | None => Ok None
    end.

(** [if (complexity && complexity < minComplexity) minComplexity = complexity] *)
Definition keep_min (minComplexity : Z) (complexity : option Z) : Z :=
  match complexity with
  | Some c => if decide (c ≠ 0%Z ∧ (c < minComplexity)%Z) then c else minComplexity
  | None => minComplexity
  end.

(** [analyzeWhere(table, where)] *)
Definition analyzeWhere (t : table) (w : where_obj) : res Z :=
  if decide (length w = 0) then Ok 0%Z else
  result_fold (fun minComplexity km =>
                 complexity <- keyComplexity t km.1 km.2 ;;
                 Ok (keep_min minComplexity complexity))
              MAX_SAFE_INTEGER w.

(** [analyzeAnd(table, and)], given the estimates of the children in
    order: the smallest, starting from [Number.MAX_SAFE_INTEGER]. *)
Definition analyzeAnd (children : list (res Z)) : res Z :=
  result_fold (fun minComplexity c => x <- c ;; Ok (Z.min minComplexity x)) MAX_SAFE_INTEGER children.

(** The double nearest to a non-negative integer [x], ties to even: the
    value of a JavaScript number that holds [x].  Below [2^53] every
    integer is a double; above, [x] keeps its 53 leading bits, the bits
    below are rounded off. *)
Definition round_double (x : Z) : Z :=
  let e := (Z.log2 x - 52)%Z in
  if (e <=? 0)%Z then x else
  let q := Z.shiftr x e in
  let r := (x - Z.shiftl q e)%Z in
  let half := Z.shiftl 1 (e - 1) in
  let q' := if (half <? r)%Z || ((r =? half)%Z && Z.odd q) then (q + 1)%Z else q in
  Z.shiftl q' e.

(** [a + b] on JavaScript numbers holding non-negative integers. *)
Definition js_add (a b : Z) : Z := round_double (a + b).

(** [analyzeOr(table, or)], given the estimates of the children in order:
    [complexity += filterComplexity] for every child, from 0. *)
Definition analyzeOr (children : list (res Z)) : res Z :=
  result_fold (fun complexity c => x <- c ;; Ok (js_add complexity x)) 0%Z children.

(** [analyze(table, filter)]: the filters of the db package are a
    where-object, or an [AND] / [OR] object of filters, told apart by
    those keys; a child of [analyzeAnd] with an [OR] key goes to
    [analyzeOr], a child of [analyzeOr] with an [AND] key to
    [analyzeAnd], any other child to [analyzeWhere]. *)
Fixpoint analyze (t : table) (f : filter) : res Z :=
  match f with
  | FWhere w => analyzeWhere t w
  | FAnd fs =>
      analyzeAnd (map (fun c => match c with
                                | FOr _ => analyze t c
                                | _ => analyzeWhere t (as_where c)
                                end) fs)
  | FOr fs =>
      analyzeOr (map (fun c => match c with
                               | FAnd _ => analyze t c
                               | _ => analyzeWhere t (as_where c)
                               end) fs)
  end.

(** ** Lemmas *)

(** The estimate of one property, [None] when it has none. *)
Definition est (t : table) (key : string) (m : matcher) : option Z :=
  match keyComplexity t key m with Ok oc => oc | Err _ => None end.

Lemma analyzeMatcher_ok {V} (bt : list (value * V)) m :
  matcher_ok m = true -> ∃ c, analyzeMatcher bt m = Ok c ∧ (0 <= c)%Z.
Proof.
  destruct m as [[]|o]; simpl; try done; try (intros _; eexists; split; [done|lia]).
  intros _. repeat case_match; eexists; (split; [done|lia]).
Qed.

Lemma round_scaled_nonneg c t s r :
  (0 <= c)%Z -> (0 <= t)%Z -> (0 <= s)%Z -> round_scaled c t s = Some r -> (0 <= r)%Z.
Proof.
  unfold round_scaled. intros Hc Ht Hs. case_decide; [done|]. intros [= <-].
  apply Z.div_pos; nia.
Qed.

Lemma keyComplexity_ok t key m :
  matcher_ok m = true -> keyComplexity t key m = Ok (est t key m) ∧
    ∀ c, est t key m = Some c -> (0 <= c)%Z.
Proof.
  intros Hm. unfold est, keyComplexity. case_decide.
  - destruct (analyzeMatcher_ok (primary t) m Hm) as [c [-> Hc]]. simpl. split; [done|].
    by intros ? [= <-].
  - destruct (index_of t key) as [bt|]; [|done].
    destruct (analyzeMatcher_ok bt m Hm) as [c [-> Hc]]. simpl. split; [done|].
    intros r. apply round_scaled_nonneg; lia.
Qed.

Lemma keep_min_fold_spec t (w : where_obj) m0 :
  where_ok w = true -> (1 <= m0 <= MAX_SAFE_INTEGER)%Z ->
  ∃ c, result_fold (fun mn km => complexity <- keyComplexity t km.1 km.2 ;; Ok (keep_min mn complexity)) m0 w = Ok c ∧
    (1 <= c <= m0)%Z ∧
    (∀ k m c', (k, m) ∈ w -> est t k m = Some c' -> c' ≠ 0%Z -> (c <= c')%Z) ∧
    (c = m0 ∨ ∃ k m, (k, m) ∈ w ∧ est t k m = Some c).
Proof.
  revert m0. induction w as [|[k m] w IH]; intros m0 Hw Hm0; simpl.
  - exists m0. split_and!; [done|lia|lia|set_solver|by left].
  - apply andb_true_iff in Hw as [Hm Hw]. simpl in Hm.
    destruct (keyComplexity_ok t k m Hm) as [-> Hnn]. simpl.
    set (m1 := keep_min m0 (est t k m)).
    assert (Hm1 : (1 <= m1 <= m0)%Z ∧ (m1 = m0 ∨ est t k m = Some m1) ∧
                  ∀ c', est t k m = Some c' -> c' ≠ 0%Z -> (m1 <= c')%Z).
    { subst m1. unfold keep_min. destruct (est t k m) as [c|] eqn:He; [|split_and!; [lia|lia|by left|done]].
      pose proof (Hnn c eq_refl). case_decide as Hc.
      - split_and!; [lia|lia|by right|intros ? [= <-]; lia].
      - split_and!; [lia|lia|by left|]. intros ? [= <-] Hne.
        destruct (Z.lt_ge_cases c m0) as [Hlt|Hge]; [exfalso; by apply Hc|lia]. }
    destruct Hm1 as (Hb & Hwhich & Hle).
    destruct (IH m1 Hw) as (c & Hr & Hc & Hmin & Hw'); [lia|]. exists c. split_and!; [done|lia|lia|..].
    + intros k' m' c' [[= -> ->]|Hin]%elem_of_cons He Hne.
      * specialize (Hle c' He Hne). lia.
      * by apply (Hmin k' m' c').
    + destruct Hw' as [->|(k' & m' & Hin & He)].
      * destruct Hwhich as [->|He]; [by left|right; exists k, m; set_solver].
      * right. exists k', m'. set_solver.
Qed.

(** ** Properties of the analyzer *)

(** C26. [analyzeWhere] of a non-empty where-object whose matchers do not
    throw is the smallest non-zero estimate of its indexed properties, or
    [Number.MAX_SAFE_INTEGER] when there is none; it is always between 1
    and [Number.MAX_SAFE_INTEGER]. *)
Theorem analyzeWhere_min t w :
  where_ok w = true -> w ≠ [] ->
  ∃ c, analyzeWhere t w = Ok c ∧ (1 <= c <= MAX_SAFE_INTEGER)%Z ∧
    (∀ k m c', (k, m) ∈ w -> est t k m = Some c' -> c' ≠ 0%Z -> (c <= c')%Z) ∧
    (c = MAX_SAFE_INTEGER ∨ ∃ k m, (k, m) ∈ w ∧ est t k m = Some c).
Proof.
  intros Hw Hne. unfold analyzeWhere. rewrite decide_False by (destruct w; simpl; [done|lia]).
  apply keep_min_fold_spec; [done|unfold MAX_SAFE_INTEGER; lia].
Qed.

Lemma analyzeWhere_min_witness :
  let w := [("age", MObject [("$gt", VNum 30)]); ("id", MValue (VNum 1))] in
  where_ok w = true ∧ w ≠ [] ∧ analyzeWhere demo_users w = Ok 1%Z ∧
  ∃ c, analyzeWhere demo_users w = Ok c ∧ (1 <= c <= MAX_SAFE_INTEGER)%Z ∧
    (∀ k m c', (k, m) ∈ w -> est demo_users k m = Some c' -> c' ≠ 0%Z -> (c <= c')%Z) ∧
    (c = MAX_SAFE_INTEGER ∨ ∃ k m, (k, m) ∈ w ∧ est demo_users k m = Some c).
Proof.
  intros w. split_and!; [reflexivity|discriminate|vm_compute; reflexivity|].
  exact (analyzeWhere_min demo_users w eq_refl ltac:(discriminate)).
Defined.

(** Sums below [2^53] are exact. *)
Lemma round_double_small x : (0 <= x < 2 ^ 53)%Z -> round_double x = x.
Proof.
  intros Hx. unfold round_double. destruct (decide (x = 0%Z)) as [->|Hne]; [done|].
  assert (Z.log2 x < 53)%Z by (apply Z.log2_lt_pow2; lia).
  by rewrite (proj2 (Z.leb_le _ _)) by lia.
Qed.

(** C27. [analyzeOr] adds [Number.MAX_SAFE_INTEGER] for every branch
    without an index, as JavaScript numbers: two such branches sum
    exactly to [2^54 - 2], but a third gives [27021597764222972], the
    double nearest to [3 * Number.MAX_SAFE_INTEGER]: the estimate is
    beyond [2^53] and no longer the sum of the branches' estimates. *)
Theorem analyzeOr_exceeds_safe t p1 p2 p3 v1 v2 v3 :
  Forall (fun p => p ≠ primaryKeyProperty t ∧ index_of t p = None) [p1; p2; p3] ->
  analyze t (FOr [FWhere [(p1, MValue (VNum v1))]; FWhere [(p2, MValue (VNum v2))]])
    = Ok (2 * MAX_SAFE_INTEGER)%Z ∧
  analyze t (FOr [FWhere [(p1, MValue (VNum v1))]; FWhere [(p2, MValue (VNum v2))];
                  FWhere [(p3, MValue (VNum v3))]]) = Ok 27021597764222972%Z ∧
  (2 ^ 53 < 27021597764222972 < 3 * MAX_SAFE_INTEGER)%Z.
Proof.
  intros Hp. repeat (apply Forall_cons in Hp as [[? ?] Hp]).
  simpl. unfold analyzeOr, analyzeWhere, keyComplexity. simpl.
  rewrite !decide_False by done. rewrite H0, H2, H4. simpl.
  split_and!; [vm_compute; reflexivity|vm_compute; reflexivity|unfold MAX_SAFE_INTEGER; lia..].
Qed.

Lemma analyzeOr_exceeds_safe_witness :
  Forall (fun p => p ≠ primaryKeyProperty demo_users ∧ index_of demo_users p = None)
    ["x"; "y"; "z"] ∧
  analyze demo_users (FOr [FWhere [("x", MValue (VNum 1))]; FWhere [("y", MValue (VNum 2))];
                           FWhere [("z", MValue (VNum 3))]]) = Ok 27021597764222972%Z.
Proof.
  assert (H : Forall (fun p => p ≠ primaryKeyProperty demo_users ∧ index_of demo_users p = None)
               ["x"; "y"; "z"]) by (repeat constructor; discriminate).
  split; [exact H|]. exact (proj1 (proj2 (analyzeOr_exceeds_safe demo_users "x" "y" "z" 1 2 3 H))).
Defined.
