(* ===== verification/Middleware.v ===== *)
(** * The middleware chain: events/Middleware.ts, events/types.ts

    Every public operation runs through [middleware]: the hooks of the
    database, in registration order, then the hooks of the table, each
    called with a context holding the action, the table name, the
    parameters and a continuation [next]; [next(...args)] runs the rest
    of the chain with the parameters replaced by [args], and the end of
    the chain calls the implementation.  A hook may rewrite the
    parameters, call [next] or not, and post-process its result.

    The chain is modelled for a parameter type [P] and a result type [R]
    of one action; [R] is whatever the implementation returns (for the
    table operations, the table reached and the result).  Asynchronous
    hooks are modelled by their eventual result. *)

From S2P Require Import Prelude.
From Stdlib Require Import FunctionalExtensionality.

(** [HookAction] *)
Inductive HookAction : Type :=
| ActClear | ActCount | ActFirst | ActInsert | ActInsertMany | ActMany | ActOne
| ActRemove | ActRemoveMany | ActRemoveWhere | ActUpdate | ActUpdateMany
| ActUpdateWhere | ActUpsert | ActUpsertMany | ActWatch.

#[export] Instance HookAction_eq_dec : EqDecision HookAction.
Proof. solve_decision. Defined.

Section Chain.
Context {P R : Type}.

(** [HookContext]: [{ action, table, params, next }] *)
Record HookContext : Type := mkHookContext {
  action : HookAction;
  ctx_table : string;                (** [table] *)
  params : P;
  next : P -> R
}.

(** [Hook]: a function of the context. *)
Definition Hook : Type := HookContext -> R.

(** [executeHook(hooks, context, impl)] *)
Fixpoint executeHook (hooks : list Hook) (a : HookAction) (tbl : string) (ps : P)
    (impl : P -> R) : R :=
  match hooks with
  | [] => impl ps
  | step :: rest => step (mkHookContext a tbl ps (fun args => executeHook rest a tbl args impl))
  end.

(** The first argument of [middleware]: a list of hooks, or a table whose
    database's hooks and own hooks are run. *)
Inductive HooksOrTable : Type :=
| HooksList (hooks : list Hook)
| FromTable (dbHooks tableHooks : list Hook) (tableName : string).

(** [middleware(hooksOrTable, context, impl)]: for a table, the
    database's hooks then the table's, with the table's name in the
    context; for a list of hooks, the table named by the context. *)
Definition middleware (hooksOrTable : HooksOrTable) (contextTable : string) (a : HookAction)
    (ps : P) (impl : P -> R) : R :=
  let '(hooks, tbl) :=
    match hooksOrTable with
    | HooksList hooks => (hooks, contextTable)
    | FromTable dbHooks tableHooks tableName => (dbHooks ++ tableHooks, tableName)
    end in
  executeHook hooks a tbl ps impl.

(** A hook that calls [next] with the parameters it received and returns
    its result unchanged. *)
Definition passes_through (h : Hook) : Prop := ∀ c, h c = next c (params c).

(** A hook that never calls [next]: its result does not depend on the
    continuation. *)
Definition short_circuits (h : Hook) : Prop :=
  ∀ a tbl ps k k', h (mkHookContext a tbl ps k) = h (mkHookContext a tbl ps k').

(** A hook that calls [next] once, on its parameters transformed by
    [f], and returns the result of [next] transformed by [g]. *)
Definition continues_with (h : Hook) (f : P -> P) (g : R -> R) : Prop :=
  ∀ c, h c = g (next c (f (params c))).

End Chain.

Arguments Hook : clear implicits.
Arguments HookContext : clear implicits.
Arguments HooksOrTable : clear implicits.

(** ** Properties of the chain *)

(** Running a chain of hooks [h1 ++ h2] is running [h1] with, as
    implementation, the chain [h2] ending in the implementation: the
    chain is the right-to-left composition of its hooks. *)
Theorem executeHook_app {P R} (h1 h2 : list (Hook P R)) a tbl ps impl :
  executeHook (h1 ++ h2) a tbl ps impl =
    executeHook h1 a tbl ps (fun ps' => executeHook h2 a tbl ps' impl).
Proof.
  revert ps. induction h1 as [|h h1 IH]; intros ps; simpl; [done|].
  f_equal. f_equal. extensionality args. apply IH.
Qed.

(** A chain of hooks that all pass their parameters through runs the
    implementation on the original parameters. *)
Lemma executeHook_all_passthrough {P R} (hs : list (Hook P R)) a tbl ps impl :
  Forall passes_through hs -> executeHook hs a tbl ps impl = impl ps.
Proof.
  revert ps. induction hs as [|h hs IH]; intros ps Hall; simpl; [done|].
  apply Forall_cons in Hall as [Hh Hall]. rewrite Hh. simpl. by apply IH.
Qed.

(** Registering hooks that pass their parameters through, on the
    database or on the table, does not change what an operation does:
    [middleware] runs the implementation on the original parameters. *)
Theorem middleware_passthrough {P R} (db th : list (Hook P R)) name ctx a ps impl :
  Forall passes_through (db ++ th) -> middleware (FromTable db th name) ctx a ps impl = impl ps.
Proof. intros Hall. by apply executeHook_all_passthrough. Qed.

Lemma middleware_passthrough_witness :
  let h : Hook nat nat := fun c => next c (params c) in
  Forall passes_through ([h] ++ [h]) ∧
  middleware (FromTable [h] [h] "users") "" ActInsert 41 S = S 41.
Proof.
  intros h. assert (Hp : Forall passes_through ([h] ++ [h])) by (repeat constructor).
  split; [exact Hp|]. exact (middleware_passthrough [h] [h] "users" "" ActInsert 41 S Hp).
Defined.

(** A hook that records its number and continues. *)
Definition log_hook {P} (n : nat) : Hook P (list nat) := fun c => n :: next c (params c).

Lemma executeHook_log {P} (ns : list nat) a tbl (ps : P) impl :
  executeHook (log_hook <$> ns) a tbl ps impl = ns ++ impl ps.
Proof.
  induction ns as [|n ns IH]; [done|]. rewrite fmap_cons. cbn [executeHook].
  unfold log_hook at 1. cbn [next params]. by rewrite IH.
Qed.

(** C28. [middleware] runs the hooks of the database in registration
    order, then those of the table, then the implementation: hooks that
    record themselves produce the database's hook numbers followed by the
    table's. *)
Theorem middleware_order {P} (dbns tns : list nat) name ctx a (ps : P) (impl : P -> list nat) :
  middleware (FromTable (log_hook <$> dbns) (log_hook <$> tns) name) ctx a ps impl =
    dbns ++ tns ++ impl ps.
Proof.
  unfold middleware. by rewrite executeHook_app, !executeHook_log.
Qed.

(** A hook that does not call [next] decides the result alone: the
    hooks after it and the implementation are never run. *)
Theorem executeHook_short_circuit {P R} (h : Hook P R) hs hs' a tbl ps impl impl' :
  short_circuits h ->
  executeHook (h :: hs) a tbl ps impl = executeHook (h :: hs') a tbl ps impl'.
Proof. intros Hs. simpl. apply Hs. Qed.

(** A chain of hooks each of which calls [next] once, on its parameters
    transformed, and returns its result unchanged runs the implementation
    on the parameters as the hooks transformed them. *)
Lemma executeHook_continues_id {P R} (hs : list (Hook P R)) (fs : list (P -> P)) a tbl ps impl :
  Forall2 (fun h f => continues_with h f id) hs fs ->
  executeHook hs a tbl ps impl = impl (foldl (fun p f => f p) ps fs).
Proof.
  intros Hc. revert ps. induction Hc as [|h f hs fs Hh _ IH]; intros ps; [done|].
  simpl. rewrite Hh. simpl. by rewrite IH.
Qed.

(** A hook that answers without calling [next], after hooks that each
    call [next] once and return its result, decides the result of the
    chain: the hooks after it and the implementation are not run. *)
Lemma executeHook_stops_at {P R} (hs1 : list (Hook P R)) fs h hs2 a tbl ps impl r :
  Forall2 (fun h f => continues_with h f id) hs1 fs -> (∀ c, h c = r) ->
  executeHook (hs1 ++ h :: hs2) a tbl ps impl = r.
Proof.
  intros Hc Hh. rewrite executeHook_app, (executeHook_continues_id _ fs) by done.
  simpl. apply Hh.
Qed.

(** C35. A chain of hooks each of which calls [next] once reaches the
    implementation: it runs exactly once, on the parameters as the hooks
    transformed them in registration order, and its result comes back
    through the hooks in the reverse order. *)
Theorem executeHook_reaches_impl {P R} (hs : list (Hook P R)) (fgs : list ((P -> P) * (R -> R)))
    a tbl ps impl :
  Forall2 (fun h fg => continues_with h fg.1 fg.2) hs fgs ->
  executeHook hs a tbl ps impl =
    foldr (fun fg r => fg.2 r) (impl (foldl (fun p fg => fg.1 p) ps fgs)) fgs.
Proof.
  intros Hc. revert ps. induction Hc as [|h fg hs fgs Hh _ IH]; intros ps; [done|].
  simpl. rewrite Hh. simpl. by rewrite IH.
Qed.

Lemma executeHook_reaches_impl_witness :
  let h1 : Hook nat nat := fun c => next c (params c + 1) in
  let h2 : Hook nat nat := fun c => 2 * next c (params c) in
  Forall2 (fun h fg => continues_with h fg.1 fg.2) [h1; h2]
    [(fun p => p + 1, id); (id, fun r => 2 * r)] ∧
  executeHook [h1; h2] ActInsert "users" 1 S = 6.
Proof.
  intros h1 h2.
  assert (Hc : Forall2 (fun h fg => continues_with h fg.1 fg.2) [h1; h2]
                 [(fun p => p + 1, id); (id, fun r => 2 * r)])
    by (repeat constructor).
  split; [exact Hc|]. rewrite (executeHook_reaches_impl _ _ ActInsert "users" 1 S Hc). reflexivity.
Defined.

Lemma executeHook_short_circuit_witness :
  let h : Hook nat nat := fun c => 0 in
  short_circuits h ∧
  executeHook [h] ActRemove "users" 5 S = executeHook [h; h] ActRemove "users" 5 (fun _ => 9).
Proof.
  intros h. assert (Hs : short_circuits h) by (intros ? ? ? ? ?; reflexivity).
  split; [exact Hs|]. exact (executeHook_short_circuit h [] [h] ActRemove "users" 5 S _ Hs).
Defined.
