(* ===== verification/Mutations.v ===== *)
(** * Inserting, removing and upserting entities

    insert.ts, remove.ts and upsert.ts are thin wrappers: [internalInsert]
    calls [internalInsertMany] on [[entity]] and returns [ids[0]],
    [internalRemove] calls [internalRemoveMany] on [[entity]], and
    [internalUpsert] calls [internalUpsertMany] on [[entity]] and returns
    [ids[0]].  The batch operations they call (insertMany.ts,
    removeMany.ts, upsertMany.ts) are not under src/ and are modelled from
    the spec (4.6):

    - insert: an entity whose primary key is [undefined] or [null] is
      rejected, one whose key is stored already is rejected with
      [PrimaryKeyAlreadyInUseError]; otherwise the entity becomes a new
      object, is set in the primary index and pushed into the bucket of
      its value in every secondary index; one [onInsert] event is
      dispatched for the batch after the loop;
    - remove: an entity whose key is not stored is skipped (the batch
      answers [false]); otherwise the stored object is deleted from the
      primary index and spliced out of the bucket of its value in every
      secondary index (a missing bucket is a no-op); one [onRemove] event
      after the loop;
    - upsert: an entity whose key is stored is the update of that entity
      with the entity as diff ([internalUpdateMany]), any other is an
      insert ([internalInsertMany]).

    A batch that throws keeps the entities processed before the throw
    and dispatches no event, as [internalUpdateMany] does.  [clone] of
    the inserted entity is not modelled: the heap holds values, so the
    caller's object is never shared with the table. *)

From S2P Require Import Prelude Values OrderedIndex Matchers Table Update Select.

(** ** Insert *)

(** A new object [e] at the next location, set in the primary index under
    [pk]. *)
Definition alloc (t : table) (pk : value) (e : entity) : table :=
  mkTable (tableName t) (primaryKeyProperty t) (cloneOption t) (<[next_loc t := e]> (heap t))
    (S (next_loc t)) (BTree.set (primary t) pk (next_loc t)) (indexes t) (events t).

(** One iteration of the loop of [internalInsertMany]: the primary key
    and the new object. *)
Definition insertOne (e : entity) : tstm (value * loc) :=
  fun t =>
  let pk := get_field e (primaryKeyProperty t) in
  if decide (pk = VUndefined ∨ pk = VNull) then (t, Err (InvalidPrimaryKeyError pk)) else
  if BTree.has (primary t) pk then (t, Err (PrimaryKeyAlreadyInUseError pk)) else
  let l := next_loc t in
  (with_indexes (alloc t pk e) ((fun pb => (pb.1, push_bucket pb.2 (get_field e pb.1) l)) <$> indexes t),
   Ok (pk, l)).

Fixpoint insertAll (es : list entity) : tstm (list value * list loc) :=
  match es with
  | [] => sret ([], [])
  | e :: es' =>
      r <~ insertOne e ;;
      rs <~ insertAll es' ;;
      sret (r.1 :: rs.1, r.2 :: rs.2)
  end.

(** [internalInsertMany(table, entities)]: the primary keys, in order. *)
Definition internalInsertMany (es : list entity) : tstm (list value) :=
  r <~ insertAll es ;;
  _ <~ smodify (fun t => dispatch t (OnInsert r.2)) ;;
  sret r.1.

(** [ids[0]] of the batch operation run on [[entity]]. *)
Definition first_id (c : tstm (list value)) : tstm value :=
  ids <~ c ;; sret (default VUndefined (head ids)).

(** [internalInsert(table, entity)]: [ids[0]]. *)
Definition internalInsert (e : entity) : tstm value := first_id (internalInsertMany [e]).

(** ** Lemmas on insert *)

Lemma live_alloc t pk e l :
  BTree.wf (primary t) -> BTree.get (primary t) pk = None ->
  live (alloc t pk e) l <-> live t l ∨ l = next_loc t.
Proof.
  intros Hs Hg. rewrite !live_elem_of. simpl. split.
  - intros [k Hin]. apply BTree.elem_of_set in Hin; [|done].
    destruct Hin as [[= -> ->]|[Hin _]]; eauto.
  - intros [[k Hin]| ->].
    + exists k. apply BTree.elem_of_set; [done|]. right. split; [done|].
      intros ->. apply BTree.get_elem_of in Hin; [congruence|done].
    + exists pk. apply BTree.elem_of_set; auto.
Qed.

Lemma field_at_alloc_new t pk e p : field_at (alloc t pk e) (next_loc t) p = get_field e p.
Proof. unfold field_at, entity_at. simpl. by rewrite lookup_insert_eq. Qed.

Lemma field_at_alloc_old t pk e l p :
  table_wf t -> live t l -> field_at (alloc t pk e) l p = field_at t l p.
Proof.
  intros Hwf Hl. unfold field_at, entity_at. simpl.
  rewrite lookup_insert_ne; [done|]. pose proof (wf_fresh t Hwf l Hl). lia.
Qed.

Lemma fmap_fst_map_snd {A B C} (g : A -> B -> C) (L : list (A * B)) :
  ((fun ab => (ab.1, g ab.1 ab.2)) <$> L).*1 = L.*1.
Proof. induction L as [|[a b] L IH]; simpl; [done|]. f_equal. exact IH. Qed.

Lemma elem_of_map_snd {A B C} (g : A -> B -> C) (L : list (A * B)) a c :
  (a, c) ∈ (fun ab => (ab.1, g ab.1 ab.2)) <$> L -> ∃ b, (a, b) ∈ L ∧ c = g a b.
Proof. intros ([a' b] & [= -> ->] & Hin)%list_elem_of_fmap. eauto. Qed.

(** A secondary index stays consistent when a new object is pushed into
    the bucket of its value. *)
Lemma index_ok_insert t pk e p bt :
  table_wf t -> BTree.get (primary t) pk = None ->
  index_ok (live t) (fun l => field_at t l p) bt ->
  index_ok (live (alloc t pk e)) (fun l => field_at (alloc t pk e) l p)
    (push_bucket bt (get_field e p) (next_loc t)).
Proof.
  intros Hwf Hg Hix. rewrite push_bucket_eq, <- (field_at_alloc_new t pk e p).
  set (f := fun l => field_at (alloc t pk e) l p).
  apply (index_ok_ext (fun l => live t l ∨ l = next_loc t) _ f f); [|done|].
  - intros l. symmetry. apply live_alloc; [apply (wf_primary t Hwf)|done].
  - apply (index_ok_add (live t) f).
    + eapply index_ok_ext; [done| |exact Hix]. intros l Hl. unfold f. by rewrite field_at_alloc_old.
    + intros Hl. pose proof (wf_fresh t Hwf _ Hl). lia.
Qed.

Lemma has_false_get t pk : BTree.has (primary t) pk = false -> BTree.get (primary t) pk = None.
Proof.
  unfold BTree.has. intros H%bool_decide_eq_false_1.
  destruct (BTree.get _ _); [exfalso; apply H; by eexists|done].
Qed.

(** A new object keeps the invariant: it enters the primary index under
    its own key and every secondary index in the bucket of its value. *)
Lemma table_wf_insert t e :
  table_wf t -> valid_pk (get_field e (primaryKeyProperty t)) ->
  BTree.get (primary t) (get_field e (primaryKeyProperty t)) = None ->
  let pk := get_field e (primaryKeyProperty t) in
  table_wf (with_indexes (alloc t pk e)
    ((fun pb => (pb.1, push_bucket pb.2 (get_field e pb.1) (next_loc t))) <$> indexes t)).
Proof.
  intros Hwf Hpk Hg pk. pose proof (wf_primary t Hwf) as Hs.
  assert (Hfresh : next_loc t ∉ (primary t).*2).
  { intros Hl. pose proof (wf_fresh t Hwf _ Hl). lia. }
  constructor; cbn [alloc with_indexes primary indexes heap next_loc primaryKeyProperty].
  - eauto with blink.
  - intros k l Hin. apply BTree.elem_of_set in Hin; [|done].
    destruct Hin as [[= -> ->]|[Hin _]].
    + split; [by rewrite lookup_insert_eq|]. split; [apply field_at_alloc_new|done].
    + assert (Hl : live t l) by (apply live_elem_of; eauto).
      destruct (wf_primary_key t Hwf k l Hin) as ([e' He'] & Hk & Hv).
      split; [rewrite lookup_insert_ne; [by eexists|]; pose proof (wf_fresh t Hwf l Hl); lia|].
      split; [|done]. change (field_at (alloc t pk e) l (primaryKeyProperty t) = k).
      by rewrite field_at_alloc_old.
  - rewrite (BTree.set_new_perm (primary t) pk (next_loc t) Hg). simpl. constructor; [done|apply (wf_primary_inj t Hwf)].
  - intros l Hl. apply (live_alloc t pk e l Hs Hg) in Hl as [Hl| ->]; [|lia].
    pose proof (wf_fresh t Hwf l Hl). lia.
  - rewrite (fmap_fst_map_snd (fun p b => push_bucket b (get_field e p) (next_loc t))).
    apply (wf_index_names t Hwf).
  - intros p bt' Hin.
    apply (elem_of_map_snd (fun p b => push_bucket b (get_field e p) (next_loc t))) in Hin
      as (bt & Hin & ->).
    apply (index_ok_insert t pk e p bt Hwf Hg), (wf_index t Hwf p bt Hin).
Qed.

Lemma view_insert t e k :
  table_wf t -> BTree.get (primary t) (get_field e (primaryKeyProperty t)) = None ->
  let pk := get_field e (primaryKeyProperty t) in
  view (with_indexes (alloc t pk e)
          ((fun pb => (pb.1, push_bucket pb.2 (get_field e pb.1) (next_loc t))) <$> indexes t)) k =
    if decide (k = pk) then Some e else view t k.
Proof.
  intros Hwf Hg pk. pose proof (wf_primary t Hwf) as Hs. unfold view. simpl. case_decide as Hk.
  - subst. rewrite BTree.get_set_same by done. simpl. by rewrite lookup_insert_eq.
  - rewrite BTree.get_set_other by done.
    destruct (BTree.get (primary t) k) as [l|] eqn:Hl; simpl; [|done].
    rewrite lookup_insert_ne; [done|]. pose proof (wf_fresh t Hwf l (primary_get_live t k l Hwf Hl)). lia.
Qed.

(** The three outcomes of one insert: an invalid key, a key in use, or a
    new object that keeps the invariant and is the one entity the view
    gains. *)
Lemma insertOne_cases t e :
  table_wf t ->
  let pk := get_field e (primaryKeyProperty t) in
  (¬ valid_pk pk ∧ insertOne e t = (t, Err (InvalidPrimaryKeyError pk))) ∨
  (valid_pk pk ∧ is_Some (BTree.get (primary t) pk) ∧
     insertOne e t = (t, Err (PrimaryKeyAlreadyInUseError pk))) ∨
  (valid_pk pk ∧ BTree.get (primary t) pk = None ∧
     ∃ t', insertOne e t = (t', Ok (pk, next_loc t)) ∧ table_wf t' ∧ events t' = events t ∧
       primaryKeyProperty t' = primaryKeyProperty t ∧ next_loc t' = S (next_loc t) ∧
       entity_at t' (next_loc t) = e ∧ BTree.get (primary t') pk = Some (next_loc t) ∧
       ∀ k, view t' k = if decide (k = pk) then Some e else view t k).
Proof.
  intros Hwf pk. unfold insertOne. fold pk.
  destruct (decide (valid_pk pk)) as [Hpk|Hpk].
  2: { left. split; [done|]. by rewrite decide_invalid_pk. }
  rewrite decide_valid_pk by done. right.
  destruct (BTree.has (primary t) pk) eqn:Hh.
  - left. split_and!; [done| |done]. unfold BTree.has in Hh. by eapply bool_decide_eq_true_1.
  - right. apply has_false_get in Hh. split_and!; [done|done|].
    eexists. split; [reflexivity|]. split_and!; [by apply table_wf_insert|done|done|done| | |].
    + unfold entity_at. simpl. by rewrite lookup_insert_eq.
    + simpl. apply BTree.get_set_same, (wf_primary t Hwf).
    + intros k. by apply view_insert.
Qed.

(** ** The abstract specification of inserts

    Seen as a map from primary key to entity: an insert requires a valid
    primary key that is not stored and adds the entity under it; a batch
    inserts in order and stops at the first error, keeping the earlier
    entities. *)

Definition abs_insert (pkProp : string) (e : entity) : stm abs_table error value :=
  fun m =>
  let pk := get_field e pkProp in
  if decide (pk = VUndefined ∨ pk = VNull) then (m, Err (InvalidPrimaryKeyError pk)) else
  match m pk with
  | Some _ => (m, Err (PrimaryKeyAlreadyInUseError pk))
  | None => (fun k => if decide (k = pk) then Some e else m k, Ok pk)
  end.

Fixpoint abs_insertMany (pkProp : string) (es : list entity) : stm abs_table error (list value) :=
  match es with
  | [] => sret []
  | e :: es' => pk <~ abs_insert pkProp e ;; pks <~ abs_insertMany pkProp es' ;; sret (pk :: pks)
  end.

Lemma view_Some t k : table_wf t -> is_Some (BTree.get (primary t) k) -> is_Some (view t k).
Proof.
  intros Hwf [l Hg]. unfold view. rewrite Hg. simpl. rewrite (heap_entity_at t k l Hwf Hg). by eexists.
Qed.

(** The insert loop keeps the invariant, dispatches nothing, answers the
    keys the abstract batch answers and reaches the same map. *)
Lemma insertAll_spec es t m :
  table_wf t -> (∀ k, view t k = m k) ->
  table_wf (insertAll es t).1 ∧ events (insertAll es t).1 = events t ∧
  primaryKeyProperty (insertAll es t).1 = primaryKeyProperty t ∧
  (match (insertAll es t).2 with Ok r => Ok r.1 | Err e => Err e end)
    = (abs_insertMany (primaryKeyProperty t) es m).2 ∧
  ∀ k, view (insertAll es t).1 k = (abs_insertMany (primaryKeyProperty t) es m).1 k.
Proof.
  revert t m. induction es as [|e es IH]; intros t m Hwf Hv; simpl; [done|].
  unfold sbind, abs_insert.
  destruct (insertOne_cases t e Hwf) as [[Hpk Heq]|[[Hpk [Hg Heq]]|[Hpk (Hg & t1 & Heq & Hwf1 & Hev1 & Hpk1 & _ & _ & _ & Hv1)]]];
    rewrite Heq; simpl.
  - by rewrite !(decide_invalid_pk _ _ _ Hpk).
  - rewrite !(decide_valid_pk _ _ _ Hpk).
    destruct (view_Some t _ Hwf Hg) as [x Hx]. rewrite Hv in Hx. by rewrite Hx.
  - rewrite !(decide_valid_pk _ _ _ Hpk).
    assert (Hm : m (get_field e (primaryKeyProperty t)) = None).
    { rewrite <- Hv. unfold view. by rewrite Hg. }
    rewrite Hm.
    destruct (IH t1 (fun k => if decide (k = get_field e (primaryKeyProperty t)) then Some e else m k)
                Hwf1) as (Hwf2 & Hev2 & Hpk2 & Hr & Hview).
    { intros k. rewrite Hv1. by case_decide. }
    rewrite Hpk1 in Hpk2, Hr, Hview.
    destruct (insertAll es t1) as [t2 [rs|err]]; destruct (abs_insertMany _ es _) as [m2 [rs'|err']];
      simpl in *; split_and!; try done; try congruence.
Qed.

(** ** Looking an entity up by its primary key *)

(** The stored entities whose primary-key property is [k] are the one
    the primary index holds under [k]. *)
Lemma live_pk_iff t k l :
  table_wf t -> live t l ∧ field_at t l (primaryKeyProperty t) = k <-> BTree.get (primary t) k = Some l.
Proof.
  intros Hwf. pose proof (wf_primary t Hwf) as Hs. split.
  - intros [[k' Hin]%live_elem_of Hk]. destruct (wf_primary_key t Hwf k' l Hin) as (_ & Hk' & _).
    apply BTree.get_elem_of; [done|]. congruence.
  - intros Hg. split; [by eapply primary_get_live|].
    apply BTree.get_elem_of in Hg; [|done]. apply (wf_primary_key t Hwf k l Hg).
Qed.

(** [{[p]: v}] with [v] other than [null] is strict equality of
    property [p]. *)
Lemma matchesWhere_eq e p v :
  v ≠ VNull -> matchesWhere e [(p, MValue v)] = Ok true <-> get_field e p = v.
Proof.
  intros Hn. destruct v; try congruence; simpl; unfold strict_eq;
    case_bool_decide; simpl; split; congruence.
Qed.

Lemma NoDup_singleton_iff {A} (xs : list A) x : NoDup xs -> (∀ y, y ∈ xs <-> y = x) -> xs = [x].
Proof.
  intros Hnd Hin. destruct xs as [|y ys]; [exfalso; apply (not_elem_of_nil x), Hin; done|].
  assert (y = x) as -> by (apply Hin; set_solver). apply NoDup_cons in Hnd as [Hx _].
  destruct ys as [|z ys]; [done|]. exfalso. apply Hx. rewrite (proj1 (Hin z)) by set_solver. set_solver.
Qed.

(** [many] with the where-object [{[primaryKeyProperty]: k}] returns the
    entity stored under [k], and nothing else. *)
Lemma many_pk t k l :
  table_wf t -> valid_pk k -> BTree.get (primary t) k = Some l ->
  many t (Some (mkFilter (Some [(primaryKeyProperty t, MValue k)]))) = Ok [l].
Proof.
  intros Hwf Hk Hg.
  destruct (many_where_spec t [(primaryKeyProperty t, MValue k)] Hwf) as (items & Hm & Hnd & Hin);
    [destruct Hk as [Hu Hn]; destruct k; simpl; congruence|done|].
  rewrite Hm. f_equal. apply NoDup_singleton_iff; [done|]. intros l'. rewrite Hin, matchesWhere_eq by (apply Hk).
  change (get_field (entity_at t l') _) with (field_at t l' (primaryKeyProperty t)).
  rewrite live_pk_iff by done. split; [congruence|by intros ->].
Qed.

(** A batch operation on one entity, seen through [first_id]: the
    invariant and the agreement with an abstract operation carry over. *)
Lemma first_id_spec (c : tstm (list value)) (a : stm abs_table error value) t m :
  table_wf (c t).1 -> primaryKeyProperty (c t).1 = primaryKeyProperty t ->
  (c t).2 = ((ids <~ a ;; sret [ids]) m).2 ->
  (∀ k, view (c t).1 k = ((ids <~ a ;; sret [ids]) m).1 k) ->
  table_wf (first_id c t).1 ∧ primaryKeyProperty (first_id c t).1 = primaryKeyProperty t ∧
  (first_id c t).2 = (a m).2 ∧ ∀ k, view (first_id c t).1 k = (a m).1 k.
Proof.
  unfold first_id, sbind, sret. destruct (c t) as [t1 r1], (a m) as [m1 [x|err]]; simpl.
  all: intros Hwf Hpk -> Hv; done.
Qed.

Lemma internalInsertMany_spec es t m :
  table_wf t -> (∀ k, view t k = m k) ->
  table_wf (internalInsertMany es t).1 ∧
  primaryKeyProperty (internalInsertMany es t).1 = primaryKeyProperty t ∧
  (internalInsertMany es t).2 = (abs_insertMany (primaryKeyProperty t) es m).2 ∧
  ∀ k, view (internalInsertMany es t).1 k = (abs_insertMany (primaryKeyProperty t) es m).1 k.
Proof.
  intros Hwf Hv. unfold internalInsertMany, sbind, smodify, sret.
  destruct (insertAll_spec es t m Hwf Hv) as (Hwf' & _ & Hpk & Hr & Hview).
  destruct (insertAll es t) as [t' [r|err]]; simpl in *; split_and!; try done.
  by apply table_wf_dispatch.
Qed.

Lemma internalInsert_spec t e m :
  table_wf t -> (∀ k, view t k = m k) ->
  table_wf (internalInsert e t).1 ∧ primaryKeyProperty (internalInsert e t).1 = primaryKeyProperty t ∧
  (internalInsert e t).2 = (abs_insert (primaryKeyProperty t) e m).2 ∧
  ∀ k, view (internalInsert e t).1 k = (abs_insert (primaryKeyProperty t) e m).1 k.
Proof.
  intros Hwf Hv. destruct (internalInsertMany_spec [e] t m Hwf Hv) as (Hwf1 & Hpk1 & Hr & Hview).
  apply first_id_spec; [done|done| |]; simpl in Hr, Hview; unfold sbind, sret in *;
    destruct (abs_insert _ e m) as [m1 [x1|err]]; simpl in *; done.
Qed.

(** ** Properties of inserts *)

(** C5. [internalInsertMany] keeps the index invariant: after a batch
    of inserts, including one that throws midway, every stored entity is
    in the primary index under its own key and exactly once in the bucket
    of its value in every secondary index. *)
Theorem internalInsertMany_preserves_wf t es :
  table_wf t -> table_wf (internalInsertMany es t).1.
Proof.
  intros Hwf. unfold internalInsertMany, sbind, smodify, sret.
  destruct (insertAll_spec es t (view t) Hwf (fun _ => eq_refl)) as (Hwf' & _).
  destruct (insertAll es t) as [t' [r|err]]; simpl in *; [|done]. by apply table_wf_dispatch.
Qed.

Lemma internalInsertMany_preserves_wf_witness :
  let dave : entity := [("id", VNum 4); ("name", VStr "Dave"); ("age", VNum 23)] in
  table_wf demo_users ∧ table_wf (internalInsertMany [dave; alice] demo_users).1.
Proof.
  intros dave. assert (Hwf : table_wf demo_users) by table_wf_by_eval.
  split; [exact Hwf|]. exact (internalInsertMany_preserves_wf demo_users [dave; alice] Hwf).
Defined.

(** C6. Batch inserts refine the abstract map insert: seen as a map
    from primary key to entity, [internalInsertMany] answers the keys (or
    the first error) the abstract batch answers and reaches the same map,
    the entities before an error included. *)
Theorem internalInsertMany_refines t es e m :
  table_wf t -> (∀ k, view t k = m k) ->
  ((internalInsertMany es t).2 = (abs_insertMany (primaryKeyProperty t) es m).2 ∧
   ∀ k, view (internalInsertMany es t).1 k = (abs_insertMany (primaryKeyProperty t) es m).1 k) ∧
  ((internalInsert e t).2 = (abs_insert (primaryKeyProperty t) e m).2 ∧
   ∀ k, view (internalInsert e t).1 k = (abs_insert (primaryKeyProperty t) e m).1 k).
Proof.
  intros Hwf Hv. split.
  - destruct (internalInsertMany_spec es t m Hwf Hv) as (_ & _ & ? & ?). by split.
  - destruct (internalInsert_spec t e m Hwf Hv) as (_ & _ & ? & ?). by split.
Qed.

Lemma internalInsertMany_refines_witness :
  let dave : entity := [("id", VNum 4); ("name", VStr "Dave"); ("age", VNum 23)] in
  table_wf demo_users ∧ (∀ k, view demo_users k = view demo_users k) ∧
  (internalInsertMany [dave; alice] demo_users).2 = Err (PrimaryKeyAlreadyInUseError (VNum 1)) ∧
  (internalInsertMany [dave; alice] demo_users).2 =
    (abs_insertMany "id" [dave; alice] (view demo_users)).2 ∧
  (internalInsert dave demo_users).2 = (abs_insert "id" dave (view demo_users)).2.
Proof.
  intros dave. assert (Hwf : table_wf demo_users) by table_wf_by_eval.
  pose proof (internalInsertMany_refines demo_users [dave; alice] dave (view demo_users) Hwf (fun k => eq_refl))
    as [[H1 _] [H2 _]].
  split_and!; [exact Hwf|done|vm_compute; reflexivity|exact H1|exact H2].
Defined.

(** C13. Round trip (spec, section 7): inserting an entity with a valid,
    unused primary key answers that key, and [many] with the where-object
    [{[primaryKeyProperty]: key}] then returns exactly the new object,
    which holds the inserted entity. *)
Theorem insert_many_roundtrip t e :
  table_wf t -> valid_pk (get_field e (primaryKeyProperty t)) ->
  BTree.get (primary t) (get_field e (primaryKeyProperty t)) = None ->
  ∃ t', internalInsert e t = (t', Ok (get_field e (primaryKeyProperty t))) ∧
    many t' (Some (mkFilter (Some [(primaryKeyProperty t, MValue (get_field e (primaryKeyProperty t)))])))
      = Ok [next_loc t] ∧
    entity_at t' (next_loc t) = e.
Proof.
  intros Hwf Hpk Hg.
  destruct (insertOne_cases t e Hwf) as [[Hn _]|[[_ [Hs _]]|[_ (_ & t1 & Heq & Hwf1 & _ & Hpk1 & _ & He & Hg1 & _)]]];
    [done|by rewrite Hg in Hs; destruct Hs|].
  unfold internalInsert, first_id, internalInsertMany, sbind, smodify, sret. simpl. unfold sbind. rewrite Heq.
  simpl. eexists. split; [reflexivity|]. split; [|done].
  rewrite <- Hpk1. apply (many_pk (dispatch t1 (OnInsert [next_loc t]))); [by apply table_wf_dispatch| |rewrite Hpk1; exact Hg1].
  by rewrite Hpk1.
Qed.

Lemma insert_many_roundtrip_witness :
  let dave : entity := [("id", VNum 4); ("name", VStr "Dave"); ("age", VNum 23)] in
  table_wf demo_users ∧ valid_pk (get_field dave "id") ∧ BTree.get (primary demo_users) (VNum 4) = None ∧
  ∃ t', internalInsert dave demo_users = (t', Ok (VNum 4)) ∧
    many t' (Some (mkFilter (Some [("id", MValue (VNum 4))]))) = Ok [3] ∧ entity_at t' 3 = dave.
Proof.
  intros dave. assert (Hwf : table_wf demo_users) by table_wf_by_eval.
  assert (Hpk : valid_pk (get_field dave "id")) by (split; discriminate).
  split_and!; [exact Hwf|exact Hpk|reflexivity|].
  exact (insert_many_roundtrip demo_users dave Hwf Hpk eq_refl).
Defined.

(** C22. An insert whose primary key is [undefined] or [null] throws
    [InvalidPrimaryKeyError], and one whose key is stored already throws
    [PrimaryKeyAlreadyInUseError]; in both cases the table is left as it
    was and no event is dispatched. *)
Theorem internalInsert_errors t e :
  table_wf t ->
  let pk := get_field e (primaryKeyProperty t) in
  (¬ valid_pk pk -> internalInsert e t = (t, Err (InvalidPrimaryKeyError pk))) ∧
  (is_Some (BTree.get (primary t) pk) -> internalInsert e t = (t, Err (PrimaryKeyAlreadyInUseError pk))).
Proof.
  intros Hwf pk. unfold internalInsert, first_id, internalInsertMany, sbind, smodify, sret. simpl. unfold sbind.
  assert (Hvalid : is_Some (BTree.get (primary t) pk) -> valid_pk pk).
  { intros [l Hl]. apply BTree.get_elem_of in Hl; [|apply (wf_primary t Hwf)].
    apply (wf_primary_key t Hwf _ _ Hl). }
  destruct (insertOne_cases t e Hwf) as [[Hpk Heq]|[[Hpk [Hs Heq]]|[Hpk (Hg & _)]]];
    rewrite ?Heq; simpl; split; try done.
  - intros Hs. by destruct Hpk; apply Hvalid.
  - fold pk in Hg. rewrite Hg. by intros [].
Qed.

Lemma internalInsert_errors_witness :
  table_wf demo_users ∧
  internalInsert [("id", VNull)] demo_users = (demo_users, Err (InvalidPrimaryKeyError VNull)) ∧
  internalInsert bob demo_users = (demo_users, Err (PrimaryKeyAlreadyInUseError (VNum 2))).
Proof.
  assert (Hwf : table_wf demo_users) by table_wf_by_eval.
  split_and!; [exact Hwf| |].
  - apply (proj1 (internalInsert_errors demo_users [("id", VNull)] Hwf)). intros [_ H]. by apply H.
  - apply (proj2 (internalInsert_errors demo_users bob Hwf)). by eexists.
Defined.

(** ** Remove *)

(** [btree.get(k)] and the splice of [l] out of that bucket by identity;
    a missing bucket is left alone. *)
Definition delete_from_bucket (bt : bucket_tree) (k : value) (l : loc) : bucket_tree :=
  match BTree.get bt k with
  | Some items => BTree.set bt k (removeFromBucket items l)
  | None => bt
  end.

(** One iteration of the loop of [internalRemoveMany]: the removed
    object, [None] when the key is not stored. *)
Definition removeOne (e : object) : tstm (option loc) :=
  fun t =>
  let pk := get_field e (primaryKeyProperty t) in
  match BTree.get (primary t) pk with
  | None => (t, Ok None)
  | Some l =>
      (mkTable (tableName t) (primaryKeyProperty t) (cloneOption t) (heap t) (next_loc t)
         (BTree.delete (primary t) pk)
         ((fun pb => (pb.1, delete_from_bucket pb.2 (field_at t l pb.1) l)) <$> indexes t)
         (events t),
       Ok (Some l))
  end.

Fixpoint removeAll (es : list object) : tstm (list (option loc)) :=
  match es with
  | [] => sret []
  | e :: es' => r <~ removeOne e ;; rs <~ removeAll es' ;; sret (r :: rs)
  end.

(** [internalRemoveMany(table, entities)]: one [onRemove] event with the
    removed objects; [true] when every entity was found and removed. *)
Definition internalRemoveMany (es : list object) : tstm bool :=
  r <~ removeAll es ;;
  _ <~ smodify (fun t => dispatch t (OnRemove (omap id r))) ;;
  sret (forallb (fun o => bool_decide (is_Some o)) r).

(** [internalRemove(table, entity)] *)
Definition internalRemove (e : object) : tstm bool := internalRemoveMany [e].

(** ** Lemmas on remove *)

Lemma live_delete t pk l l' :
  BTree.wf (primary t) -> NoDup (primary t).*2 -> BTree.get (primary t) pk = Some l ->
  l' ∈ (BTree.delete (primary t) pk).*2 <-> live t l' ∧ l' ≠ l.
Proof.
  intros Hs Hnd Hg. pose proof (BTree.delete_perm _ _ _ Hg) as Hp.
  assert (Hp2 : l :: (BTree.delete (primary t) pk).*2 ≡ₚ (primary t).*2)
    by (change (((pk, l) :: BTree.delete (primary t) pk).*2 ≡ₚ (primary t).*2); by rewrite Hp).
  unfold live. rewrite <- Hp2 in Hnd |- *. apply NoDup_cons in Hnd as [Hl Hnd].
  rewrite elem_of_cons. split; [intros Hin; split; [by right|intros ->; done]|].
  intros [[->|Hin] Hne]; done.
Qed.

(** Removing a stored object keeps the invariant: it leaves the primary
    index and the one bucket it occupied in every secondary index. *)
Lemma table_wf_remove t pk l :
  table_wf t -> BTree.get (primary t) pk = Some l ->
  table_wf (mkTable (tableName t) (primaryKeyProperty t) (cloneOption t) (heap t) (next_loc t)
              (BTree.delete (primary t) pk)
              ((fun pb => (pb.1, delete_from_bucket pb.2 (field_at t l pb.1) l)) <$> indexes t)
              (events t)).
Proof.
  intros Hwf Hg. pose proof (wf_primary t Hwf) as Hs. pose proof (wf_primary_inj t Hwf) as Hnd.
  assert (Hl : live t l) by (by eapply primary_get_live).
  constructor; cbn [primary indexes heap next_loc primaryKeyProperty].
  - eauto with blink.
  - intros k l' Hin. apply BTree.elem_of_delete in Hin as [Hin _]; [|done].
    apply (wf_primary_key t Hwf k l' Hin).
  - pose proof (BTree.delete_perm _ _ _ Hg) as Hp.
    assert (Hp2 : l :: (BTree.delete (primary t) pk).*2 ≡ₚ (primary t).*2)
      by (change (((pk, l) :: BTree.delete (primary t) pk).*2 ≡ₚ (primary t).*2); by rewrite Hp).
    rewrite <- Hp2 in Hnd. by apply NoDup_cons in Hnd as [_ ?].
  - intros l' Hin. apply (live_delete t pk l l' Hs Hnd Hg) in Hin as [Hin _]. by apply (wf_fresh t Hwf).
  - rewrite (fmap_fst_map_snd (fun p b => delete_from_bucket b (field_at t l p) l)).
    apply (wf_index_names t Hwf).
  - intros p bt' Hin.
    apply (elem_of_map_snd (fun p b => delete_from_bucket b (field_at t l p) l)) in Hin
      as (bt & Hin & ->).
    pose proof (wf_index t Hwf p bt Hin) as Hix.
    assert (Hdel : delete_from_bucket bt (field_at t l p) l =
                   BTree.set bt (field_at t l p) (remove_first l (bucket bt (field_at t l p)))).
    { destruct Hix as (_ & Hb & _). destruct (Hb l Hl) as [b Hb'].
      unfold delete_from_bucket, bucket. rewrite Hb'. simpl. by rewrite removeFromBucket_eq. }
    rewrite Hdel.
    eapply index_ok_ext; [|done|apply (index_ok_remove (live t) (fun l => field_at t l p) bt l Hix Hl)].
    intros l'. symmetry. apply (live_delete t pk l l' Hs Hnd Hg).
Qed.

Lemma view_remove t pk l k :
  table_wf t -> BTree.get (primary t) pk = Some l ->
  view (mkTable (tableName t) (primaryKeyProperty t) (cloneOption t) (heap t) (next_loc t)
          (BTree.delete (primary t) pk)
          ((fun pb => (pb.1, delete_from_bucket pb.2 (field_at t l pb.1) l)) <$> indexes t)
          (events t)) k = if decide (k = pk) then None else view t k.
Proof.
  intros Hwf Hg. pose proof (wf_primary t Hwf) as Hs. unfold view. simpl. case_decide as Hk.
  - subst. by rewrite BTree.get_delete_same.
  - by rewrite BTree.get_delete_other.
Qed.

(** The two outcomes of one removal: a key that is not stored leaves
    the table alone; a stored one leaves the primary index and the view. *)
Lemma removeOne_cases t e :
  table_wf t ->
  let pk := get_field e (primaryKeyProperty t) in
  (BTree.get (primary t) pk = None ∧ removeOne e t = (t, Ok None)) ∨
  (∃ l t', BTree.get (primary t) pk = Some l ∧ removeOne e t = (t', Ok (Some l)) ∧
     table_wf t' ∧ events t' = events t ∧ primaryKeyProperty t' = primaryKeyProperty t ∧
     primary t' = BTree.delete (primary t) pk ∧ heap t' = heap t ∧
     ∀ k, view t' k = if decide (k = pk) then None else view t k).
Proof.
  intros Hwf pk. unfold removeOne. fold pk.
  destruct (BTree.get (primary t) pk) as [l|] eqn:Hg; [right|by left].
  eexists l, _. split_and!; [done|reflexivity|by apply table_wf_remove|done|done|done|done|].
  intros k. by apply view_remove.
Qed.

(** ** The abstract specification of removals

    Seen as a map from primary key to entity: a removal deletes the key
    and answers whether it was there; a batch answers whether every key
    was there. *)

Definition abs_remove (pkProp : string) (e : object) : stm abs_table error bool :=
  fun m =>
  let pk := get_field e pkProp in
  match m pk with
  | None => (m, Ok false)
  | Some _ => (fun k => if decide (k = pk) then None else m k, Ok true)
  end.

Fixpoint abs_removeMany (pkProp : string) (es : list object) : stm abs_table error bool :=
  match es with
  | [] => sret true
  | e :: es' => b <~ abs_remove pkProp e ;; bs <~ abs_removeMany pkProp es' ;; sret (b && bs)
  end.

Lemma view_None t k : table_wf t -> view t k = None -> BTree.get (primary t) k = None.
Proof.
  intros Hwf Hv. destruct (BTree.get (primary t) k) eqn:Hg; [|done].
  destruct (view_Some t k Hwf) as [x Hx]; [by eexists|congruence].
Qed.

Lemma removeAll_spec es t m :
  table_wf t -> (∀ k, view t k = m k) ->
  table_wf (removeAll es t).1 ∧ events (removeAll es t).1 = events t ∧
  primaryKeyProperty (removeAll es t).1 = primaryKeyProperty t ∧
  (∃ r, (removeAll es t).2 = Ok r ∧
        (abs_removeMany (primaryKeyProperty t) es m).2 = Ok (forallb (fun o => bool_decide (is_Some o)) r)) ∧
  ∀ k, view (removeAll es t).1 k = (abs_removeMany (primaryKeyProperty t) es m).1 k.
Proof.
  revert t m. induction es as [|e es IH]; intros t m Hwf Hv; simpl; [by split_and!; [..|eexists|]|].
  unfold sbind, abs_remove.
  destruct (removeOne_cases t e Hwf) as [[Hg Heq]|(l & t1 & Hg & Heq & Hwf1 & Hev1 & Hpk1 & _ & _ & Hv1)];
    rewrite Heq; simpl.
  - assert (Hm : m (get_field e (primaryKeyProperty t)) = None) by (rewrite <- Hv; unfold view; by rewrite Hg).
    rewrite Hm. destruct (IH t m Hwf Hv) as (Hwf2 & Hev2 & Hpk2 & (r & Hr & Ha) & Hview).
    destruct (removeAll es t) as [t2 r2]; destruct (abs_removeMany _ es m) as [m2 a2]; simpl in *.
    subst. split_and!; try done. eexists. split; [reflexivity|done].
  - destruct (view_Some t (get_field e (primaryKeyProperty t)) Hwf) as [x Hx]; [by rewrite Hg; eexists|].
    rewrite Hv in Hx. rewrite Hx.
    destruct (IH t1 (fun k => if decide (k = get_field e (primaryKeyProperty t)) then None else m k)
                Hwf1) as (Hwf2 & Hev2 & Hpk2 & (r & Hr & Ha) & Hview).
    { intros k. rewrite Hv1. by case_decide. }
    rewrite Hpk1 in Hpk2, Ha, Hview.
    destruct (removeAll es t1) as [t2 r2]; destruct (abs_removeMany _ es _) as [m2 a2]; simpl in *.
    subst. unfold sret; simpl. split_and!; [done|congruence|done| |done].
    eexists. split; [reflexivity|]. done.
Qed.

(** After [internalRemove] of [e], no stored entity has the primary key
    of [e]. *)
Lemma internalRemove_gone t e :
  table_wf t ->
  table_wf (internalRemove e t).1 ∧
  primaryKeyProperty (internalRemove e t).1 = primaryKeyProperty t ∧
  BTree.get (primary (internalRemove e t).1) (get_field e (primaryKeyProperty t)) = None.
Proof.
  intros Hwf. unfold internalRemove, internalRemoveMany, sbind, smodify, sret. simpl. unfold sbind.
  destruct (removeOne_cases t e Hwf) as [[Hg Heq]|(l & t1 & Hg & Heq & Hwf1 & _ & Hpk1 & _ & _ & Hv1)];
    rewrite Heq; simpl; split_and!; try done; try by apply table_wf_dispatch.
  apply view_None; [done|]. rewrite Hv1. by rewrite decide_True.
Qed.

Lemma internalRemoveMany_spec t es m :
  table_wf t -> (∀ k, view t k = m k) ->
  (internalRemoveMany es t).2 = (abs_removeMany (primaryKeyProperty t) es m).2 ∧
  ∀ k, view (internalRemoveMany es t).1 k = (abs_removeMany (primaryKeyProperty t) es m).1 k.
Proof.
  intros Hwf Hv. unfold internalRemoveMany, sbind, smodify, sret.
  destruct (removeAll_spec es t m Hwf Hv) as (_ & _ & _ & (r & Hr & Ha) & Hview).
  destruct (removeAll es t) as [t' r']; simpl in *. subst r'. simpl. rewrite Ha. by split.
Qed.

(** ** Properties of removals *)

Lemma internalRemoveMany_wf t es :
  table_wf t -> table_wf (internalRemoveMany es t).1.
Proof.
  intros Hwf. unfold internalRemoveMany, sbind, smodify, sret.
  destruct (removeAll_spec es t (view t) Hwf (fun _ => eq_refl)) as (Hwf' & _ & _ & (r & Hr & _) & _).
  destruct (removeAll es t) as [t' r']; simpl in *. subst r'. simpl. by apply table_wf_dispatch.
Qed.

(** C7. [internalRemoveMany] keeps the index invariant: a removed object
    leaves the primary index and its bucket in every secondary index,
    and the other entities stay where they were. *)
Theorem internalRemoveMany_preserves_wf t es :
  table_wf t -> table_wf (internalRemoveMany es t).1.
Proof. apply internalRemoveMany_wf. Qed.

Lemma internalRemoveMany_preserves_wf_witness :
  table_wf demo_users ∧ table_wf (internalRemoveMany [[("id", VNum 2)]; [("id", VNum 9)]] demo_users).1.
Proof.
  assert (Hwf : table_wf demo_users) by table_wf_by_eval.
  split; [exact Hwf|]. exact (internalRemoveMany_preserves_wf demo_users _ Hwf).
Defined.

(** C8. Batch removals refine the abstract map removal: seen as a map
    from primary key to entity, [internalRemoveMany] deletes the keys of
    the given entities and answers whether every one was stored. *)
Theorem internalRemoveMany_refines t es e m :
  table_wf t -> (∀ k, view t k = m k) ->
  ((internalRemoveMany es t).2 = (abs_removeMany (primaryKeyProperty t) es m).2 ∧
   ∀ k, view (internalRemoveMany es t).1 k = (abs_removeMany (primaryKeyProperty t) es m).1 k) ∧
  ((internalRemove e t).2 = (abs_remove (primaryKeyProperty t) e m).2 ∧
   ∀ k, view (internalRemove e t).1 k = (abs_remove (primaryKeyProperty t) e m).1 k).
Proof.
  intros Hwf Hv. split; [by apply internalRemoveMany_spec|].
  destruct (internalRemoveMany_spec t [e] m Hwf Hv) as [Hr Hview]. unfold internalRemove.
  revert Hr Hview. unfold abs_removeMany, sbind, sret.
  destruct (abs_remove _ e m) as [m1 [b|err]]; simpl; [rewrite andb_true_r|]; by split.
Qed.

Lemma internalRemoveMany_refines_witness :
  table_wf demo_users ∧ (∀ k, view demo_users k = view demo_users k) ∧
  (internalRemoveMany [[("id", VNum 2)]; [("id", VNum 9)]] demo_users).2 = Ok false ∧
  (internalRemoveMany [[("id", VNum 2)]; [("id", VNum 9)]] demo_users).2 =
    (abs_removeMany "id" [[("id", VNum 2)]; [("id", VNum 9)]] (view demo_users)).2 ∧
  (internalRemove [("id", VNum 2)] demo_users).2 = (abs_remove "id" [("id", VNum 2)] (view demo_users)).2.
Proof.
  assert (Hwf : table_wf demo_users) by table_wf_by_eval.
  pose proof (internalRemoveMany_refines demo_users [[("id", VNum 2)]; [("id", VNum 9)]] [("id", VNum 2)]
                (view demo_users) Hwf (fun k => eq_refl)) as [[H1 _] [H2 _]].
  split_and!; [exact Hwf|done|vm_compute; reflexivity|exact H1|exact H2].
Defined.

(** C23. Idempotence (spec, section 7): removing an entity a second time
    answers [false] and leaves the entities and the indexes unchanged;
    only an empty [onRemove] event is dispatched. *)
Theorem internalRemove_idempotent t e :
  table_wf t ->
  let t1 := (internalRemove e t).1 in
  internalRemove e t1 = (dispatch t1 (OnRemove []), Ok false).
Proof.
  intros Hwf t1. destruct (internalRemove_gone t e Hwf) as (Hwf1 & Hpk1 & Hg1). fold t1 in Hwf1, Hpk1, Hg1.
  unfold internalRemove at 1, internalRemoveMany, sbind, smodify, sret. simpl. unfold sbind.
  destruct (removeOne_cases t1 e Hwf1) as [[_ Heq]|(l & t2 & Hg & _)]; [by rewrite Heq|].
  rewrite Hpk1, Hg1 in Hg. discriminate.
Qed.

Lemma internalRemove_idempotent_witness :
  table_wf demo_users ∧
  internalRemove [("id", VNum 2)] (internalRemove [("id", VNum 2)] demo_users).1 =
    (dispatch (internalRemove [("id", VNum 2)] demo_users).1 (OnRemove []), Ok false).
Proof.
  assert (Hwf : table_wf demo_users) by table_wf_by_eval.
  split; [exact Hwf|]. exact (internalRemove_idempotent demo_users _ Hwf).
Defined.

(** C24. After [internalRemove] of an entity with a valid key, [many]
    with the where-object [{[primaryKeyProperty]: key}] finds nothing. *)
Theorem remove_then_many_empty t e :
  table_wf t -> valid_pk (get_field e (primaryKeyProperty t)) ->
  many (internalRemove e t).1
    (Some (mkFilter (Some [(primaryKeyProperty t, MValue (get_field e (primaryKeyProperty t)))]))) = Ok [].
Proof.
  intros Hwf Hpk. destruct (internalRemove_gone t e Hwf) as (Hwf1 & Hpk1 & Hg1).
  set (t1 := (internalRemove e t).1) in *.
  destruct (many_where_spec t1 [(primaryKeyProperty t, MValue (get_field e (primaryKeyProperty t)))] Hwf1)
    as (items & Hm & _ & Hin); [destruct Hpk as [Hu Hn]; destruct (get_field _ _); simpl; congruence|done|].
  rewrite Hm. destruct items as [|l items]; [done|]. exfalso.
  destruct (proj1 (Hin l) ltac:(set_solver)) as [Hl Hmw].
  apply matchesWhere_eq in Hmw; [|apply Hpk]. rewrite <- Hpk1 in Hmw, Hg1.
  assert (Hg : BTree.get (primary t1) (get_field e (primaryKeyProperty t)) = Some l)
    by (apply live_pk_iff; [done|]; split; [done|rewrite <- Hpk1 in *; exact Hmw]).
  congruence.
Qed.

Lemma remove_then_many_empty_witness :
  table_wf demo_users ∧ valid_pk (get_field [("id", VNum 2)] "id") ∧
  many (internalRemove [("id", VNum 2)] demo_users).1
    (Some (mkFilter (Some [("id", MValue (VNum 2))]))) = Ok [].
Proof.
  assert (Hwf : table_wf demo_users) by table_wf_by_eval.
  assert (Hpk : valid_pk (get_field [("id", VNum 2)] "id")) by (split; discriminate).
  split_and!; [exact Hwf|exact Hpk|].
  exact (remove_then_many_empty demo_users [("id", VNum 2)] Hwf Hpk).
Defined.

(** ** Upsert *)

(** One iteration of [internalUpsertMany]: the update of the stored
    entity with [e] as diff when the key of [e] is stored, the insert of
    [e] otherwise. *)
Definition upsertOne (e : entity) : tstm value :=
  fun t =>
  if BTree.has (primary t) (get_field e (primaryKeyProperty t))
  then first_id (internalUpdateMany [e]) t
  else first_id (internalInsertMany [e]) t.

Fixpoint upsertAll (es : list entity) : tstm (list value) :=
  match es with
  | [] => sret []
  | e :: es' => id <~ upsertOne e ;; ids <~ upsertAll es' ;; sret (id :: ids)
  end.

(** [internalUpsertMany(table, entities)]: the primary keys, in order. *)
Definition internalUpsertMany (es : list entity) : tstm (list value) := upsertAll es.

(** [internalUpsert(table, entity)]: [ids[0]]. *)
Definition internalUpsert (e : entity) : tstm value := first_id (internalUpsertMany [e]).

(** The abstract upsert: the abstract update when the key is in the map,
    the abstract insert otherwise. *)
Definition abs_upsert (pkProp : string) (e : entity) : stm abs_table error value :=
  fun m => match m (get_field e pkProp) with
           | Some _ => abs_update pkProp e m
           | None => abs_insert pkProp e m
           end.

Fixpoint abs_upsertMany (pkProp : string) (es : list entity) : stm abs_table error (list value) :=
  match es with
  | [] => sret []
  | e :: es' => id <~ abs_upsert pkProp e ;; ids <~ abs_upsertMany pkProp es' ;; sret (id :: ids)
  end.

(** ** Lemmas on upsert *)

Lemma updateAll_pk ds t :
  table_wf t -> Forall object_wf ds -> primaryKeyProperty (updateAll ds t).1 = primaryKeyProperty t.
Proof.
  revert t. induction ds as [|d ds IH]; intros t Hwf Hds; simpl; [done|].
  apply Forall_cons in Hds as [Hd Hds]. unfold sbind.
  pose proof (updateOne_wf t d Hwf Hd) as Hwf1. pose proof (updateOne_pk t d Hwf Hd) as Hpk1.
  destruct (updateOne d t) as [t1 [r|err]]; simpl in *; [|done].
  pose proof (IH t1 Hwf1 Hds) as Hpk2.
  destruct (updateAll ds t1) as [t2 [rs|err]]; simpl in *; congruence.
Qed.


Lemma internalUpdateMany_spec ds t m :
  table_wf t -> Forall object_wf ds -> (∀ k, view t k = m k) ->
  table_wf (internalUpdateMany ds t).1 ∧
  primaryKeyProperty (internalUpdateMany ds t).1 = primaryKeyProperty t ∧
  (internalUpdateMany ds t).2 = (abs_updateMany (primaryKeyProperty t) ds m).2 ∧
  ∀ k, view (internalUpdateMany ds t).1 k = (abs_updateMany (primaryKeyProperty t) ds m).1 k.
Proof.
  intros Hwf Hds Hv. unfold internalUpdateMany, sbind, smodify, sret.
  destruct (updateAll_wf ds t Hwf Hds) as [Hwf' _]. pose proof (updateAll_pk ds t Hwf Hds) as Hpk.
  destruct (updateAll_refines ds t m Hwf Hds Hv) as [Hr Hview].
  destruct (updateAll ds t) as [t' [r|err]]; simpl in *; split_and!; try done.
  by apply table_wf_dispatch.
Qed.


Lemma upsertOne_spec t e m :
  table_wf t -> object_wf e -> (∀ k, view t k = m k) ->
  table_wf (upsertOne e t).1 ∧ primaryKeyProperty (upsertOne e t).1 = primaryKeyProperty t ∧
  (upsertOne e t).2 = (abs_upsert (primaryKeyProperty t) e m).2 ∧
  ∀ k, view (upsertOne e t).1 k = (abs_upsert (primaryKeyProperty t) e m).1 k.
Proof.
  intros Hwf He Hv. unfold upsertOne, abs_upsert.
  destruct (BTree.has (primary t) (get_field e (primaryKeyProperty t))) eqn:Hh.
  - unfold BTree.has in Hh. apply bool_decide_eq_true_1 in Hh.
    destruct (view_Some t _ Hwf Hh) as [x Hx]. rewrite Hv in Hx. rewrite Hx.
    destruct (internalUpdateMany_spec [e] t m Hwf ltac:(by constructor) Hv) as (Hwf1 & Hpk1 & Hr & Hview).
    apply first_id_spec; [done|done| |]; simpl in Hr, Hview; unfold sbind, sret in *;
      destruct (abs_update _ e m) as [m1 [x1|err]]; simpl in *; done.
  - apply has_false_get in Hh.
    assert (Hm : m (get_field e (primaryKeyProperty t)) = None) by (rewrite <- Hv; unfold view; by rewrite Hh).
    rewrite Hm.
    destruct (internalInsertMany_spec [e] t m Hwf Hv) as (Hwf1 & Hpk1 & Hr & Hview).
    apply first_id_spec; [done|done| |]; simpl in Hr, Hview; unfold sbind, sret in *;
      destruct (abs_insert _ e m) as [m1 [x1|err]]; simpl in *; done.
Qed.

Lemma upsertAll_spec es t m :
  table_wf t -> Forall object_wf es -> (∀ k, view t k = m k) ->
  table_wf (upsertAll es t).1 ∧
  (upsertAll es t).2 = (abs_upsertMany (primaryKeyProperty t) es m).2 ∧
  ∀ k, view (upsertAll es t).1 k = (abs_upsertMany (primaryKeyProperty t) es m).1 k.
Proof.
  revert t m. induction es as [|e es IH]; intros t m Hwf Hes Hv; simpl; [done|].
  apply Forall_cons in Hes as [He Hes]. unfold sbind.
  destruct (upsertOne_spec t e m Hwf He Hv) as (Hwf1 & Hpk1 & Hr1 & Hv1).
  destruct (upsertOne e t) as [t1 [x|err]], (abs_upsert _ e m) as [m1 [x'|err']];
    simpl in *; try congruence; [|split; [done|split; [congruence|exact Hv1]]].
  injection Hr1 as <-. destruct (IH t1 m1 Hwf1 Hes Hv1) as (Hwf2 & Hr2 & Hv2). rewrite Hpk1 in Hr2, Hv2.
  destruct (upsertAll es t1) as [t2 [xs|err]], (abs_upsertMany _ es m1) as [m2 [xs'|err']];
    simpl in *; try congruence; split_and!; congruence.
Qed.

(** ** The stored objects stay proper objects *)

Lemma first_id_objects c : stm_preserves heap_objects_wf c -> stm_preserves heap_objects_wf (first_id c).
Proof. unfold first_id. eauto with blink. Qed.

Lemma insertOne_objects e : object_wf e -> stm_preserves heap_objects_wf (insertOne e).
Proof.
  intros He t Ht. unfold insertOne. repeat case_match; try done.
  by apply map_Forall_insert_2.
Qed.

Lemma insertAll_objects es : Forall object_wf es -> stm_preserves heap_objects_wf (insertAll es).
Proof.
  induction es as [|e es IH]; intros Hes; simpl; [eauto with blink|].
  apply Forall_cons in Hes as [He Hes]. eauto using insertOne_objects with blink.
Qed.

Lemma internalInsertMany_objects es :
  Forall object_wf es -> stm_preserves heap_objects_wf (internalInsertMany es).
Proof. intros Hes. unfold internalInsertMany. eauto using insertAll_objects with blink. Qed.

Lemma removeOne_objects e : stm_preserves heap_objects_wf (removeOne e).
Proof. intros t Ht. unfold removeOne. by repeat case_match. Qed.

Lemma internalRemoveMany_objects es : stm_preserves heap_objects_wf (internalRemoveMany es).
Proof.
  unfold internalRemoveMany. apply sbind_preserves; [|eauto with blink].
  induction es as [|e es IH]; simpl; eauto using removeOne_objects with blink.
Qed.

Lemma upsertOne_objects e : object_wf e -> stm_preserves heap_objects_wf (upsertOne e).
Proof.
  intros He t Ht. unfold upsertOne. case_match.
  - exact (first_id_objects _ (internalUpdateMany_objects _) t Ht).
  - exact (first_id_objects _ (internalInsertMany_objects [e] ltac:(by constructor)) t Ht).
Qed.

Lemma internalUpsertMany_objects es :
  Forall object_wf es -> stm_preserves heap_objects_wf (internalUpsertMany es).
Proof.
  unfold internalUpsertMany. induction es as [|e es IH]; intros Hes; simpl; [eauto with blink|].
  apply Forall_cons in Hes as [He Hes]. eauto using upsertOne_objects with blink.
Qed.

(** ** The configuration does not change *)

Lemma first_id_config c cmd :
  stm_preserves (fun t => config t = c) cmd -> stm_preserves (fun t => config t = c) (first_id cmd).
Proof. unfold first_id. eauto with blink. Qed.

Lemma insertOne_config c e : stm_preserves (fun t => config t = c) (insertOne e).
Proof.
  intros t Ht. unfold insertOne. repeat case_match; try done. rewrite <- Ht. unfold config. simpl.
  by rewrite (fmap_fst_map_snd (fun p b => push_bucket b (get_field e p) (next_loc t))).
Qed.

Lemma internalInsertMany_config c es : stm_preserves (fun t => config t = c) (internalInsertMany es).
Proof.
  unfold internalInsertMany. apply sbind_preserves.
  - induction es as [|e es IH]; simpl; eauto using insertOne_config with blink.
  - intros r. apply sbind_preserves; eauto using dispatch_config with blink.
Qed.

Lemma removeOne_config c e : stm_preserves (fun t => config t = c) (removeOne e).
Proof.
  intros t Ht. unfold removeOne. repeat case_match; try done. rewrite <- Ht. unfold config. simpl.
  by rewrite (fmap_fst_map_snd (fun p b => delete_from_bucket b (field_at t n p) n)).
Qed.

Lemma internalRemoveMany_config c es : stm_preserves (fun t => config t = c) (internalRemoveMany es).
Proof.
  unfold internalRemoveMany. apply sbind_preserves.
  - induction es as [|e es IH]; simpl; eauto using removeOne_config with blink.
  - intros r. apply sbind_preserves; eauto using dispatch_config with blink.
Qed.

Lemma internalUpsertMany_config c es : stm_preserves (fun t => config t = c) (internalUpsertMany es).
Proof.
  unfold internalUpsertMany. induction es as [|e es IH]; simpl; [eauto with blink|].
  apply sbind_preserves; [|eauto with blink]. intros t Ht. unfold upsertOne. case_match.
  - exact (first_id_config _ _ (internalUpdateMany_config c [e]) t Ht).
  - exact (first_id_config _ _ (internalInsertMany_config c [e]) t Ht).
Qed.

(** ** Properties of upserts *)

(** C9. [internalUpsertMany] keeps the index invariant: whether an
    entity is updated or inserted, no index gains a duplicate or a stale
    entry. *)
Theorem internalUpsertMany_preserves_wf t es :
  table_wf t -> Forall object_wf es -> table_wf (internalUpsertMany es t).1.
Proof. intros Hwf Hes. apply (upsertAll_spec es t (view t) Hwf Hes (fun _ => eq_refl)). Qed.

Lemma internalUpsertMany_preserves_wf_witness :
  let alice' : entity := [("id", VNum 1); ("name", VStr "Alice"); ("age", VNum 24)] in
  let dave : entity := [("id", VNum 4); ("name", VStr "Dave"); ("age", VNum 23)] in
  table_wf demo_users ∧ Forall object_wf [alice'; dave] ∧
  table_wf (internalUpsertMany [alice'; dave] demo_users).1.
Proof.
  intros alice' dave. assert (Hwf : table_wf demo_users) by table_wf_by_eval.
  assert (Hes : Forall object_wf [alice'; dave]) by decide_by_eval.
  split_and!; [exact Hwf|exact Hes|exact (internalUpsertMany_preserves_wf demo_users _ Hwf Hes)].
Defined.

(** C10. Batch upserts refine the abstract upsert: seen as a map from
    primary key to entity, an entity whose key is stored is merged into
    the stored one as a diff, any other is inserted, in order, stopping
    at the first error. *)
Theorem internalUpsertMany_refines t es m :
  table_wf t -> Forall object_wf es -> (∀ k, view t k = m k) ->
  (internalUpsertMany es t).2 = (abs_upsertMany (primaryKeyProperty t) es m).2 ∧
  ∀ k, view (internalUpsertMany es t).1 k = (abs_upsertMany (primaryKeyProperty t) es m).1 k.
Proof. intros Hwf Hes Hv. apply (upsertAll_spec es t m Hwf Hes Hv). Qed.

Lemma internalUpsertMany_refines_witness :
  let alice' : entity := [("id", VNum 1); ("age", VNum 24)] in
  let dave : entity := [("id", VNum 4); ("name", VStr "Dave"); ("age", VNum 23)] in
  table_wf demo_users ∧ Forall object_wf [alice'; dave] ∧ (∀ k, view demo_users k = view demo_users k) ∧
  view (internalUpsertMany [alice'; dave] demo_users).1 (VNum 1) =
    Some [("id", VNum 1); ("name", VStr "Alice"); ("age", VNum 24)] ∧
  (internalUpsertMany [alice'; dave] demo_users).2 =
    (abs_upsertMany "id" [alice'; dave] (view demo_users)).2.
Proof.
  intros alice' dave. assert (Hwf : table_wf demo_users) by table_wf_by_eval.
  assert (Hes : Forall object_wf [alice'; dave]) by decide_by_eval.
  split_and!; [exact Hwf|exact Hes|done|vm_compute; reflexivity|].
  exact (proj1 (internalUpsertMany_refines demo_users _ (view demo_users) Hwf Hes (fun k => eq_refl))).
Defined.
