(* ===== verification/Operations.v ===== *)
(** * The public operations: updateWhere.ts and the middleware wrappers

    [internalUpdateWhere] (src/packages/db/src/core/updateWhere.ts)
    selects the entities of a filter with [get], clones them when the
    database option [clone] is set, runs the callback on every item
    ([Promise.all] over [items.map]), rejects the batch with
    [PrimaryKeyCannotBeModifiedError] when a callback returns a diff whose
    primary key differs from the item's, and passes the diffs to
    [internalUpdateMany].

    The callback is modelled as a function of the item it receives that
    returns the item as the callback left it (a callback may mutate its
    argument) and the diff it resolves to.  Without [clone] the items are
    the stored objects themselves, so the callback's mutations are made
    on the table, past the index maintenance of [internalUpdateMany].
    All the callbacks run before the first primary-key check, since each
    check waits for the callback's promise; the check that fails first is
    the one of the first item in order.

    [get] of the db package is not under src/; it is modelled from the
    spec (4.5 and 4.2): the selection of the where-object through the
    indexes, filtered by the filter evaluator, or all entities when the
    filter has no where-object.

    The public operations [insert], [remove], [upsert], [updateMany] and
    [updateWhere] run their implementation through
    [middleware] with the hooks of the database and of the table.  The
    hooks of one action are modelled with the parameters of that action
    (the table argument is the table the operation runs on) and the
    stateful result of the implementation. *)

From S2P Require Import Prelude Values OrderedIndex Matchers Middleware Table Update Select Mutations.

(** ** updateWhere *)

(** [get(table, filter)] of the db package (src/packages/db/src/query). *)
Definition query_get (t : table) (filter : Filter) : res (list loc) :=
  match f_where filter with
  | None => Ok (rows t)
  | Some w =>
      possibleItems <- selectWhereFilterItems t w ;;
      let items := match possibleItems with
                   | Some items => items
                   | None => BTree.valuesArray (primary t)
                   end in
      filterWhereItems (entity_at t) items w
  end.

(** A callback of [updateWhere]: the item as the callback leaves it, and
    the diff it returns. *)
Abbreviation callback := (entity -> entity * object).

(** [newItem[primaryKeyProperty] !== item[primaryKeyProperty]] *)
Definition pk_modified (pkProp : string) (r : loc * (entity * object)) : bool :=
  negb (get_field r.2.2 pkProp === get_field r.2.1 pkProp).

(** The callbacks' mutations of their items, seen by the table when the
    items are the stored objects. *)
Definition write_back (t : table) (results : list (loc * (entity * object))) : table :=
  foldl (fun t' r => set_entity t' r.1 r.2.1) t results.

(** [internalUpdateWhere(table, filter, callback)] *)
Definition internalUpdateWhere (filter : Filter) (cb : callback) : tstm unit :=
  fun t =>
  let pkProp := primaryKeyProperty t in
  match query_get t filter with
  | Err err => (t, Err err)
  | Ok items =>
      let results := (fun l => (l, cb (entity_at t l))) <$> items in
      let t1 := if cloneOption t then t else write_back t results in
      match List.find (pk_modified pkProp) results with
      | Some r => (t1, Err (PrimaryKeyCannotBeModifiedError (get_field r.2.1 pkProp)))
      | None => (_ <~ internalUpdateMany ((fun r => r.2.2) <$> results) ;; sret tt) t1
      end
  end.

(** ** The types of the hooks (src/packages/db/src/events/types.ts) *)

(** The type of an operation: its parameters and its result. *)
Record MethodType : Type := mkMethodType { method_params : Type; method_return : Type }.

(** [HookMethods<T, P>]: for each action, the parameters of its operation
    after the table (the table is the state the operation runs on) and
    the type its promise resolves to.  Entities the operations return are
    references to stored objects ([loc]).  A [Query<T, P>] of [first] and
    [one] is modelled by its [Filter]: its sort and limit do not reach the
    operations modelled here. *)
Definition HookMethods (a : HookAction) : MethodType :=
  match a with
  | ActClear => mkMethodType unit unit
  | ActCount => mkMethodType (option Filter * option bool) nat
  | ActFirst => mkMethodType (option (Filter + value)) (option loc)
  | ActInsert => mkMethodType entity value
  | ActInsertMany => mkMethodType (list entity) (list value)
  | ActMany => mkMethodType (option Filter) (list loc)
  | ActOne => mkMethodType (Filter + value) loc
  | ActRemove => mkMethodType object bool
  | ActRemoveMany => mkMethodType (list object) bool
  | ActRemoveWhere => mkMethodType Filter unit
  | ActUpdate => mkMethodType object unit
  | ActUpdateMany => mkMethodType (list object) (list value)
  | ActUpdateWhere => mkMethodType (Filter * callback) unit
  | ActUpsert => mkMethodType entity value
  | ActUpsertMany => mkMethodType (list entity) (list value)
  | ActWatch => mkMethodType (option Filter) (list loc)
  end.

(** [HookParams<T, P, A> = Parameters<HookMethods<T, P>[A]>] *)
Definition HookParams (a : HookAction) : Type := method_params (HookMethods a).

(** [HookReturn<T, P, A> = Awaited<ReturnType<HookMethods<T, P>[A]>>] *)
Definition HookReturn (a : HookAction) : Type := method_return (HookMethods a).

(** [Hook<T, P, A>] of one action: its [next] and its result run the
    operation on the table. *)
Abbreviation ActionHook a := (Hook (HookParams a) (tstm (HookReturn a))).

(** ** The public operations *)

(** The operations run on the table [t]; [middleware] takes the table's
    name from it. *)
Definition run_middleware (a : HookAction) (dbHooks tableHooks : list (ActionHook a))
    (ps : HookParams a) (impl : HookParams a -> tstm (HookReturn a)) : tstm (HookReturn a) :=
  fun t => middleware (FromTable dbHooks tableHooks (tableName t)) (tableName t) a ps impl t.

Definition insert (dbHooks tableHooks : list (ActionHook ActInsert)) (e : entity) : tstm value :=
  run_middleware ActInsert dbHooks tableHooks e internalInsert.

Definition remove (dbHooks tableHooks : list (ActionHook ActRemove)) (e : object) : tstm bool :=
  run_middleware ActRemove dbHooks tableHooks e internalRemove.

Definition upsert (dbHooks tableHooks : list (ActionHook ActUpsert)) (e : entity) : tstm value :=
  run_middleware ActUpsert dbHooks tableHooks e internalUpsert.

Definition updateMany (dbHooks tableHooks : list (ActionHook ActUpdateMany))
    (diffs : list object) : tstm (list value) :=
  run_middleware ActUpdateMany dbHooks tableHooks diffs internalUpdateMany.

Definition updateWhere (dbHooks tableHooks : list (ActionHook ActUpdateWhere))
    (filter : Filter) (cb : callback) : tstm unit :=
  run_middleware ActUpdateWhere dbHooks tableHooks (filter, cb)
    (fun ps => internalUpdateWhere ps.1 ps.2).

(** ** Lemmas *)

Lemma find_None_false {A} (f : A -> bool) (l : list A) x :
  List.find f l = None -> x ∈ l -> f x = false.
Proof. intros Hf Hx. apply list_elem_of_In in Hx. by apply (find_none f l Hf). Qed.

(** Under the invariant, every stored entity has a bucket for its value
    in every secondary index. *)
Lemma wf_bucket_exists t p bt l :
  table_wf t -> index_of t p = Some bt -> live t l -> is_Some (BTree.get bt (field_at t l p)).
Proof.
  intros Hwf Hix Hl. apply (index_of_elem_of t p bt Hwf) in Hix.
  destruct (wf_index t Hwf p bt Hix) as (_ & Hb & _). by apply Hb.
Qed.

Lemma internalUpdateWhere_clone_objects f cb t :
  cloneOption t = true -> heap_objects_wf t -> heap_objects_wf (internalUpdateWhere f cb t).1.
Proof.
  intros Hc Ht. unfold internalUpdateWhere. rewrite Hc.
  destruct (query_get t f); [|done]. destruct (List.find _ _); [done|].
  refine (sbind_preserves heap_objects_wf _ _ _ _ t Ht); eauto using internalUpdateMany_objects with blink.
Qed.

Lemma write_back_config t results : config (write_back t results) = config t.
Proof.
  unfold write_back. revert t. induction results as [|r rs IH]; intros t; simpl; [done|].
  by rewrite IH, config_set_entity.
Qed.

Lemma internalUpdateWhere_config c f cb : stm_preserves (fun t => config t = c) (internalUpdateWhere f cb).
Proof.
  intros t Ht. unfold internalUpdateWhere.
  assert (H1 : config (if cloneOption t then t else write_back t ((fun l => (l, cb (entity_at t l))) <$>
                 match query_get t f with Ok items => items | Err _ => [] end)) = c)
    by (destruct (cloneOption t); [done|by rewrite write_back_config]).
  destruct (query_get t f) as [items|]; [|done]. destruct (List.find _ _); [done|].
  refine (sbind_preserves (fun t => config t = c) _ _ _ _ _ H1); eauto using internalUpdateMany_config with blink.
Qed.

(** ** The demonstration table without [clone] *)

(** The table [t] with the database option [clone] set to [c]. *)
Definition with_clone (t : table) (c : bool) : table :=
  mkTable (tableName t) (primaryKeyProperty t) c (heap t) (next_loc t) (primary t) (indexes t) (events t).

(** [(user) => { user.age = 24; return user; }]: mutates its argument. *)
Definition birthday : callback := fun e => let e' := set_field e "age" (VNum 24) in (e', e').

(** [(user) => ({ id: user.id, age: 24 })]: leaves its argument alone. *)
Definition set_age_24 : callback := fun e => (e, [("id", get_field e "id"); ("age", VNum 24)]).

(** ** Properties of updateWhere *)

Lemma internalUpdateWhere_clone_wf f cb t :
  cloneOption t = true -> table_wf t -> (∀ e, object_wf (cb e).2) ->
  table_wf (internalUpdateWhere f cb t).1.
Proof.
  intros Hc Hwf Hcb. unfold internalUpdateWhere. rewrite Hc.
  destruct (query_get t f) as [items|err]; [|done].
  destruct (List.find _ _) as [r|]; [done|].
  unfold sbind, sret.
  destruct (internalUpdateMany_spec ((fun r => r.2.2) <$> ((fun l => (l, cb (entity_at t l))) <$> items))
              t (view t) Hwf) as (Hwf' & _); [|done|].
  - apply Forall_fmap, Forall_fmap, Forall_forall. intros l _. apply Hcb.
  - by destruct (internalUpdateMany _ t) as [t' [?|?]].
Qed.

(** C18. With the database option [clone], [internalUpdateWhere] keeps
    the index invariant: the callbacks work on copies, and the diffs
    they return go through [internalUpdateMany]. *)
Theorem updateWhere_clone_preserves_wf f cb t :
  cloneOption t = true -> table_wf t -> (∀ e, object_wf (cb e).2) ->
  table_wf (internalUpdateWhere f cb t).1.
Proof. apply internalUpdateWhere_clone_wf. Qed.

Lemma updateWhere_clone_preserves_wf_witness :
  cloneOption demo_users = true ∧ table_wf demo_users ∧ (∀ e, object_wf (set_age_24 e).2) ∧
  table_wf (internalUpdateWhere (mkFilter (Some [("name", MValue (VStr "Alice"))])) set_age_24 demo_users).1.
Proof.
  assert (Hwf : table_wf demo_users) by table_wf_by_eval.
  assert (Hcb : ∀ e, object_wf (set_age_24 e).2).
  { intros e. decide_by_eval. }
  split_and!; [reflexivity|exact Hwf|exact Hcb|].
  exact (updateWhere_clone_preserves_wf _ set_age_24 demo_users eq_refl Hwf Hcb).
Defined.

(** C19. A callback of [internalUpdateWhere] that changes the primary key
    of a selected entity makes the operation throw
    [PrimaryKeyCannotBeModifiedError]; with [clone], no diff is applied
    and no event dispatched. *)
Theorem updateWhere_pk_modified f cb t items l :
  cloneOption t = true -> query_get t f = Ok items -> l ∈ items ->
  pk_modified (primaryKeyProperty t) (l, cb (entity_at t l)) = true ->
  ∃ k, internalUpdateWhere f cb t = (t, Err (PrimaryKeyCannotBeModifiedError k)).
Proof.
  intros Hc Hg Hl Hm. unfold internalUpdateWhere. rewrite Hc, Hg.
  destruct (List.find _ _) as [r|] eqn:Hf; [by eexists|]. exfalso.
  assert (Hin : (l, cb (entity_at t l)) ∈ (fun l => (l, cb (entity_at t l))) <$> items)
    by (apply list_elem_of_fmap; eauto).
  rewrite (find_None_false _ _ _ Hf Hin) in Hm. discriminate.
Qed.

Lemma updateWhere_pk_modified_witness :
  let f := mkFilter (Some [("name", MValue (VStr "Alice"))]) in
  let cb : callback := fun e => (e, [("id", VNum 99)]) in
  cloneOption demo_users = true ∧ query_get demo_users f = Ok [0] ∧ 0 ∈ [0] ∧
  pk_modified "id" (0, cb (entity_at demo_users 0)) = true ∧
  ∃ k, internalUpdateWhere f cb demo_users = (demo_users, Err (PrimaryKeyCannotBeModifiedError k)).
Proof.
  intros f cb. assert (Hg : query_get demo_users f = Ok [0]) by (vm_compute; reflexivity).
  assert (Hm : pk_modified "id" (0, cb (entity_at demo_users 0)) = true) by (vm_compute; reflexivity).
  split_and!; [reflexivity|exact Hg|by left|exact Hm|].
  exact (updateWhere_pk_modified f cb demo_users [0] 0 eq_refl Hg ltac:(by left) Hm).
Defined.

(** C15. Without [clone], a callback that mutates its item changes the
    stored object before [internalUpdateMany] takes its snapshot: the
    old and the new values agree, the entity is not moved between
    buckets, and the index invariant breaks.  On the spec's users,
    setting Alice's age to 24 in place leaves her in the bucket of 23
    and in no bucket of 24; the same callback with [clone] keeps the
    invariant. *)
Theorem updateWhere_noclone_stale_index :
  let f := mkFilter (Some [("name", MValue (VStr "Alice"))]) in
  let t' := (internalUpdateWhere f birthday (with_clone demo_users false)).1 in
  ¬ table_wf t' ∧ field_at t' 0 "age" = VNum 24 ∧
  index_of t' "age" = Some [(VNum 23, [0]); (VNum 34, [2]); (VNum 45, [1])] ∧
  table_wf (internalUpdateWhere f birthday demo_users).1.
Proof.
  intros f t'. split_and!; [|vm_compute; reflexivity|vm_compute; reflexivity|].
  - intros Hwf.
    destruct (wf_bucket_exists t' "age" _ 0 Hwf ltac:(vm_compute; reflexivity) ltac:(decide_by_eval))
      as [b Hg].
    vm_compute in Hg. discriminate.
  - apply table_wfb_sound. vm_compute. reflexivity.
Qed.

(** ** Properties of the public operations *)

(** [updateMany] through hooks that pass their parameters through
    is [internalUpdateMany]: it keeps the index invariant and refines the
    abstract batch update. *)
Theorem updateMany_passthrough db th ds t :
  Forall passes_through (db ++ th) -> table_wf t -> Forall object_wf ds ->
  table_wf (updateMany db th ds t).1 ∧
  (updateMany db th ds t).2 = (abs_updateMany (primaryKeyProperty t) ds (view t)).2 ∧
  ∀ k, view (updateMany db th ds t).1 k = (abs_updateMany (primaryKeyProperty t) ds (view t)).1 k.
Proof.
  intros Hall Hwf Hds. unfold updateMany, run_middleware, middleware.
  rewrite executeHook_all_passthrough by done.
  destruct (internalUpdateMany_spec ds t (view t) Hwf Hds (fun _ => eq_refl)) as (? & _ & ? & ?).
  by split_and!.
Qed.

(** A hook of [updateMany] that lets the diffs through. *)
Definition logging_hook : ActionHook ActUpdateMany := fun c => next c (params c).

Lemma updateMany_passthrough_witness :
  let ds := [[("id", VNum 1); ("age", VNum 24)]] in
  Forall passes_through ([logging_hook] ++ [logging_hook]) ∧ table_wf demo_users ∧ Forall object_wf ds ∧
  table_wf (updateMany [logging_hook] [logging_hook] ds demo_users).1 ∧
  (updateMany [logging_hook] [logging_hook] ds demo_users).2 =
    (abs_updateMany (primaryKeyProperty demo_users) ds (view demo_users)).2 ∧
  ∀ k, view (updateMany [logging_hook] [logging_hook] ds demo_users).1 k =
       (abs_updateMany (primaryKeyProperty demo_users) ds (view demo_users)).1 k.
Proof.
  intros ds. assert (Hp : Forall passes_through ([logging_hook] ++ [logging_hook]))
    by (repeat constructor).
  assert (Hwf : table_wf demo_users) by table_wf_by_eval.
  assert (Hds : Forall object_wf ds) by decide_by_eval.
  split_and!; [exact Hp|exact Hwf|exact Hds|..];
    destruct (updateMany_passthrough [logging_hook] [logging_hook] ds demo_users Hp Hwf Hds) as (H1 & H2 & H3);
    assumption.
Defined.

(** C30. A hook that throws stops [insert], wherever it is in the chain
    of the database's hooks followed by the table's, when the hooks before
    it call [next] (with their parameters, rewritten or not) and return
    its result: the error reaches the caller, the hooks after it and
    [internalInsert] do not run, and the table is left as it was (spec,
    section 7). *)
Theorem insert_hook_throws db th hs1 fs h hs2 err e t :
  db ++ th = hs1 ++ h :: hs2 ->
  Forall2 (fun h f => continues_with h f id) hs1 fs ->
  (∀ c, h c = sthrow err) ->
  insert db th e t = (t, Err err).
Proof.
  intros Hsplit Hc Hh. unfold insert, run_middleware, middleware.
  by rewrite Hsplit, (executeHook_stops_at hs1 fs h hs2 _ _ _ _ (sthrow err)).
Qed.

(** A hook of [insert] that passes the entity on, and one that throws. *)
Definition pass_insert : ActionHook ActInsert := fun c => next c (params c).
Definition reject_insert : ActionHook ActInsert := fun _ => sthrow (TypeError "rejected").

Lemma insert_hook_throws_witness :
  let dave : entity := [("id", VNum 4); ("name", VStr "Dave"); ("age", VNum 52)] in
  [pass_insert; pass_insert] ++ [reject_insert; pass_insert] =
    [pass_insert; pass_insert] ++ reject_insert :: [pass_insert] ∧
  Forall2 (fun h f => continues_with h f id) [pass_insert; pass_insert] [id; id] ∧
  (∀ c, reject_insert c = sthrow (TypeError "rejected")) ∧
  insert [pass_insert; pass_insert] [reject_insert; pass_insert] dave demo_users =
    (demo_users, Err (TypeError "rejected")).
Proof.
  intros dave.
  assert (Hs : [pass_insert; pass_insert] ++ [reject_insert; pass_insert] =
               [pass_insert; pass_insert] ++ reject_insert :: [pass_insert]) by reflexivity.
  assert (Hc : Forall2 (fun h f => continues_with h f id) [pass_insert; pass_insert] [id; id])
    by (repeat constructor).
  assert (Hh : ∀ c, reject_insert c = sthrow (TypeError "rejected")) by done.
  split_and!; [exact Hs|exact Hc|exact Hh|].
  exact (insert_hook_throws _ _ _ _ _ _ _ dave demo_users Hs Hc Hh).
Defined.

(** ** Queries after an update *)

(** The two-field diff [{[primaryKeyProperty]: pk, [p]: v'}] sets [p]. *)
Lemma apply_diff_two pkProp e pk p v' :
  p ≠ pkProp -> get_field (apply_diff pkProp e [(pkProp, pk); (p, v')]) p = v'.
Proof.
  intros Hp. unfold apply_diff, step_entity. cbn [foldl fst snd].
  destruct (decide (pkProp = pkProp)) as [_|]; [|done].
  destruct (decide (p = pkProp)); [done|]. apply get_set_field_same.
Qed.

(** C31. Update maintains the indexes (spec, section 8): after
    [internalUpdateMany] sets the indexed or unindexed property [p] of a
    stored entity from [v] to [v'], [many] with [{[p]: v}] no longer
    returns the entity and [many] with [{[p]: v'}] does. *)
Theorem update_moves_bucket t l pk p v' :
  table_wf t -> BTree.get (primary t) pk = Some l -> p ≠ primaryKeyProperty t ->
  field_at t l p ≠ v' -> field_at t l p ≠ VNull -> v' ≠ VNull ->
  ∃ t', internalUpdateMany [[(primaryKeyProperty t, pk); (p, v')]] t = (t', Ok [pk]) ∧
    (∃ r, many t' (Some (mkFilter (Some [(p, MValue (field_at t l p))]))) = Ok r ∧ l ∉ r) ∧
    (∃ r, many t' (Some (mkFilter (Some [(p, MValue v')]))) = Ok r ∧ l ∈ r).
Proof.
  intros Hwf Hg Hp Hne Hn Hn'.
  set (d := [(primaryKeyProperty t, pk); (p, v')]).
  assert (Hd : object_wf d).
  { unfold object_wf, d. simpl. apply NoDup_cons. split; [set_solver|apply NoDup_singleton]. }
  assert (Hpk : get_field d (primaryKeyProperty t) = pk) by (unfold d; simpl; by rewrite decide_True).
  destruct (updateOne_cases t d Hwf Hd) as [[Hv _]|[[_ [Hg' _]]|[_ (l' & ix & Hg' & Heq & Hwf1)]]];
    rewrite Hpk in *; [|congruence|].
  { exfalso. apply Hv. apply BTree.get_elem_of in Hg; [|apply (wf_primary t Hwf)].
    apply (wf_primary_key t Hwf _ _ Hg). }
  rewrite Hg in Hg'. injection Hg' as <-.
  set (t1 := with_indexes (set_entity t l (apply_diff (primaryKeyProperty t) (entity_at t l) d)) ix) in *.
  set (t' := dispatch t1 (OnUpdate [(entity_at t l, l)])).
  assert (Hwf' : table_wf t') by (by apply table_wf_dispatch).
  assert (Hl : live t' l) by (by eapply primary_get_live).
  assert (Hf : field_at t' l p = v').
  { unfold t', t1, field_at, entity_at. simpl. rewrite lookup_insert_eq. by apply apply_diff_two. }
  exists t'. split.
  { unfold internalUpdateMany, sbind, smodify, sret. simpl. unfold sbind. rewrite Heq. done. }
  split.
  - destruct (many_where_spec t' [(p, MValue (field_at t l p))] Hwf') as (r & Hm & _ & Hin);
      [by destruct (field_at t l p)|done|].
    exists r. split; [done|]. rewrite Hin, matchesWhere_eq by done. intros [_ Hx]. apply Hne.
    rewrite <- Hf. done.
  - destruct (many_where_spec t' [(p, MValue v')] Hwf') as (r & Hm & _ & Hin); [by destruct v'|done|].
    exists r. split; [done|]. rewrite Hin, matchesWhere_eq by done. done.
Qed.

Lemma update_moves_bucket_witness :
  table_wf demo_users ∧ BTree.get (primary demo_users) (VNum 1) = Some 0 ∧ "age" ≠ "id" ∧
  field_at demo_users 0 "age" ≠ VNum 24 ∧ field_at demo_users 0 "age" ≠ VNull ∧ VNum 24 ≠ VNull ∧
  ∃ t', internalUpdateMany [[("id", VNum 1); ("age", VNum 24)]] demo_users = (t', Ok [VNum 1]) ∧
    (∃ r, many t' (Some (mkFilter (Some [("age", MValue (field_at demo_users 0 "age"))]))) = Ok r ∧ 0 ∉ r) ∧
    (∃ r, many t' (Some (mkFilter (Some [("age", MValue (VNum 24))]))) = Ok r ∧ 0 ∈ r).
Proof.
  assert (Hwf : table_wf demo_users) by table_wf_by_eval.
  assert (H1 : field_at demo_users 0 "age" ≠ VNum 24) by (vm_compute; discriminate).
  assert (H2 : field_at demo_users 0 "age" ≠ VNull) by (vm_compute; discriminate).
  split_and!; [exact Hwf|reflexivity|discriminate|exact H1|exact H2|discriminate|].
  exact (update_moves_bucket demo_users 0 (VNum 1) "age" (VNum 24) Hwf eq_refl ltac:(discriminate)
           H1 H2 ltac:(discriminate)).
Defined.

(** [(user) => { user.age = 24; return { ...user, id: 99 }; }]: mutates
    its argument and returns a diff with another primary key. *)
Definition birthday_new_id : callback :=
  fun e => let e' := set_field e "age" (VNum 24) in (e', set_field e' "id" (VNum 99)).

(** C32. The primary-key check of [internalUpdateWhere] does not protect
    a table without [clone] (spec, section 8: a transform that changes
    the primary key must fail without having partially applied the
    update): the callback's mutation of Alice's age stays in the table
    after [PrimaryKeyCannotBeModifiedError], and the [age] index is
    stale.  With [clone], the same call leaves the table unchanged. *)
Theorem updateWhere_noclone_partial :
  let f := mkFilter (Some [("name", MValue (VStr "Alice"))]) in
  let t0 := with_clone demo_users false in
  (internalUpdateWhere f birthday_new_id t0).2 = Err (PrimaryKeyCannotBeModifiedError (VNum 1)) ∧
  field_at (internalUpdateWhere f birthday_new_id t0).1 0 "age" = VNum 24 ∧
  ¬ table_wf (internalUpdateWhere f birthday_new_id t0).1 ∧
  internalUpdateWhere f birthday_new_id demo_users =
    (demo_users, Err (PrimaryKeyCannotBeModifiedError (VNum 1))).
Proof.
  intros f t0. split_and!; [vm_compute; reflexivity|vm_compute; reflexivity| |vm_compute; reflexivity].
  intros Hwf.
  destruct (wf_bucket_exists _ "age" _ 0 Hwf ltac:(vm_compute; reflexivity) ltac:(decide_by_eval))
    as [b Hg].
  vm_compute in Hg. discriminate.
Qed.
