(* ===== verification/Lifecycle.v ===== *)
(** * The lifecycle of a table: sequences of operations

    A table is created empty (createTable, not under src/; modelled from
    the spec, section 6: the table name, the primary-key property, the
    clone option and the indexed properties are fixed inputs) and then
    changed by operations.  [step t t'] says that one mutation, run on
    [t], leaves [t'], whether it returns or throws: the batch update,
    insert, remove and upsert, the single update of update.ts, and
    updateWhere on a database with the [clone] option (without it, a
    callback that mutates its argument breaks the indexes, see
    [Operations.updateWhere_noclone_stale_index]).  The objects the
    caller passes are JavaScript objects, each property once.

    The tables a program can observe are those reachable from a created
    table by [rtc step], stdpp's reflexive-transitive closure; the
    invariants of the spec (section 8) are proved for all of them by
    induction on the sequence of steps. *)

From S2P Require Import Prelude Values OrderedIndex Matchers Middleware Table Update Select Mutations Operations.

(** [createTable(db, tableName)({ primary, indexes })]: an empty table. *)
Definition createTable (tableName primary : string) (clone : bool) (indexed : list string) : table :=
  mkTable tableName primary clone ∅ 0 [] ((fun p => (p, [])) <$> indexed) [].

(** One operation on a table. *)
Inductive step : table -> table -> Prop :=
| step_insertMany es t : Forall object_wf es -> step t (internalInsertMany es t).1
| step_updateMany ds t : Forall object_wf ds -> step t (internalUpdateMany ds t).1
| step_update d t : object_wf d -> step t (update d t).1
| step_removeMany es t : step t (internalRemoveMany es t).1
| step_upsertMany es t : Forall object_wf es -> step t (internalUpsertMany es t).1
| step_updateWhere f cb t :
    cloneOption t = true -> (∀ e, object_wf (cb e).2) -> step t (internalUpdateWhere f cb t).1.

(** The invariant of the tables a program observes. *)
Record table_inv (c : string * string * bool * list string) (t : table) : Prop := {
  inv_wf : table_wf t;
  inv_objects : heap_objects_wf t;
  inv_config : config t = c
}.

(** ** Lemmas *)

Lemma createTable_inv name pk clone indexed :
  NoDup indexed ->
  table_inv (name, pk, clone, indexed) (createTable name pk clone indexed).
Proof.
  intros Hnd. constructor; [|apply map_Forall_empty|].
  - constructor; simpl.
    + constructor.
    + intros k l Hin. by apply elem_of_nil in Hin.
    + constructor.
    + intros l Hl. by apply elem_of_nil in Hl.
    + by rewrite <- list_fmap_compose, list_fmap_id.
    + intros p bt (p' & [= -> ->] & _)%list_elem_of_fmap.
      split_and!; [constructor|intros l Hl; by apply elem_of_nil in Hl|done].
  - unfold config. simpl. by rewrite <- list_fmap_compose, list_fmap_id.
Qed.

(** Every operation keeps the invariant. *)
Lemma step_inv c t t' : table_inv c t -> step t t' -> table_inv c t'.
Proof.
  intros [Hwf Hobj Hc] Hstep. destruct Hstep as [es t Hes|ds t Hds|d t Hd|es t|es t Hes|f cb t Hcl Hcb].
  - constructor; [apply (internalInsertMany_spec es t (view t) Hwf (fun _ => eq_refl))|
                  by apply internalInsertMany_objects|by apply internalInsertMany_config].
  - constructor; [apply (internalUpdateMany_spec ds t (view t) Hwf Hds (fun _ => eq_refl))|
                  by apply internalUpdateMany_objects|by apply internalUpdateMany_config].
  - constructor; [by apply update_wf|by apply update_objects|by apply update_config].
  - constructor; [by apply internalRemoveMany_wf|
                  by apply internalRemoveMany_objects|by apply internalRemoveMany_config].
  - constructor; [apply (upsertAll_spec es t (view t) Hwf Hes (fun _ => eq_refl))|
                  by apply internalUpsertMany_objects|by apply internalUpsertMany_config].
  - constructor; [by apply internalUpdateWhere_clone_wf|by apply internalUpdateWhere_clone_objects|
                  by apply internalUpdateWhere_config].
Qed.

Lemma reachable_inv name pk clone indexed t :
  NoDup indexed -> rtc step (createTable name pk clone indexed) t ->
  table_inv (name, pk, clone, indexed) t.
Proof.
  intros Hnd. apply (rtc_ind_r (table_inv (name, pk, clone, indexed)) (createTable name pk clone indexed)).
  - by apply createTable_inv.
  - intros t1 t2 _ Hstep Hinv. by eapply step_inv.
Qed.

(** The table of the spec's scenario, created empty with indexes on
    [age] and [name]. *)
Definition users_t0 : table := createTable "users" "id" true ["age"; "name"].

(** ** Properties of sequences of operations *)

(** C1. The invariant of the spec (section 8): after any sequence of
    inserts, updates, removes, upserts and updateWhere (with [clone]) on a
    created table, each operation returning or throwing, every stored
    entity is in the primary index under its own key and exactly once in
    the bucket of its current value in every secondary index, with no
    stale entry; and the table keeps the name, primary key, clone option
    and indexes it was created with. *)
Theorem reachable_wf name pk clone indexed t :
  NoDup indexed -> rtc step (createTable name pk clone indexed) t ->
  table_wf t ∧ config t = (name, pk, clone, indexed).
Proof. intros Hnd Hreach. destruct (reachable_inv name pk clone indexed t Hnd Hreach) as [? _ ?]. by split. Qed.

Lemma reachable_wf_witness :
  let t := (internalRemoveMany [[("id", VNum 2)]]
              (internalInsertMany [alice; bob; charlie] users_t0).1).1 in
  NoDup ["age"; "name"] ∧ rtc step users_t0 t ∧
  table_wf t ∧ config t = ("users", "id", true, ["age"; "name"]).
Proof.
  intros t. assert (Hnd : NoDup ["age"; "name"]) by decide_by_eval.
  assert (Hr : rtc step users_t0 t).
  { unfold t. eapply rtc_l; [apply (step_insertMany [alice; bob; charlie]); decide_by_eval|]. apply rtc_once. apply step_removeMany. }
  split_and!; [exact Hnd|exact Hr|..];
    destruct (reachable_wf "users" "id" true ["age"; "name"] t Hnd Hr); assumption.
Defined.

