(* ===== verification/Concurrency.v ===== *)
(** * Interleaving of operations at the suspension points of updateWhere

    The engine runs on one thread, but an operation can be suspended
    (spec, section 5).  [internalUpdateWhere]
    (src/packages/db/src/core/updateWhere.ts) is suspended between
    calling the callbacks on the selected items and the primary-key
    checks and batch update that follow [await Promise.all(...)]; other
    operations of the program run in between.  The other mutations have
    no suspension point between the start of their work on the indexes
    and its end ([internalUpdateMany] and the batch operations do not
    await), so each of them is one atomic step, as in [Lifecycle].

    A world is a table and the updateWhere operations suspended on it,
    each with the primary-key property it read and the results of its
    callbacks.  [cstep] runs one atomic operation, starts an updateWhere
    (up to its suspension) or resumes one of the suspended ones, in any
    order: the schedules of the cooperative scheduler.  The theorems show
    that the two halves compose to [internalUpdateMany] when nothing runs
    in between, that the index invariant holds on every schedule (with
    the clone option), and the
    hazards the spec accepts: a resumed batch fails on an entity removed
    meanwhile, and overwrites a concurrent update with the values its
    callback saw. *)

From S2P Require Import Prelude Values OrderedIndex Matchers Middleware Table Update Select Mutations Operations Lifecycle.

(** ** The two halves of internalUpdateWhere *)

(** The results of the callbacks of one updateWhere: for each selected
    entity, the item as the callback left it and the diff it returned. *)
Abbreviation results := (list (loc * (entity * object))).

(** Lines 42 to 48 of internalUpdateWhere, up to the suspension: [get],
    the optional clone, and the calls of [callback] on the items. *)
Definition updateWhere_start (filter : Filter) (cb : callback) : tstm results :=
  fun t =>
  match query_get t filter with
  | Err err => (t, Err err)
  | Ok items =>
      let results := (fun l => (l, cb (entity_at t l))) <$> items in
      (if cloneOption t then t else write_back t results, Ok results)
  end.

(** Lines 49 to 55, once the callbacks have resolved: the primary-key
    checks, then [internalUpdateMany] of the diffs. *)
Definition updateWhere_finish (pkProp : string) (rs : results) : tstm unit :=
  fun t =>
  match List.find (pk_modified pkProp) rs with
  | Some r => (t, Err (PrimaryKeyCannotBeModifiedError (get_field r.2.1 pkProp)))
  | None => (_ <~ internalUpdateMany ((fun r => r.2.2) <$> rs) ;; sret tt) t
  end.

(** ** Worlds and schedules *)

(** A suspended updateWhere: the primary-key property it read and the
    results of its callbacks. *)
Abbreviation pending := (string * results)%type.

Record world : Type := mkWorld { w_table : table; w_pending : list pending }.

(** Resuming one of the suspended updateWhere operations, whichever. *)
Inductive resume : world -> world -> Prop :=
| resume_one t ps1 th ps2 :
    resume (mkWorld t (ps1 ++ th :: ps2)) (mkWorld (updateWhere_finish th.1 th.2 t).1 (ps1 ++ ps2)).

(** One step of a schedule. *)
Inductive cstep : world -> world -> Prop :=
| cstep_op t t' ps : step t t' -> cstep (mkWorld t ps) (mkWorld t' ps)
| cstep_start f cb t t' rs ps :
    updateWhere_start f cb t = (t', Ok rs) -> Forall (fun r => object_wf r.2.2) rs ->
    cstep (mkWorld t ps) (mkWorld t' ((primaryKeyProperty t, rs) :: ps))
| cstep_resume w w' : resume w w' -> cstep w w'.

(** ** Lemmas *)

(** Without interleaving, the two halves are [internalUpdateWhere]. *)
Lemma updateWhere_split f cb t :
  internalUpdateWhere f cb t =
    (rs <~ updateWhere_start f cb ;; updateWhere_finish (primaryKeyProperty t) rs) t.
Proof.
  unfold internalUpdateWhere, updateWhere_start, updateWhere_finish, sbind.
  by destruct (query_get t f).
Qed.

(** The invariant of a world: the table's, and every suspended batch
    holds diffs that are objects. *)
Record world_inv (c : string * string * bool * list string) (w : world) : Prop := {
  winv_table : table_inv c (w_table w);
  winv_clone : c.1.2 = true;
  winv_pending : Forall (fun th : pending => Forall (fun r => object_wf r.2.2) th.2) (w_pending w)
}.

Lemma updateWhere_finish_inv c pkProp rs t :
  Forall (fun r => object_wf r.2.2) rs -> table_inv c t -> table_inv c (updateWhere_finish pkProp rs t).1.
Proof.
  intros Hrs [Hwf Hobj Hc]. unfold updateWhere_finish.
  destruct (List.find _ _); [done|]. unfold sbind.
  set (ds := (fun r => r.2.2) <$> rs).
  assert (Hds : Forall object_wf ds) by by apply Forall_fmap.
  pose proof (internalUpdateMany_objects ds t Hobj) as Hobj'.
  pose proof (internalUpdateMany_config c ds t Hc) as Hc'.
  destruct (internalUpdateMany_spec ds t (view t) Hwf Hds (fun _ => eq_refl)) as (Hwf' & _).
  destruct (internalUpdateMany ds t) as [t' [|]]; by constructor.
Qed.

Lemma updateWhere_start_clone f cb t t' rs :
  cloneOption t = true -> updateWhere_start f cb t = (t', Ok rs) -> t' = t.
Proof.
  intros Hcl. unfold updateWhere_start. rewrite Hcl.
  destruct (query_get t f); [|done]. by intros [= <- _].
Qed.

Lemma cstep_inv c w w' : world_inv c w -> cstep w w' -> world_inv c w'.
Proof.
  intros [Ht Hcl Hps] Hstep. destruct Hstep as [t t' ps Hs|f cb t t' rs ps Hstart Hrs|w w' []].
  - constructor; [by eapply step_inv|done|done].
  - assert (cloneOption t = true) as Hclt by (rewrite <- (inv_config _ _ Ht) in Hcl; exact Hcl).
    rewrite (updateWhere_start_clone f cb t t' rs Hclt Hstart).
    constructor; [done|done|]. by constructor.
  - simpl in *. apply Forall_app in Hps as [Hps1 (Hth & Hps2)%Forall_cons].
    constructor; [by apply updateWhere_finish_inv|done|by apply Forall_app].
Qed.

(** Resuming the first suspended operation. *)
Lemma resume_first t th ps :
  resume (mkWorld t (th :: ps)) (mkWorld (updateWhere_finish th.1 th.2 t).1 ps).
Proof. exact (resume_one t [] th ps). Qed.

(** ** Data of the schedules below *)

(** [(user) => ({ ...user, name: "Robert" })]: the diff is the whole
    item as the callback saw it. *)
Definition rename_robert : callback := fun e => (e, set_field e "name" (VStr "Robert")).

(** [(user) => ({ ...user, age: user.age + 1 })] *)
Definition add_year : callback :=
  fun e => (e, set_field e "age" (match get_field e "age" with VNum n => VNum (n + 1) | v => v end)).

(** ** Properties of the schedules *)

(** C2. The index invariant holds on every schedule of a database with
    the clone option: whatever operations run while updateWhere
    operations are suspended, and in whatever order the suspended ones
    resume, every stored entity is under its own key in the primary
    index and exactly once in the bucket of its current value, and the
    table keeps its configuration. *)
Theorem schedule_wf name pk indexed w :
  NoDup indexed -> rtc cstep (mkWorld (createTable name pk true indexed) []) w ->
  table_wf (w_table w) ∧ config (w_table w) = (name, pk, true, indexed).
Proof.
  intros Hnd Hreach.
  assert (Hinv : world_inv (name, pk, true, indexed) w).
  { apply (rtc_ind_r (R:=cstep) (world_inv (name, pk, true, indexed))
      (mkWorld (createTable name pk true indexed) []));
      [|intros w1 w2 _ Hs Hi; by eapply cstep_inv|exact Hreach].
    constructor; [by apply createTable_inv|done|constructor]. }
  destruct Hinv as [[Hwf _ Hc] _ _]. by split.
Qed.

Lemma schedule_wf_witness :
  let t1 := (internalInsertMany [alice; bob; charlie] users_t0).1 in
  let f := mkFilter (Some [("name", MValue (VStr "Bob"))]) in
  let rs := (fun l => (l, add_year (entity_at t1 l))) <$> [1] in
  let t2 := (internalRemoveMany [[("id", VNum 3)]] t1).1 in
  let w := mkWorld (updateWhere_finish (primaryKeyProperty t1) rs t2).1 [] in
  NoDup ["age"; "name"] ∧ rtc cstep (mkWorld users_t0 []) w ∧
  table_wf (w_table w) ∧ config (w_table w) = ("users", "id", true, ["age"; "name"]).
Proof.
  intros t1 f rs t2 w. assert (Hnd : NoDup ["age"; "name"]) by decide_by_eval.
  assert (Hr : rtc cstep (mkWorld users_t0 []) w).
  { eapply rtc_l; [apply cstep_op, (step_insertMany [alice; bob; charlie]); decide_by_eval|].
    eapply rtc_l; [apply (cstep_start f add_year t1 t1 rs []); [vm_compute; reflexivity|decide_by_eval]|].
    eapply rtc_l; [apply cstep_op, (step_removeMany [[("id", VNum 3)]])|].
    apply rtc_once, cstep_resume, resume_first. }
  split_and!; [exact Hnd|exact Hr|..];
    destruct (schedule_wf "users" "id" ["age"; "name"] w Hnd Hr); assumption.
Defined.

(** C20. A suspended updateWhere that resumes after the entity of its
    first result was removed meanwhile throws [ItemNotFoundError] for
    that entity's key, and leaves the table as the other operations left
    it: the callbacks' work is lost and no event is dispatched (spec,
    section 5: an accepted hazard of the cooperative model). *)
Theorem resume_after_remove pkProp l e d rs t :
  get_field d pkProp ≠ VUndefined -> get_field d pkProp ≠ VNull ->
  primaryKeyProperty t = pkProp ->
  BTree.get (primary t) (get_field d pkProp) = None ->
  List.find (pk_modified pkProp) ((l, (e, d)) :: rs) = None ->
  updateWhere_finish pkProp ((l, (e, d)) :: rs) t = (t, Err (ItemNotFoundError (get_field d pkProp))).
Proof.
  intros Hu Hn Hpk Hget Hfind. unfold updateWhere_finish. rewrite Hfind.
  unfold internalUpdateMany, sbind. cbn [updateAll fmap list_fmap]. unfold sbind at 1, updateOne.
  rewrite Hpk. cbn [fst snd]. destruct (decide _) as [[|]|]; [done|done|]. by rewrite Hget.
Qed.

Lemma resume_after_remove_witness :
  let f := mkFilter (Some [("age", MValue (VNum 34))]) in
  let rs := (fun l => (l, add_year (entity_at demo_users l))) <$> [2] in
  let t1 := (internalRemoveMany [[("id", VNum 3)]] demo_users).1 in
  updateWhere_start f add_year demo_users = (demo_users, Ok rs) ∧
  get_field (set_field charlie "age" (VNum 35)) "id" ≠ VUndefined ∧
  get_field (set_field charlie "age" (VNum 35)) "id" ≠ VNull ∧
  primaryKeyProperty t1 = "id" ∧
  BTree.get (primary t1) (get_field (set_field charlie "age" (VNum 35)) "id") = None ∧
  List.find (pk_modified "id") [(2, (charlie, set_field charlie "age" (VNum 35)))] = None ∧
  updateWhere_finish "id" rs t1 = (t1, Err (ItemNotFoundError (VNum 3))).
Proof.
  intros f rs t1.
  assert (H1 : get_field (set_field charlie "age" (VNum 35)) "id" ≠ VUndefined) by discriminate.
  assert (H2 : get_field (set_field charlie "age" (VNum 35)) "id" ≠ VNull) by discriminate.
  assert (H3 : primaryKeyProperty t1 = "id") by reflexivity.
  assert (H4 : BTree.get (primary t1) (get_field (set_field charlie "age" (VNum 35)) "id") = None)
    by (vm_compute; reflexivity).
  assert (H5 : List.find (pk_modified "id") [(2, (charlie, set_field charlie "age" (VNum 35)))] = None)
    by (vm_compute; reflexivity).
  split_and!; [vm_compute; reflexivity|exact H1|exact H2|exact H3|exact H4|exact H5|].
  exact (resume_after_remove "id" 2 charlie (set_field charlie "age" (VNum 35)) [] t1 H1 H2 H3 H4 H5).
Defined.

(** The update [{ id: 2, age: 46 }] of Bob that runs while the
    renaming is suspended. *)
Definition bob_age_46 : object := [("id", VNum 2); ("age", VNum 46)].

(** C21. Lost update: on the spec's users, an updateWhere renaming Bob with
    [(user) => ({ ...user, name: "Robert" })] is suspended, Bob's age is
    updated to 46, and the renaming resumes: its diff carries the age its
    callback saw, so Bob ends at age 45.  Run one after the other, in
    either order, the two operations leave Bob at 46: the schedule is
    equivalent to no serial order (spec, section 5). *)
Theorem lost_update :
  let f := mkFilter (Some [("id", MValue (VNum 2))]) in
  let rs := [(1, rename_robert bob)] in
  let t1 := (internalUpdateMany [bob_age_46] demo_users).1 in
  let t2 := (updateWhere_finish "id" rs t1).1 in
  updateWhere_start f rename_robert demo_users = (demo_users, Ok rs) ∧
  rtc cstep (mkWorld demo_users []) (mkWorld t2 []) ∧
  (internalUpdateMany [bob_age_46] demo_users).2 = Ok [VNum 2] ∧
  (updateWhere_finish "id" rs t1).2 = Ok tt ∧
  field_at t2 1 "age" = VNum 45 ∧
  field_at (internalUpdateMany [bob_age_46] (internalUpdateWhere f rename_robert demo_users).1).1 1 "age"
    = VNum 46 ∧
  field_at (internalUpdateWhere f rename_robert (internalUpdateMany [bob_age_46] demo_users).1).1 1 "age"
    = VNum 46.
Proof.
  intros f rs t1 t2.
  assert (Hs : updateWhere_start f rename_robert demo_users = (demo_users, Ok rs))
    by (vm_compute; reflexivity).
  split_and!; [exact Hs| |vm_compute; reflexivity..].
  eapply rtc_l; [apply (cstep_start f rename_robert demo_users demo_users rs []); [exact Hs|decide_by_eval]|].
  eapply rtc_l; [apply cstep_op, (step_updateMany [bob_age_46]); decide_by_eval|].
  apply rtc_once, cstep_resume, resume_first.
Qed.

