(* ===== verification/Database.v ===== *)
(** * A database of several tables, and hooks that change the table

    The public operations pass the table to [middleware] twice: as the
    source of the hooks and of the context's table name, and as the first
    of the parameters, [params: [table, entity]], from which the
    implementation takes the table it works on
    ([(table, entity) => internalInsert(table, entity)] in insert.ts, and
    the same in remove.ts, upsert.ts, updateMany.ts and updateWhere.ts).
    A hook may call [next] with another table: the operation then runs on
    that table, while the hooks that ran were those of the first one and
    the context named it.

    A database is modelled as its tables by name ([gmap string table]);
    a table handle is the name of a table of the database.  [on_table n c]
    runs a table operation on the table named [n] and stores the result;
    a handle that names no table is [undefined], on which the first
    [table[BlinkKey]] throws a TypeError.  The wrappers [db_insert],
    [db_remove], [db_upsert], [db_updateMany] and [db_updateWhere] are
    the public operations with the table among the hook parameters;
    those of [Operations] are the case of hooks that keep the table. *)

From S2P Require Import Prelude Values OrderedIndex Matchers Middleware Table Update Select Mutations Operations.

(** ** Databases and operations on one of their tables *)

Definition database : Type := gmap string table.
#[export] Typeclasses Transparent database.

Abbreviation dstm A := (stm database error A).

(** The TypeError of [undefined[BlinkKey]]. *)
Definition no_table_error : error := TypeError "Cannot read properties of undefined".

(** Run a table operation on the table named [name]. *)
Definition on_table {A} (name : string) (c : tstm A) : dstm A :=
  fun d =>
  match d !! name with
  | Some t => let (t', r) := c t in (<[name := t']> d, r)
  | None => (d, Err no_table_error)
  end.

(** A hook of action [a] with the table among its parameters. *)
Abbreviation DbHook a := (Hook (string * HookParams a) (dstm (HookReturn a))).

(** [middleware(table, { action, params: [table, ...ps] }, (table, ...ps) => impl(table, ...ps))] *)
Definition db_run (a : HookAction) (dbHooks tableHooks : list (DbHook a)) (name : string)
    (ps : HookParams a) (impl : HookParams a -> tstm (HookReturn a)) : dstm (HookReturn a) :=
  middleware (FromTable dbHooks tableHooks name) name a (name, ps)
    (fun p => on_table p.1 (impl p.2)).

(** [insert(table, entity)] *)
Definition db_insert (dbHooks tableHooks : list (DbHook ActInsert)) (name : string) (e : entity)
    : dstm value :=
  db_run ActInsert dbHooks tableHooks name e internalInsert.

(** [remove(table, entity)] *)
Definition db_remove (dbHooks tableHooks : list (DbHook ActRemove)) (name : string) (e : object)
    : dstm bool :=
  db_run ActRemove dbHooks tableHooks name e internalRemove.

(** [upsert(table, entity)] *)
Definition db_upsert (dbHooks tableHooks : list (DbHook ActUpsert)) (name : string) (e : entity)
    : dstm value :=
  db_run ActUpsert dbHooks tableHooks name e internalUpsert.

(** [updateMany(table, diffs)] *)
Definition db_updateMany (dbHooks tableHooks : list (DbHook ActUpdateMany)) (name : string)
    (diffs : list object) : dstm (list value) :=
  db_run ActUpdateMany dbHooks tableHooks name diffs internalUpdateMany.

(** [updateWhere(table, filter, callback)] *)
Definition db_updateWhere (dbHooks tableHooks : list (DbHook ActUpdateWhere)) (name : string)
    (filter : Filter) (cb : callback) : dstm unit :=
  db_run ActUpdateWhere dbHooks tableHooks name (filter, cb)
    (fun ps => internalUpdateWhere ps.1 ps.2).

(** ** Lemmas *)

(** An operation on one table leaves the other tables as they were. *)
Lemma on_table_frame {A} name (c : tstm A) d n :
  n ≠ name -> (on_table name c d).1 !! n = d !! n.
Proof.
  intros Hn. unfold on_table. destruct (d !! name) as [t|]; [|done].
  destruct (c t). simpl. apply (lookup_insert_ne (M:=gmap string)). congruence.
Qed.

(** A property of tables kept by a table operation is kept, for every
    table, by running it on one table of a database. *)
Lemma on_table_preserves {A} (P : table -> Prop) name (c : tstm A) :
  stm_preserves P c -> stm_preserves (map_Forall (fun _ => P)) (on_table name c).
Proof.
  intros Hc d Hd. unfold on_table. destruct (d !! name) as [t|] eqn:Ht; [|done].
  pose proof (Hc t (Hd name t Ht)) as Ht'. destruct (c t) as [t' r].
  by apply map_Forall_insert_2.
Qed.

(** A handle that names no table makes the implementation throw. *)
Lemma on_table_missing {A} name (c : tstm A) d :
  d !! name = None -> on_table name c d = (d, Err no_table_error).
Proof. unfold on_table. by intros ->. Qed.
